(** * Omni live voice session engine: a shallow embedding

    The development follows the code of the React component that owns the
    live session (audio utilities, [connectToLiveAPI], its [onopen] /
    [onmessage] / [onclose] / [onerror] callbacks and [disconnect]).

    Numbers.  JavaScript numbers are IEEE doubles and audio samples are
    Float32 values.  Finite samples and clock readings are modelled as
    rationals ([Q]): every finite Float32 sample is a dyadic rational, the
    products [s * 0x8000] and [s * 0x7FFF] of a Float32 by a 15/16-bit
    integer are exact in double precision, and dividing a 16-bit integer by
    [32768.0] is exact as well, so the codec is modelled without rounding.
    The clock and the noise generator are carried out in exact rational
    arithmetic, and [Math.sqrt] and the distortion curve in the reals.

    Events.  Each handler of the component is a function on the state of
    the component ([App]), which also records the calls made on outside
    objects ([trace]) and the jobs queued by [then] on the session promise
    ([jobs]).  A handler runs to completion, then its jobs run ([step]);
    what a handler awaits ([getUserMedia], the capabilities behind the
    tools) answers within the step, with a value or with an exception. *)

From Stdlib Require Import Reals Qreals Lra.
From Stdlib Require Import ZArith NArith QArith Qabs Qminmax Qround Lia Lqa.
From Stdlib Require Import List Bool Ascii String DecimalString Sorted.
Import ListNotations.

Local Open Scope Z_scope.

(** ** Base64 (the host's [btoa] / [atob]) *)

Module Base64.
Local Open Scope N_scope.

(** The 64 characters [A-Z a-z 0-9 + /], by character code. *)
Definition b64char (n : N) : ascii :=
  ascii_of_N
    (if n <? 26 then n + 65
     else if n <? 52 then n + 71
     else if n <? 62 then n - 4
     else if n =? 62 then 43 else 47).

Definition b64val (c : ascii) : option N :=
  let k := N_of_ascii c in
  if (65 <=? k) && (k <=? 90) then Some (k - 65)
  else if (97 <=? k) && (k <=? 122) then Some (k - 71)
  else if (48 <=? k) && (k <=? 57) then Some (k + 4)
  else if k =? 43 then Some 62
  else if k =? 47 then Some 63
  else None.

Definition pad : ascii := "="%char.

(** [btoa]: three bytes become four characters; a tail of one or two
    bytes is padded with [=]. *)
Fixpoint btoa_list (bs : list N) : list ascii :=
  match bs with
  | [] => []
  | [a] => [b64char (a / 4); b64char ((a mod 4) * 16); pad; pad]
  | [a; b] =>
      [b64char (a / 4); b64char ((a mod 4) * 16 + b / 16);
       b64char ((b mod 16) * 4); pad]
  | a :: b :: c :: rest =>
      b64char (a / 4) :: b64char ((a mod 4) * 16 + b / 16)
      :: b64char ((b mod 16) * 4 + c / 64) :: b64char (c mod 64)
      :: btoa_list rest
  end.

Definition byte1 (v1 v2 : N) : N := v1 * 4 + v2 / 16.
Definition byte2 (v2 v3 : N) : N := (v2 mod 16) * 16 + v3 / 4.
Definition byte3 (v3 v4 : N) : N := (v3 mod 4) * 64 + v4.

Definition dec2 (c1 c2 : ascii) : option (list N) :=
  match b64val c1, b64val c2 with
  | Some v1, Some v2 => Some [byte1 v1 v2]
  | _, _ => None
  end.

Definition dec3 (c1 c2 c3 : ascii) : option (list N) :=
  match b64val c1, b64val c2, b64val c3 with
  | Some v1, Some v2, Some v3 => Some [byte1 v1 v2; byte2 v2 v3]
  | _, _, _ => None
  end.

Definition dec4 (c1 c2 c3 c4 : ascii) : option (list N) :=
  match b64val c1, b64val c2, b64val c3, b64val c4 with
  | Some v1, Some v2, Some v3, Some v4 =>
      Some [byte1 v1 v2; byte2 v2 v3; byte3 v3 v4]
  | _, _, _, _ => None
  end.

(** [atob] after white space has been removed (the forgiving decoder of
    the platform): padding is optional, a lone trailing character or a
    character outside the alphabet is an error. *)
Fixpoint atob_list (cs : list ascii) : option (list N) :=
  match cs with
  | [] => Some []
  | [_] => None
  | [c1; c2] => dec2 c1 c2
  | [c1; c2; c3] => dec3 c1 c2 c3
  | c1 :: c2 :: c3 :: c4 :: rest =>
      match rest with
      | [] =>
          if Ascii.eqb c4 pad
          then if Ascii.eqb c3 pad then dec2 c1 c2 else dec3 c1 c2 c3
          else dec4 c1 c2 c3 c4
      | _ :: _ =>
          match dec4 c1 c2 c3 c4, atob_list rest with
          | Some l, Some r => Some (l ++ r)
          | _, _ => None
          end
      end
  end.

Definition is_space (c : ascii) : bool :=
  let k := N_of_ascii c in
  (k =? 9) || (k =? 10) || (k =? 12) || (k =? 13) || (k =? 32).

Definition bytes_of_string (s : string) : list N :=
  map N_of_ascii (list_ascii_of_string s).

Definition string_of_bytes (bs : list N) : string :=
  string_of_list_ascii (map ascii_of_N bs).

(** [btoa(binary)]: the argument is a binary string (codes 0..255). *)
Definition btoa (binary : string) : string :=
  string_of_list_ascii (btoa_list (bytes_of_string binary)).

(** [atob(base64)]: [None] stands for the [InvalidCharacterError]. *)
Definition atob (base64 : string) : option string :=
  match atob_list (filter (fun c => negb (is_space c))
                          (list_ascii_of_string base64)) with
  | Some bs => Some (string_of_bytes bs)
  | None => None
  end.

End Base64.

(** ** Audio codec ([createAudioData], [decodeAudioData]) *)

Local Open Scope Q_scope.

(** Truncation toward zero, the first step of the conversion of a number
    stored into an [Int16Array]. *)
Definition Qtrunc (q : Q) : Z := Z.quot (Qnum q) (Zpos (Qden q)).

(** Wrap-around of the stored integer modulo [2^16], read back signed. *)
Definition ToInt16 (z : Z) : Z :=
  let m := (z mod 65536)%Z in
  if (32768 <=? m)%Z then (m - 65536)%Z else m.

Definition Qltb (x y : Q) : bool := negb (Qle_bool y x).

(** [Math.max(-1, Math.min(1, x))] *)
Definition clamp (x : Q) : Q := Qmax (-1) (Qmin 1 x).

(** Body of the encoding loop:
    [s = clamp(data[i]); int16[i] = s < 0 ? s * 0x8000 : s * 0x7FFF]. *)
Definition pcm16 (x : Q) : Z :=
  let s := clamp x in
  ToInt16 (Qtrunc (if Qltb s 0 then s * 0x8000 else s * 0x7FFF)).

(** [new Uint8Array(int16.buffer)]: low byte first. *)
Definition int16_bytes (z : Z) : list N :=
  let u := (z mod 65536)%Z in
  [Z.to_N (u mod 256); Z.to_N (u / 256)].

Definition uint8_view (int16 : list Z) : list N := flat_map int16_bytes int16.

Record AudioData := { data : string; mimeType : string }.

Definition createAudioData (d : list Q) : AudioData :=
  let int16 := map pcm16 d in
  let uint8 := uint8_view int16 in
  let binary := Base64.string_of_bytes uint8 in   (* String.fromCharCode *)
  {| data := Base64.btoa binary; mimeType := "audio/pcm;rate=16000" |}.

(** [new Int16Array(bytes.buffer)]: a [RangeError] ([None]) when the byte
    length is odd. *)
Fixpoint int16_view (bytes : list N) : option (list Z) :=
  match bytes with
  | [] => Some []
  | [_] => None
  | lo :: hi :: rest =>
      match int16_view rest with
      | Some l => Some (ToInt16 (Z.of_N lo + 256 * Z.of_N hi) :: l)
      | None => None
      end
  end.

Record AudioContext := { sampleRate : Z }.

Record AudioBuffer := { channelData : list Q; bufferRate : Z }.

(** [buffer.duration]: the number of sample frames over the sample rate. *)
Definition duration (b : AudioBuffer) : Q :=
  inject_Z (Z.of_nat (List.length (channelData b))) / inject_Z (bufferRate b).

(** [decodeAudioData(base64, ctx)].  [None] is a thrown exception: invalid
    base64, an odd number of bytes, a missing context ([ctx] comes from
    [audioContextRef.current!]) or [createBuffer] with a length of zero. *)
Definition decodeAudioData (base64 : string) (ctx : option AudioContext)
  : option AudioBuffer :=
  match Base64.atob base64 with
  | None => None
  | Some binaryString =>
      let bytes := Base64.bytes_of_string binaryString in
      match int16_view bytes, ctx with
      | Some dataInt16, Some _ =>
          match dataInt16 with
          | [] => None
          | _ :: _ =>
              Some {| channelData := map (fun v => inject_Z v / 32768) dataInt16;
                      bufferRate := 24000 |}
          end
      | _, _ => None
      end
  end.

(** ** Data model *)

Inductive AppMode := IDLE | LISTENING | THINKING | SPEAKING.

Inductive InboxItemType := image | search | text | audio.

Inductive Role := user | assistant | system.

Record SearchResult := { title : string; url : string }.

(** [content: any]: a URL or text, the links of a search, or [undefined]
    when a tool argument was missing. *)
Inductive Content :=
| CString (s : string)
| CLinks (l : list SearchResult)
| CUndefined.

Module InboxItem.
Record t :=
  { id : string; type : InboxItemType; role : Role; content : Content;
    edited : bool }.
End InboxItem.

Record LogMessage := { log_role : Role; log_text : string }.

(** A function call of the remote service.  [id], [name] and [args] are
    optional on the wire; argument values are strings. *)
Module FunctionCall.
Record t :=
  { id : option string; name : option string;
    args : option (list (string * string)) }.
End FunctionCall.

(** [{ error: reason }] or [{ result: text }] *)
Inductive ToolOutput :=
| error (reason : string)
| result (value : string).

Module FunctionResponse.
Record t :=
  { id : option string; name : option string; response : ToolOutput }.
End FunctionResponse.

(** [message.serverContent?.modelTurn?.parts?.[0]?.inlineData?.data] and
    [message.toolCall.functionCalls]. *)
Record LiveServerMessage :=
  { audioData : option string;
    toolCall : option (list FunctionCall.t) }.

(** *** Web Audio objects *)

Record MediaStream := { tracks : nat }.
Record ScriptProcessor := { bufferSize : Z }.
Record MediaStreamSource := { mediaStream : MediaStream }.

(** The looping noise source with the gain it is played through. *)
Record NoiseSource := { noiseBuffer : list Q; loop : bool; noiseGain : Q }.

Inductive BiquadType := highpass | lowpass.
Inductive OverSampleType := x4.

Inductive AudioNode :=
| BufferSourceNode (buffer : AudioBuffer)
| AnalyserNode (fftSize : Z)
| BiquadFilterNode (type : BiquadType) (frequency : Q)
| GainNode (gain : Q)
| WaveShaperNode (curve : nat -> R) (oversample : OverSampleType)
| DestinationNode.

Inductive NodeId :=
| n_source | n_analyser | n_highpass | n_lowpass | n_gainNode
| n_distortion | n_destination.

(** The nodes created for one buffer and the [connect] calls, in order. *)
Record Graph := { nodes : list (NodeId * AudioNode);
                  edges : list (NodeId * NodeId) }.

(** *** The session promise and the job queue

    [sessionPromise.then(f)] never runs [f] at once: on a fulfilled promise
    it queues a job that runs after the running handler has returned, on a
    pending promise [f] waits for the fulfilment, on a rejected one it is
    dropped. *)
Inductive PromiseState := Pending | Fulfilled | Rejected.

Inductive Job :=
| JGreeting (txt : string)
| JRealtimeInput (media : AudioData)
| JToolResponse (r : FunctionResponse.t)
| JClose.

Record SessionPromise := { pstate : PromiseState; reactions : list Job }.

(** Calls on objects outside the component, in the order they are made. *)
Inductive Effect :=
| Alert (msg : string)                  (* alert(msg) *)
| LiveConnect                           (* ai.live.connect(...) *)
| NoiseStart (n : NoiseSource)          (* bgNoise -> bgGain -> destination; bgNoise.start() *)
| CaptureAttach                         (* source -> processor -> inputCtx.destination *)
| SourceStart (g : Graph) (b : AudioBuffer) (start : Q)
                                        (* the connections of g; source.start(start) *)
| ClearInterval                         (* clearInterval(volumeInterval) *)
| SendRealtimeInput (media : AudioData) (* session.sendRealtimeInput({ media }) *)
| SendClientContent (txt : string)      (* session.sendClientContent(...) *)
| SendToolResponse (r : FunctionResponse.t)
                                        (* session.sendToolResponse(...) *)
| SessionClose                          (* s.close() *)
| CaptureDetach                         (* processor.onaudioprocess = null *)
| ProcessorDisconnect                   (* processor.disconnect() *)
| MicSourceDisconnect                   (* source.disconnect() *)
| TrackStop                             (* t.stop() on a track of the stream *)
| NoiseStop                             (* bgNoise.stop() *)
| ContextClose.                         (* audioContext.close() *)

(** *** The component

    React state ([mode] .. [callFilterEnabled]), refs ([audioContextRef] ..
    [inboxRef]), what the callbacks of the live session captured when
    [connectToLiveAPI] ran ([stream], [callFilter]), the number of running
    volume intervals, the queued promise jobs and the trace of effects. *)
Record App := {
  mode : AppMode;
  connected : bool;
  volume : R;
  logs : list LogMessage;
  inbox : list InboxItem.t;
  callFilterEnabled : bool;
  audioContextRef : option AudioContext;
  inputContextRef : option AudioContext;
  nextStartTimeRef : Q;
  sessionRef : option SessionPromise;
  processorRef : option ScriptProcessor;
  sourceRef : option MediaStreamSource;
  streamRef : option MediaStream;
  bgNoiseRef : option NoiseSource;
  inboxRef : list InboxItem.t;
  stream : option MediaStream;
  callFilter : bool;
  intervals : nat;
  jobs : list Job;
  trace : list Effect
}.

Definition setMode (x : AppMode) (w : App) : App :=
  {| mode := x; connected := connected w; volume := volume w; logs := logs w;
     inbox := inbox w; callFilterEnabled := callFilterEnabled w;
     audioContextRef := audioContextRef w;
     inputContextRef := inputContextRef w;
     nextStartTimeRef := nextStartTimeRef w; sessionRef := sessionRef w;
     processorRef := processorRef w; sourceRef := sourceRef w;
     streamRef := streamRef w; bgNoiseRef := bgNoiseRef w;
     inboxRef := inboxRef w; stream := stream w; callFilter := callFilter w;
     intervals := intervals w; jobs := jobs w; trace := trace w |}.
Definition setConnected (x : bool) (w : App) : App :=
  {| mode := mode w; connected := x; volume := volume w; logs := logs w;
     inbox := inbox w; callFilterEnabled := callFilterEnabled w;
     audioContextRef := audioContextRef w;
     inputContextRef := inputContextRef w;
     nextStartTimeRef := nextStartTimeRef w; sessionRef := sessionRef w;
     processorRef := processorRef w; sourceRef := sourceRef w;
     streamRef := streamRef w; bgNoiseRef := bgNoiseRef w;
     inboxRef := inboxRef w; stream := stream w; callFilter := callFilter w;
     intervals := intervals w; jobs := jobs w; trace := trace w |}.
Definition setVolume (x : R) (w : App) : App :=
  {| mode := mode w; connected := connected w; volume := x; logs := logs w;
     inbox := inbox w; callFilterEnabled := callFilterEnabled w;
     audioContextRef := audioContextRef w;
     inputContextRef := inputContextRef w;
     nextStartTimeRef := nextStartTimeRef w; sessionRef := sessionRef w;
     processorRef := processorRef w; sourceRef := sourceRef w;
     streamRef := streamRef w; bgNoiseRef := bgNoiseRef w;
     inboxRef := inboxRef w; stream := stream w; callFilter := callFilter w;
     intervals := intervals w; jobs := jobs w; trace := trace w |}.
Definition setLogs (x : list LogMessage) (w : App) : App :=
  {| mode := mode w; connected := connected w; volume := volume w; logs := x;
     inbox := inbox w; callFilterEnabled := callFilterEnabled w;
     audioContextRef := audioContextRef w;
     inputContextRef := inputContextRef w;
     nextStartTimeRef := nextStartTimeRef w; sessionRef := sessionRef w;
     processorRef := processorRef w; sourceRef := sourceRef w;
     streamRef := streamRef w; bgNoiseRef := bgNoiseRef w;
     inboxRef := inboxRef w; stream := stream w; callFilter := callFilter w;
     intervals := intervals w; jobs := jobs w; trace := trace w |}.
Definition setInbox (x : list InboxItem.t) (w : App) : App :=
  {| mode := mode w; connected := connected w; volume := volume w;
     logs := logs w; inbox := x; callFilterEnabled := callFilterEnabled w;
     audioContextRef := audioContextRef w;
     inputContextRef := inputContextRef w;
     nextStartTimeRef := nextStartTimeRef w; sessionRef := sessionRef w;
     processorRef := processorRef w; sourceRef := sourceRef w;
     streamRef := streamRef w; bgNoiseRef := bgNoiseRef w;
     inboxRef := inboxRef w; stream := stream w; callFilter := callFilter w;
     intervals := intervals w; jobs := jobs w; trace := trace w |}.
Definition setCallFilterEnabled (x : bool) (w : App) : App :=
  {| mode := mode w; connected := connected w; volume := volume w;
     logs := logs w; inbox := inbox w; callFilterEnabled := x;
     audioContextRef := audioContextRef w;
     inputContextRef := inputContextRef w;
     nextStartTimeRef := nextStartTimeRef w; sessionRef := sessionRef w;
     processorRef := processorRef w; sourceRef := sourceRef w;
     streamRef := streamRef w; bgNoiseRef := bgNoiseRef w;
     inboxRef := inboxRef w; stream := stream w; callFilter := callFilter w;
     intervals := intervals w; jobs := jobs w; trace := trace w |}.
Definition set_audioContextRef (x : option AudioContext) (w : App) : App :=
  {| mode := mode w; connected := connected w; volume := volume w;
     logs := logs w; inbox := inbox w;
     callFilterEnabled := callFilterEnabled w; audioContextRef := x;
     inputContextRef := inputContextRef w;
     nextStartTimeRef := nextStartTimeRef w; sessionRef := sessionRef w;
     processorRef := processorRef w; sourceRef := sourceRef w;
     streamRef := streamRef w; bgNoiseRef := bgNoiseRef w;
     inboxRef := inboxRef w; stream := stream w; callFilter := callFilter w;
     intervals := intervals w; jobs := jobs w; trace := trace w |}.
Definition set_inputContextRef (x : option AudioContext) (w : App) : App :=
  {| mode := mode w; connected := connected w; volume := volume w;
     logs := logs w; inbox := inbox w;
     callFilterEnabled := callFilterEnabled w;
     audioContextRef := audioContextRef w; inputContextRef := x;
     nextStartTimeRef := nextStartTimeRef w; sessionRef := sessionRef w;
     processorRef := processorRef w; sourceRef := sourceRef w;
     streamRef := streamRef w; bgNoiseRef := bgNoiseRef w;
     inboxRef := inboxRef w; stream := stream w; callFilter := callFilter w;
     intervals := intervals w; jobs := jobs w; trace := trace w |}.
Definition set_nextStartTimeRef (x : Q) (w : App) : App :=
  {| mode := mode w; connected := connected w; volume := volume w;
     logs := logs w; inbox := inbox w;
     callFilterEnabled := callFilterEnabled w;
     audioContextRef := audioContextRef w;
     inputContextRef := inputContextRef w; nextStartTimeRef := x;
     sessionRef := sessionRef w; processorRef := processorRef w;
     sourceRef := sourceRef w; streamRef := streamRef w;
     bgNoiseRef := bgNoiseRef w; inboxRef := inboxRef w; stream := stream w;
     callFilter := callFilter w; intervals := intervals w; jobs := jobs w;
     trace := trace w |}.
Definition set_sessionRef (x : option SessionPromise) (w : App) : App :=
  {| mode := mode w; connected := connected w; volume := volume w;
     logs := logs w; inbox := inbox w;
     callFilterEnabled := callFilterEnabled w;
     audioContextRef := audioContextRef w;
     inputContextRef := inputContextRef w;
     nextStartTimeRef := nextStartTimeRef w; sessionRef := x;
     processorRef := processorRef w; sourceRef := sourceRef w;
     streamRef := streamRef w; bgNoiseRef := bgNoiseRef w;
     inboxRef := inboxRef w; stream := stream w; callFilter := callFilter w;
     intervals := intervals w; jobs := jobs w; trace := trace w |}.
Definition set_processorRef (x : option ScriptProcessor) (w : App) : App :=
  {| mode := mode w; connected := connected w; volume := volume w;
     logs := logs w; inbox := inbox w;
     callFilterEnabled := callFilterEnabled w;
     audioContextRef := audioContextRef w;
     inputContextRef := inputContextRef w;
     nextStartTimeRef := nextStartTimeRef w; sessionRef := sessionRef w;
     processorRef := x; sourceRef := sourceRef w; streamRef := streamRef w;
     bgNoiseRef := bgNoiseRef w; inboxRef := inboxRef w; stream := stream w;
     callFilter := callFilter w; intervals := intervals w; jobs := jobs w;
     trace := trace w |}.
Definition set_sourceRef (x : option MediaStreamSource) (w : App) : App :=
  {| mode := mode w; connected := connected w; volume := volume w;
     logs := logs w; inbox := inbox w;
     callFilterEnabled := callFilterEnabled w;
     audioContextRef := audioContextRef w;
     inputContextRef := inputContextRef w;
     nextStartTimeRef := nextStartTimeRef w; sessionRef := sessionRef w;
     processorRef := processorRef w; sourceRef := x;
     streamRef := streamRef w; bgNoiseRef := bgNoiseRef w;
     inboxRef := inboxRef w; stream := stream w; callFilter := callFilter w;
     intervals := intervals w; jobs := jobs w; trace := trace w |}.
Definition set_streamRef (x : option MediaStream) (w : App) : App :=
  {| mode := mode w; connected := connected w; volume := volume w;
     logs := logs w; inbox := inbox w;
     callFilterEnabled := callFilterEnabled w;
     audioContextRef := audioContextRef w;
     inputContextRef := inputContextRef w;
     nextStartTimeRef := nextStartTimeRef w; sessionRef := sessionRef w;
     processorRef := processorRef w; sourceRef := sourceRef w;
     streamRef := x; bgNoiseRef := bgNoiseRef w; inboxRef := inboxRef w;
     stream := stream w; callFilter := callFilter w;
     intervals := intervals w; jobs := jobs w; trace := trace w |}.
Definition set_bgNoiseRef (x : option NoiseSource) (w : App) : App :=
  {| mode := mode w; connected := connected w; volume := volume w;
     logs := logs w; inbox := inbox w;
     callFilterEnabled := callFilterEnabled w;
     audioContextRef := audioContextRef w;
     inputContextRef := inputContextRef w;
     nextStartTimeRef := nextStartTimeRef w; sessionRef := sessionRef w;
     processorRef := processorRef w; sourceRef := sourceRef w;
     streamRef := streamRef w; bgNoiseRef := x; inboxRef := inboxRef w;
     stream := stream w; callFilter := callFilter w;
     intervals := intervals w; jobs := jobs w; trace := trace w |}.
Definition set_inboxRef (x : list InboxItem.t) (w : App) : App :=
  {| mode := mode w; connected := connected w; volume := volume w;
     logs := logs w; inbox := inbox w;
     callFilterEnabled := callFilterEnabled w;
     audioContextRef := audioContextRef w;
     inputContextRef := inputContextRef w;
     nextStartTimeRef := nextStartTimeRef w; sessionRef := sessionRef w;
     processorRef := processorRef w; sourceRef := sourceRef w;
     streamRef := streamRef w; bgNoiseRef := bgNoiseRef w; inboxRef := x;
     stream := stream w; callFilter := callFilter w;
     intervals := intervals w; jobs := jobs w; trace := trace w |}.
Definition set_stream (x : option MediaStream) (w : App) : App :=
  {| mode := mode w; connected := connected w; volume := volume w;
     logs := logs w; inbox := inbox w;
     callFilterEnabled := callFilterEnabled w;
     audioContextRef := audioContextRef w;
     inputContextRef := inputContextRef w;
     nextStartTimeRef := nextStartTimeRef w; sessionRef := sessionRef w;
     processorRef := processorRef w; sourceRef := sourceRef w;
     streamRef := streamRef w; bgNoiseRef := bgNoiseRef w;
     inboxRef := inboxRef w; stream := x; callFilter := callFilter w;
     intervals := intervals w; jobs := jobs w; trace := trace w |}.
Definition set_callFilter (x : bool) (w : App) : App :=
  {| mode := mode w; connected := connected w; volume := volume w;
     logs := logs w; inbox := inbox w;
     callFilterEnabled := callFilterEnabled w;
     audioContextRef := audioContextRef w;
     inputContextRef := inputContextRef w;
     nextStartTimeRef := nextStartTimeRef w; sessionRef := sessionRef w;
     processorRef := processorRef w; sourceRef := sourceRef w;
     streamRef := streamRef w; bgNoiseRef := bgNoiseRef w;
     inboxRef := inboxRef w; stream := stream w; callFilter := x;
     intervals := intervals w; jobs := jobs w; trace := trace w |}.
Definition set_intervals (x : nat) (w : App) : App :=
  {| mode := mode w; connected := connected w; volume := volume w;
     logs := logs w; inbox := inbox w;
     callFilterEnabled := callFilterEnabled w;
     audioContextRef := audioContextRef w;
     inputContextRef := inputContextRef w;
     nextStartTimeRef := nextStartTimeRef w; sessionRef := sessionRef w;
     processorRef := processorRef w; sourceRef := sourceRef w;
     streamRef := streamRef w; bgNoiseRef := bgNoiseRef w;
     inboxRef := inboxRef w; stream := stream w; callFilter := callFilter w;
     intervals := x; jobs := jobs w; trace := trace w |}.
Definition set_jobs (x : list Job) (w : App) : App :=
  {| mode := mode w; connected := connected w; volume := volume w;
     logs := logs w; inbox := inbox w;
     callFilterEnabled := callFilterEnabled w;
     audioContextRef := audioContextRef w;
     inputContextRef := inputContextRef w;
     nextStartTimeRef := nextStartTimeRef w; sessionRef := sessionRef w;
     processorRef := processorRef w; sourceRef := sourceRef w;
     streamRef := streamRef w; bgNoiseRef := bgNoiseRef w;
     inboxRef := inboxRef w; stream := stream w; callFilter := callFilter w;
     intervals := intervals w; jobs := x; trace := trace w |}.
Definition set_trace (x : list Effect) (w : App) : App :=
  {| mode := mode w; connected := connected w; volume := volume w;
     logs := logs w; inbox := inbox w;
     callFilterEnabled := callFilterEnabled w;
     audioContextRef := audioContextRef w;
     inputContextRef := inputContextRef w;
     nextStartTimeRef := nextStartTimeRef w; sessionRef := sessionRef w;
     processorRef := processorRef w; sourceRef := sourceRef w;
     streamRef := streamRef w; bgNoiseRef := bgNoiseRef w;
     inboxRef := inboxRef w; stream := stream w; callFilter := callFilter w;
     intervals := intervals w; jobs := jobs w; trace := x |}.

Definition initial : App :=
  {| mode := IDLE; connected := false; volume := 0%R; logs := []; inbox := [];
     callFilterEnabled := true;
     audioContextRef := None; inputContextRef := None; nextStartTimeRef := 0;
     sessionRef := None; processorRef := None; sourceRef := None;
     streamRef := None; bgNoiseRef := None; inboxRef := [];
     stream := None; callFilter := true;
     intervals := 0; jobs := []; trace := [] |}.

(** ** Small helpers *)

Notation "a +++ b" := (String.append a b) (right associativity, at level 60).

Definition nl : string := String "010"%char EmptyString.

Definition string_of_Z (z : Z) : string := NilZero.string_of_int (Z.to_int z).

Definition isSome {A} (o : option A) : bool :=
  match o with Some _ => true | None => false end.

(** A string is truthy when it is not empty; [null] is falsy. *)
Definition truthy (o : option string) : bool :=
  match o with
  | Some s => negb (String.eqb s "")
  | None => false
  end.

(** A value inside a template literal. *)
Definition show (o : option string) : string :=
  match o with Some s => s | None => "undefined"%string end.

Definition show_content (c : Content) : string :=
  match c with
  | CString s => s
  | CLinks l => String.concat "," (map (fun _ => "[object Object]"%string) l)
  | CUndefined => "undefined"%string
  end.

Definition content_of (o : option string) : Content :=
  match o with Some s => CString s | None => CUndefined end.

Definition show_role (r : Role) : string :=
  match r with
  | user => "user" | assistant => "assistant" | system => "system"
  end%string.

Fixpoint lookup (k : string) (a : list (string * string)) : option string :=
  match a with
  | [] => None
  | (k', v) :: rest => if String.eqb k k' then Some v else lookup k rest
  end.

Definition emit (e : Effect) (w : App) : App := set_trace (trace w ++ [e]) w.

Definition addLog (r : Role) (t : string) (w : App) : App :=
  setLogs (logs w ++ [{| log_role := r; log_text := t |}]) w.

(** [sessionPromise.then(session => ...)].  The callbacks of a session hold
    its promise in [sessionPromise] and [disconnect] reads it from
    [sessionRef.current]: one promise, that of the one live session. *)
Definition then_ (j : Job) (w : App) : App :=
  match sessionRef w with
  | None => w
  | Some p =>
      match pstate p with
      | Fulfilled => set_jobs (jobs w ++ [j]) w
      | Pending =>
          set_sessionRef
            (Some {| pstate := Pending; reactions := reactions p ++ [j] |}) w
      | Rejected => w
      end
  end.

(** The body of each [then] callback, run on the resolved session. *)
Definition run_job (j : Job) (w : App) : App :=
  match j with
  | JGreeting t => emit (SendClientContent t) w
  | JRealtimeInput m =>
      (* Double check connection before sending *)
      if isSome (processorRef w) then emit (SendRealtimeInput m) w else w
  | JToolResponse r => emit (SendToolResponse r) w
  | JClose => emit SessionClose w
  end.

(** The queued jobs run once the handler that queued them has returned. *)
Definition drain (w : App) : App :=
  fold_left (fun acc j => run_job j acc) (jobs w) (set_jobs [] w).

(** ** Audio utilities *)

(** [makeDistortionCurve(amount)]: sample [i] of the 44100-point curve. *)
Definition n_samples : Z := 44100.

Definition makeDistortionCurve (amount : R) (i : nat) : R :=
  let k := amount in
  let deg := (PI / 180)%R in
  let x := (INR i * 2 / IZR n_samples - 1)%R in
  ((3 + k) * x * 20 * deg / (PI + k * Rabs x))%R.

(** The filter state of the pink-noise generator. *)
Record Pink := { b0 : Q; b1 : Q; b2 : Q; b3 : Q; b4 : Q; b5 : Q; b6 : Q }.

(** The generation loop; [random k] is the value of the [k]-th call of
    [Math.random()], and [n] samples remain to be written. *)
Fixpoint pinkNoise (random : nat -> Q) (n k : nat) (p : Pink) : list Q :=
  match n with
  | O => []
  | S n' =>
      let white := random k * 2 - 1 in
      let b0' := 0.99886 * b0 p + white * 0.0555179 in
      let b1' := 0.99332 * b1 p + white * 0.0750759 in
      let b2' := 0.96900 * b2 p + white * 0.1538520 in
      let b3' := 0.86650 * b3 p + white * 0.3104856 in
      let b4' := 0.55000 * b4 p + white * 0.5329522 in
      let b5' := -0.7616 * b5 p - white * 0.0168980 in
      let sample :=
        (b0' + b1' + b2' + b3' + b4' + b5' + b6 p + white * 0.5362) * 0.11 in
      let p' := {| b0 := b0'; b1 := b1'; b2 := b2'; b3 := b3'; b4 := b4';
                   b5 := b5'; b6 := white * 0.115926 |} in
      if Qltb (random (S k)) 0.002
      then (sample + (random (S (S k)) * 2 - 1) * 0.3)
             :: pinkNoise random n' (S (S (S k))) p'
      else sample :: pinkNoise random n' (S (S k)) p'
  end.

Definition pink0 : Pink :=
  {| b0 := 0; b1 := 0; b2 := 0; b3 := 0; b4 := 0; b5 := 0; b6 := 0 |}.

(** The background-noise source of [connectToLiveAPI]: a two-second loop at
    the rate of the output context, played through a gain of 0.018. *)
Definition makeBgNoise (random : nat -> Q) (outputCtx : AudioContext)
  : NoiseSource :=
  let bufferSize := (sampleRate outputCtx * 2)%Z in
  {| noiseBuffer := pinkNoise random (Z.to_nat bufferSize) 0 pink0;
     loop := true;
     noiseGain := 0.018 |}.

(** The nodes and connections built for one decoded buffer. *)
Definition playbackGraph (callFilterEnabled : bool) (buffer : AudioBuffer)
  : Graph :=
  let base_nodes :=
    [(n_source, BufferSourceNode buffer); (n_analyser, AnalyserNode 32);
     (n_destination, DestinationNode)] in
  let base_edges := [(n_source, n_analyser)] in
  if callFilterEnabled then
    {| nodes := base_nodes ++
         [(n_highpass, BiquadFilterNode highpass 300);
          (n_lowpass, BiquadFilterNode lowpass 3400);
          (n_gainNode, GainNode 0.85);
          (n_distortion, WaveShaperNode (makeDistortionCurve 5) x4)];
       edges := base_edges ++
         [(n_source, n_highpass); (n_highpass, n_distortion);
          (n_distortion, n_lowpass); (n_lowpass, n_gainNode);
          (n_gainNode, n_destination)] |}
  else
    {| nodes := base_nodes;
       edges := base_edges ++ [(n_source, n_destination)] |}.

Definition NodeId_eqb (a b : NodeId) : bool :=
  match a, b with
  | n_source, n_source | n_analyser, n_analyser | n_highpass, n_highpass
  | n_lowpass, n_lowpass | n_gainNode, n_gainNode
  | n_distortion, n_distortion | n_destination, n_destination => true
  | _, _ => false
  end.

(** The nodes [a] is connected to, and every signal path from a node to
    the destination (the nodes after the starting node, the destination
    included), explored to a bounded depth. *)
Definition successors (g : Graph) (a : NodeId) : list NodeId :=
  map snd (filter (fun e => NodeId_eqb (fst e) a) (edges g)).

Fixpoint routes (g : Graph) (fuel : nat) (a : NodeId) : list (list NodeId) :=
  match fuel with
  | O => []
  | S fuel' =>
      flat_map
        (fun b =>
           if NodeId_eqb b n_destination then [[b]]
           else map (cons b) (routes g fuel' b))
        (successors g a)
  end.

Definition node_of (g : Graph) (a : NodeId) : option AudioNode :=
  match find (fun p => NodeId_eqb (fst p) a) (nodes g) with
  | Some p => Some (snd p)
  | None => None
  end.

(** ** Volume *)

Definition sum_squares (inputData : list Q) : Q :=
  fold_left (fun sum x => sum + x * x) inputData 0.

(** [Math.sqrt(sum / inputData.length)] *)
Definition rms (inputData : list Q) : R :=
  sqrt (Q2R (sum_squares inputData
             / inject_Z (Z.of_nat (List.length inputData)))).

(** [data.reduce((a, b) => a + b, 0) / data.length / 255], times 8. *)
Definition outputVolume (data : list Byte.byte) : Q :=
  let avg :=
    fold_left (fun a b => a + inject_Z (Z.of_N (Byte.to_N b))) data 0
    / inject_Z (Z.of_nat (List.length data)) / 255 in
  avg * 8.

(** ** Connecting *)

(** What the surroundings answer while [connectToLiveAPI] runs: whether
    [process.env.API_KEY] is set, the stream [getUserMedia] grants ([None]
    when it throws), and the values of [Math.random()]. *)
Record ConnectEnv :=
  { API_KEY : bool;
    getUserMedia : option MediaStream;
    random : nat -> Q }.

(** [connectToLiveAPI].  The text of the system instruction and the voice
    are handed to the service as they are and are left out; [LiveConnect]
    records the call of [ai.live.connect]. *)
Definition connectToLiveAPI (c : ConnectEnv) (w : App) : App :=
  if negb (API_KEY c) then emit (Alert "API Key missing") w
  else
    let w := setMode LISTENING w in
    let w := setConnected true w in
    let w := addLog system "Connecting to WebSocket..." w in
    (* Audio Context Setup *)
    let w := if isSome (audioContextRef w) then w
             else set_audioContextRef (Some {| sampleRate := 24000 |}) w in
    let w := if isSome (inputContextRef w) then w
             else set_inputContextRef (Some {| sampleRate := 16000 |}) w in
    (* Start background noise if call filter is enabled *)
    let w :=
      match audioContextRef w with
      | Some outputCtx =>
          if callFilterEnabled w && negb (isSome (bgNoiseRef w)) then
            let bgNoise := makeBgNoise (random c) outputCtx in
            set_bgNoiseRef (Some bgNoise) (emit (NoiseStart bgNoise) w)
          else w
      | None => w
      end in
    (* Microphone Stream *)
    let w :=
      match getUserMedia c with
      | Some s => set_streamRef (Some s) (set_stream (Some s) w)
      | None =>
          addLog system "Microphone not found. Proceeding in Text/Listen mode."
            (set_stream None w)
      end in
    let w := set_callFilter (callFilterEnabled w) w in
    let w := emit LiveConnect w in
    set_sessionRef (Some {| pstate := Pending; reactions := [] |}) w.

Definition contexts : list string :=
  [ "User just opened the app. Be warm.";
    "User is ready to work. Be professional but brief.";
    "User looks relaxed. Be casual.";
    "It's a new session. Say something interesting.";
    "User might need help. Be attentive." ]%string.

(** The text of the opening turn; [r] is the value of [Math.random()]. *)
Definition greeting (r : Q) : string :=
  let randomContext :=
    nth (Z.to_nat (Qfloor (r * inject_Z (Z.of_nat (List.length contexts)))))
        contexts "undefined"%string in
  "System Event: " +++ randomContext +++
  ". Greet the user naturally based on this context. Keep it short.".

(** [onopen] *)
Definition onopen (r : Q) (w : App) : App :=
  let w := addLog system "Connected!" w in
  (* Only set up audio input if stream exists *)
  let w :=
    match stream w, inputContextRef w with
    | Some s, Some _ =>
        let w := emit CaptureAttach w in
        let w := set_sourceRef (Some {| mediaStream := s |}) w in
        set_processorRef (Some {| bufferSize := 4096 |}) w
    | _, _ => w
    end in
  then_ (JGreeting (greeting r)) w.

(** [processor.onaudioprocess] *)
Definition onaudioprocess (inputData : list Q) (w : App) : App :=
  if negb (isSome (processorRef w)) then w  (* Stop if disconnected *)
  else
    let w := setVolume (rms inputData) w in
    let b64Data := createAudioData inputData in
    then_ (JRealtimeInput b64Data) w.

(** The session promise is fulfilled or rejected. *)
Definition settle (w : App) : App :=
  match sessionRef w with
  | Some p =>
      match pstate p with
      | Pending =>
          set_jobs (jobs w ++ reactions p)
            (set_sessionRef (Some {| pstate := Fulfilled; reactions := [] |}) w)
      | _ => w
      end
  | None => w
  end.

(** ** Teardown *)

(** The blocks of [disconnect], one per resource. *)
Definition stopCapture (w : App) : App :=
  match processorRef w with
  | Some _ =>
      let w := emit CaptureDetach w in  (* onaudioprocess = null: Stop events *)
      let w := emit ProcessorDisconnect w in
      set_processorRef None w
  | None => w
  end.

Definition releaseMic (w : App) : App :=
  match sourceRef w with
  | Some _ => set_sourceRef None (emit MicSourceDisconnect w)
  | None => w
  end.

Definition stopTracks (w : App) : App :=
  match streamRef w with
  | Some s =>
      set_streamRef None (set_trace (trace w ++ repeat TrackStop (tracks s)) w)
  | None => w
  end.

Definition stopNoise (w : App) : App :=
  match bgNoiseRef w with
  | Some _ => set_bgNoiseRef None (emit NoiseStop w)
  | None => w
  end.

(** Instantly cut all audio output *)
Definition closeOutput (w : App) : App :=
  match audioContextRef w with
  | Some _ => set_audioContextRef None (emit ContextClose w)
  | None => w
  end.

Definition disconnect (w : App) : App :=
  let w := if isSome (sessionRef w) then then_ JClose w else w in
  let w := stopCapture w in
  let w := releaseMic w in
  let w := stopTracks w in
  let w := stopNoise w in
  let w := closeOutput w in
  let w := setConnected false w in
  let w := setMode IDLE w in
  setVolume 0%R w.

(** The [catch] on the session promise. *)
Definition fail (msg : string) (w : App) : App :=
  match sessionRef w with
  | Some p =>
      match pstate p with
      | Pending =>
          let w := set_sessionRef
                     (Some {| pstate := Rejected; reactions := [] |}) w in
          let w := addLog system ("Failed to establish connection: " +++ msg) w in
          disconnect w
      | _ => w
      end
  | None => w
  end.

(** [onclose]: [code] and [reason] come from the close event. *)
Definition onclose (code : Z) (reason : string) (w : App) : App :=
  let reason := if String.eqb reason "" then "No reason provided"%string
                else "Reason: " +++ reason in
  let code := if (code =? 0)%Z then "No code"%string
              else "Code: " +++ string_of_Z code in
  let w := addLog system ("Disconnected. " +++ code +++ ". " +++ reason) w in
  disconnect w.

(** What [onerror] receives: an [Error] with its message, another object
    with its JSON text, or something else. *)
Inductive ErrorValue :=
| AnError (message : string)
| AnObject (json : string)
| Other.

Definition onerror (e : ErrorValue) (w : App) : App :=
  let errorMsg := "Connection error."%string in
  let errorMsg :=
    match e with
    | AnError message => errorMsg +++ " " +++ message
    | AnObject json => errorMsg +++ " " +++ json
    | Other => errorMsg
    end in
  let w := addLog system errorMsg w in
  disconnect w.

(** ** Inbound messages: audio *)

(** A handler either runs to its end or stops at a thrown exception; what
    it did to the component before the exception stays done. *)
Inductive Completion :=
| Normal (w : App)
| Abrupt (w : App).

(** What the audio branch does with a decoded buffer: the volume
    interval, the filter graph, the start of the source and the next start
    time; [now] is [ctx.currentTime]. *)
Definition schedule (now : Q) (buffer : AudioBuffer) (w : App) : App :=
  (* Output Volume Analysis: setInterval(..., 50) *)
  let w := set_intervals (S (intervals w)) w in
  (* Apply phone call filter if enabled *)
  let g := playbackGraph (callFilter w) buffer in
  let start := Qmax now (nextStartTimeRef w) in
  let w := emit (SourceStart g buffer start) w in
  set_nextStartTimeRef (start + duration buffer) w.

(** The audio branch of [onmessage] for a non-empty [audioData]. *)
Definition playAudio (now : Q) (audioData : string) (w : App) : Completion :=
  let w := setMode SPEAKING w in
  let ctx := audioContextRef w in
  match decodeAudioData audioData ctx with
  | None => Abrupt w
  | Some buffer => Normal (schedule now buffer w)
  end.

(** A tick of the volume interval; [data] is what
    [analyser.getByteFrequencyData] wrote. *)
Definition ontick (data : list Byte.byte) (w : App) : App :=
  match intervals w with
  | O => w
  | S _ => setVolume (Q2R (outputVolume data)) w
  end.

(** [source.onended]; [now] is [ctx.currentTime]. *)
Definition onended (now : Q) (w : App) : App :=
  let w := emit ClearInterval (set_intervals (pred (intervals w)) w) in
  if Qle_bool (nextStartTimeRef w - 0.1) now then setMode LISTENING w else w.

(** ** Inbound messages: tool calls *)

(** What a capability answers: a value, or a thrown exception. *)
Inductive Outcome (A : Type) :=
| Returns (a : A)
| Throws.
Arguments Returns {A} a.
Arguments Throws {A}.

Record SearchResponse := { search_text : string; links : list SearchResult }.

(** The capabilities behind the tools ([geminiService], the camera) and
    the random id of a new inbox item, as the surroundings answer them. *)
Record Env :=
  { generateImage : option string -> Outcome (option string);
    editImage : Content -> option string -> Outcome (option string);
    searchWeb : option string -> Outcome SearchResponse;
    analyzeImage : Content -> option string -> Outcome string;
    thinkHard : option string -> Outcome string;
    handleCapture : Outcome (option string);
    randomId : nat -> string }.

Definition addToInbox (env : Env) (ty : InboxItemType) (r : Role)
  (c : Content) (w : App) : App * string :=
  let id := randomId env (List.length (inbox w)) in
  (setInbox (inbox w ++ [{| InboxItem.id := id; InboxItem.type := ty;
                            InboxItem.role := r; InboxItem.content := c;
                            InboxItem.edited := false |}]) w,
   id).

Definition option_string_eqb (a : option string) (b : string) : bool :=
  match a with Some s => String.eqb s b | None => false end.

Definition editInboxMessage (id newContent : option string) (w : App)
  : App * bool :=
  let found :=
    existsb (fun item => option_string_eqb id (InboxItem.id item)) (inboxRef w) in
  if found then
    (setInbox
       (map (fun item =>
               if option_string_eqb id (InboxItem.id item)
               then {| InboxItem.id := InboxItem.id item;
                       InboxItem.type := InboxItem.type item;
                       InboxItem.role := InboxItem.role item;
                       InboxItem.content := content_of newContent;
                       InboxItem.edited := true |}
               else item)
            (inbox w)) w,
     true)
  else (w, false).

Definition is_image (i : InboxItem.t) : bool :=
  match InboxItem.type i with image => true | _ => false end.

Definition is_text (i : InboxItem.t) : bool :=
  match InboxItem.type i with text => true | _ => false end.

(** [inboxRef.current.slice().reverse().find(i => i.type === 'image')] *)
Definition lastImage (w : App) : option InboxItem.t :=
  find is_image (rev (inboxRef w)).

(** The outcome of the [try] block of one call. *)
Inductive Tried :=
| Done (w : App) (r : ToolOutput)
| Thrown (w : App).

(** Reading a property of [fc.args] throws when [args] is missing. *)
Definition with_args (fc : FunctionCall.t) (w : App)
  (k : list (string * string) -> Tried) : Tried :=
  match FunctionCall.args fc with
  | Some a => k a
  | None => Thrown w
  end.

Definition await {A} (o : Outcome A) (w : App) (k : A -> Tried) : Tried :=
  match o with
  | Returns a => k a
  | Throws => Thrown w
  end.

Definition name_is (fc : FunctionCall.t) (n : string) : bool :=
  option_string_eqb (FunctionCall.name fc) n.

(** The [try] block: the branch of the named tool, or the initial
    [{ error: "Unknown tool" }] when no branch matches. *)
Definition tryTool (env : Env) (fc : FunctionCall.t) (w : App) : Tried :=
  if name_is fc "generate_image" then
    with_args fc w (fun a =>
      let prompt := lookup "prompt" a in
      let w := addLog assistant ("Generating image: " +++ show prompt) w in
      await (generateImage env prompt) w (fun imgData =>
        if truthy imgData then
          let (w, _) := addToInbox env image assistant (content_of imgData) w in
          Done w (result "Okay, I've sent over the image.")
        else Done w (error "Failed to generate image.")))
  else if name_is fc "edit_current_image" then
    match lastImage w with
    | Some img =>
        let w := addLog assistant "Editing image..." w in
        with_args fc w (fun a =>
          await (editImage env (InboxItem.content img) (lookup "instruction" a)) w
            (fun newImg =>
               if truthy newImg then
                 let (w, _) :=
                   addToInbox env image assistant (content_of newImg) w in
                 Done w (result "Okay, I've sent over the edited image.")
               else Done w (error "Failed to edit image.")))
    | None => Done w (error "No image found in inbox history to edit.")
    end
  else if name_is fc "search_web" then
    with_args fc w (fun a =>
      let query := lookup "query" a in
      let w := addLog assistant ("Searching web for: " +++ show query) w in
      await (searchWeb env query) w (fun searchRes =>
        let (w, _) :=
          addToInbox env search assistant (CLinks (links searchRes)) w in
        Done w (result (search_text searchRes))))
  else if name_is fc "see_and_analyze" then
    let w := addLog assistant "Looking at camera..." w in
    await (handleCapture env) w (fun frame =>
      if truthy frame then
        with_args fc w (fun a =>
          await (analyzeImage env (content_of frame) (lookup "question" a)) w
            (fun analysis => Done w (result analysis)))
      else Done w (error "Could not access camera."))
  else if name_is fc "analyze_uploaded_image" then
    let w := addLog assistant "Analyzing uploaded image..." w in
    match lastImage w with
    | Some img =>
        with_args fc w (fun a =>
          await (analyzeImage env (InboxItem.content img) (lookup "question" a)) w
            (fun analysis => Done w (result analysis)))
    | None => Done w (error "No uploaded image found in inbox.")
    end
  else if name_is fc "read_inbox_messages" then
    let w := addLog assistant "Reading inbox messages..." w in
    let textMessages := filter is_text (inboxRef w) in
    match textMessages with
    | _ :: _ =>
        let messages :=
          String.concat (nl +++ nl +++ "---" +++ nl +++ nl)
            (map (fun m => "[ID: " +++ InboxItem.id m +++ "] "
                           +++ show_role (InboxItem.role m) +++ ": "
                           +++ show_content (InboxItem.content m))
                 textMessages) in
        Done w (result ("Found "
                        +++ string_of_Z (Z.of_nat (List.length textMessages))
                        +++ " message(s):" +++ nl +++ nl +++ messages))
    | [] => Done w (result "No text messages found in inbox.")
    end
  else if name_is fc "edit_text_message" then
    let w := addLog assistant "Editing text message..." w in
    with_args fc w (fun a =>
      let (w, success) :=
        editInboxMessage (lookup "messageId" a) (lookup "newContent" a) w in
      if success then Done w (result "Message updated successfully.")
      else Done w (error "Message not found or update failed."))
  else if name_is fc "send_text_response" then
    let w := addLog assistant "Sending text response..." w in
    with_args fc w (fun a =>
      let (w, id) :=
        addToInbox env text assistant (content_of (lookup "message" a)) w in
      Done w (result ("Message sent to inbox. ID: " +++ id)))
  else if name_is fc "think_deeply" then
    let w := addLog assistant "Thinking deeply..." w in
    with_args fc w (fun a =>
      await (thinkHard env (lookup "problem" a)) w (fun thought =>
        Done w (result thought)))
  else Done w (error "Unknown tool").

(** One turn of the loop over [functionCalls]: the [try], the [catch]
    that turns an exception into [{ error: "Tool execution failed" }], and
    the response handed to the session. *)
Definition answer (env : Env) (w : App) (fc : FunctionCall.t) : App :=
  let (w, r) :=
    match tryTool env fc w with
    | Done w r => (w, r)
    | Thrown w => (w, error "Tool execution failed")
    end in
  then_ (JToolResponse {| FunctionResponse.id := FunctionCall.id fc;
                          FunctionResponse.name := FunctionCall.name fc;
                          FunctionResponse.response := r |}) w.

Definition runTools (env : Env) (functionCalls : list FunctionCall.t) (w : App)
  : App :=
  let w := setMode THINKING w in
  let w := addLog system "Executing tools..." w in
  fold_left (answer env) functionCalls w.

(** [if (audioData) { ... }]: an empty string is falsy. *)
Definition audioPart (now : Q) (message : LiveServerMessage) (w : App)
  : Completion :=
  match audioData message with
  | Some d => if String.eqb d "" then Normal w else playAudio now d w
  | None => Normal w
  end.

(** [if (message.toolCall) { ... }] *)
Definition toolPart (env : Env) (message : LiveServerMessage) (w : App) : App :=
  match toolCall message with
  | Some functionCalls => runTools env functionCalls w
  | None => w
  end.

(** [onmessage]: the audio branch, then the tool calls; an exception in
    the audio branch ends the handler. *)
Definition onmessage (env : Env) (now : Q) (message : LiveServerMessage)
  (w : App) : App :=
  match audioPart now message w with
  | Abrupt w => w
  | Normal w => toolPart env message w
  end.

(** ** The event loop *)

Inductive Event :=
| EConnect (c : ConnectEnv)                  (* the user starts a session *)
| EOpen (r : Q)                              (* the socket opened *)
| EResolved                                  (* the session promise fulfils *)
| ERejected (msg : string)                   (* ... or rejects *)
| EAudioProcess (inputData : list Q)         (* a capture frame *)
| EMessage (now : Q) (m : LiveServerMessage) (* an inbound message *)
| ETick (data : list Byte.byte)              (* a volume interval fires *)
| EEnded (now : Q)                           (* a buffer finished playing *)
| EClose (code : Z) (reason : string)        (* the socket closed *)
| EError (e : ErrorValue)                    (* the socket failed *)
| EDisconnect                                (* the user ends the session *)
| ERender                                    (* the effect syncing inboxRef *)
| EToggleFilter.                             (* the call filter setting *)

Definition handle (env : Env) (ev : Event) (w : App) : App :=
  match ev with
  | EConnect c => connectToLiveAPI c w
  | EOpen r => onopen r w
  | EResolved => settle w
  | ERejected msg => fail msg w
  | EAudioProcess inputData => onaudioprocess inputData w
  | EMessage now m => onmessage env now m w
  | ETick data => ontick data w
  | EEnded now => onended now w
  | EClose code reason => onclose code reason w
  | EError e => onerror e w
  | EDisconnect => disconnect w
  | ERender => set_inboxRef (inbox w) w
  | EToggleFilter => setCallFilterEnabled (negb (callFilterEnabled w)) w
  end.

(** A handler runs to completion, then the jobs it queued. *)
Definition step (env : Env) (w : App) (ev : Event) : App :=
  drain (handle env ev w).

Definition run (env : Env) (evs : list Event) (w : App) : App :=
  fold_left (step env) evs w.

(** ** Vocabulary of the specification *)

(** A scheduled buffer: its start on the output clock and its duration. *)
Record PlaybackSlot := { slot_start : Q; slot_duration : Q }.

Definition slot_end (s : PlaybackSlot) : Q := slot_start s + slot_duration s.

Definition slot_of (e : Effect) : list PlaybackSlot :=
  match e with
  | SourceStart _ b start =>
      [{| slot_start := start; slot_duration := duration b |}]
  | _ => []
  end.

(** The playback slots of a trace, oldest first. *)
Definition slots (t : list Effect) : list PlaybackSlot := flat_map slot_of t.

(** Slot [a] has ended when slot [b] starts. *)
Definition before (a b : PlaybackSlot) : Prop := slot_end a <= slot_start b.

Definition response_of (e : Effect) : list FunctionResponse.t :=
  match e with SendToolResponse r => [r] | _ => [] end.

(** The tool results sent to the session. *)
Definition responses (t : list Effect) : list FunctionResponse.t :=
  flat_map response_of t.

Definition frame_of (e : Effect) : list AudioData :=
  match e with SendRealtimeInput m => [m] | _ => [] end.

(** The outbound audio frames sent to the session. *)
Definition frames (t : list Effect) : list AudioData := flat_map frame_of t.

Definition turn_of (e : Effect) : list string :=
  match e with SendClientContent t => [t] | _ => [] end.

(** The text turns sent to the session. *)
Definition turns (t : list Effect) : list string := flat_map turn_of t.

Definition noise_stop_of (e : Effect) : list unit :=
  match e with NoiseStop => [tt] | _ => [] end.

Definition noise_stops (t : list Effect) : nat :=
  List.length (flat_map noise_stop_of t).

(** The result the loop settles on for one call. *)
Definition verdict (t : Tried) : ToolOutput :=
  match t with
  | Done _ r => r
  | Thrown _ => error "Tool execution failed"
  end.

Definition known_tools : list string :=
  [ "generate_image"; "edit_current_image"; "search_web"; "see_and_analyze";
    "analyze_uploaded_image"; "read_inbox_messages"; "edit_text_message";
    "send_text_response"; "think_deeply" ]%string.

Definition unknown (fc : FunctionCall.t) : bool :=
  negb (existsb (name_is fc) known_tools).

Definition is_error (o : ToolOutput) : bool :=
  match o with error _ => true | result _ => false end.

(** The capability behind the call has nothing to give in state [w]: no
    image came back, the camera gave no frame, or the inbox holds no image
    to work on. *)
Definition unavailable (env : Env) (fc : FunctionCall.t) (w : App) : bool :=
  match FunctionCall.args fc with
  | None => false
  | Some a =>
      if name_is fc "generate_image" then
        match generateImage env (lookup "prompt" a) with
        | Returns img => negb (truthy img)
        | Throws => false
        end
      else if name_is fc "edit_current_image" then
        match lastImage w with
        | Some img =>
            match editImage env (InboxItem.content img) (lookup "instruction" a) with
            | Returns img' => negb (truthy img')
            | Throws => false
            end
        | None => true
        end
      else if name_is fc "see_and_analyze" then
        match handleCapture env with
        | Returns frame => negb (truthy frame)
        | Throws => false
        end
      else if name_is fc "analyze_uploaded_image" then
        negb (isSome (lastImage w))
      else false
  end.

(** Response [r] answers call [fc]: same [id] and [name], and the result
    is the verdict of the call's [try] block in some state of the loop; it
    is an error for an unknown tool, a thrown exception or an unavailable
    capability. *)
Definition answered (env : Env) (fc : FunctionCall.t) (r : FunctionResponse.t)
  : Prop :=
  FunctionResponse.id r = FunctionCall.id fc /\
  FunctionResponse.name r = FunctionCall.name fc /\
  exists w,
    FunctionResponse.response r = verdict (tryTool env fc w) /\
    (unknown fc = true -> FunctionResponse.response r = error "Unknown tool") /\
    (forall w', tryTool env fc w = Thrown w' ->
                FunctionResponse.response r = error "Tool execution failed") /\
    (unavailable env fc w = true ->
     is_error (FunctionResponse.response r) = true).

(** The audio part of a message is absent, empty, or decodes. *)
Definition audio_ok (m : LiveServerMessage) (w : App) : bool :=
  match audioData m with
  | Some d =>
      String.eqb d "" || isSome (decodeAudioData d (audioContextRef w))
  | None => true
  end.

Definition is_connect (ev : Event) : bool :=
  match ev with EConnect _ => true | _ => false end.

(** Events that tear the session down: the user's disconnect, a close or
    an error of the socket, a rejected connection. *)
Definition is_teardown (ev : Event) : bool :=
  match ev with
  | EDisconnect | EClose _ _ | EError _ | ERejected _ => true
  | _ => false
  end.

(** The effects of the blocks of [disconnect] in state [w], in order. *)
Definition teardown_sync (w : App) : list Effect :=
  (if isSome (processorRef w) then [CaptureDetach; ProcessorDisconnect] else [])
  ++ (if isSome (sourceRef w) then [MicSourceDisconnect] else [])
  ++ match streamRef w with
     | Some s => repeat TrackStop (tracks s)
     | None => []
     end
  ++ (if isSome (bgNoiseRef w) then [NoiseStop] else [])
  ++ (if isSome (audioContextRef w) then [ContextClose] else []).

(** The job that closes the session, when the session promise is
    fulfilled. *)
Definition teardown_close (w : App) : list Effect :=
  match sessionRef w with
  | Some p => match pstate p with Fulfilled => [SessionClose] | _ => [] end
  | None => []
  end.

(** The effects of a teardown in state [w], the close of the session
    included. *)
Definition teardown (w : App) : list Effect :=
  teardown_sync w ++ teardown_close w.

(** The component with its logs and inbox blanked, and with the session
    promise and job queue blanked as well. *)
Definition core (w : App) : App := setLogs [] (setInbox [] w).

Definition view (w : App) : App := set_sessionRef None (set_jobs [] (core w)).

Definition state_of (t : Tried) : App :=
  match t with Done w _ => w | Thrown w => w end.

Definition job_effects (capturing : bool) (j : Job) : list Effect :=
  match j with
  | JGreeting t => [SendClientContent t]
  | JRealtimeInput m => if capturing then [SendRealtimeInput m] else []
  | JToolResponse r => [SendToolResponse r]
  | JClose => [SessionClose]
  end.

(** The response the loop sends for call [fc] met in state [w]. *)
Definition respond (env : Env) (fc : FunctionCall.t) (w : App)
  : FunctionResponse.t :=
  {| FunctionResponse.id := FunctionCall.id fc;
     FunctionResponse.name := FunctionCall.name fc;
     FunctionResponse.response := verdict (tryTool env fc w) |}.

(** What the scheduler is about: the slots handed out so far and the next
    available start time. *)
Definition sched (w : App) : list PlaybackSlot * Q :=
  (slots (trace w), nextStartTimeRef w).

(** What the noise bed is about: the running source and the number of
    times a noise source was stopped. *)
Definition noise (w : App) : option NoiseSource * nat :=
  (bgNoiseRef w, noise_stops (trace w)).

(** What capture is about: the processor, the stream the callbacks hold,
    and the audio frames sent. *)
Definition capture (w : App)
  : option ScriptProcessor * option MediaStream * list AudioData :=
  (processorRef w, stream w, frames (trace w)).

(** Events that run [disconnect] whatever the state of the session. *)
Definition closes (ev : Event) : bool :=
  match ev with
  | EDisconnect | EClose _ _ | EError _ => true
  | _ => false
  end.

Arguments makeBgNoise : simpl never.
Arguments greeting : simpl never.
Arguments slots : simpl never.
Arguments responses : simpl never.
Arguments frames : simpl never.
Arguments turns : simpl never.
Arguments noise_stops : simpl never.

(** Noise source [n] was started and no noise source was stopped since. *)
Definition running (n : NoiseSource) (t : list Effect) : Prop :=
  exists t1 t2, t = t1 ++ NoiseStart n :: t2 /\ noise_stops t2 = 0%nat.

(** What an event can do to the trace and to the noise source: add
    effects that stop no noise and keep the source ([quiet_step]), or
    start a source made by the generator where there was none
    ([start_step]). *)
Definition quiet_step (w w' : App) : Prop :=
  bgNoiseRef w' = bgNoiseRef w /\
  exists t, trace w' = trace w ++ t /\ noise_stops t = 0%nat.

Definition start_step (w w' : App) : Prop :=
  bgNoiseRef w = None /\
  exists random ctx t,
    bgNoiseRef w' = Some (makeBgNoise random ctx) /\
    trace w' = trace w ++ NoiseStart (makeBgNoise random ctx) :: t /\
    noise_stops t = 0%nat.

(** ** Sample surroundings for the worked examples *)

Definition env0 : Env :=
  {| generateImage := fun _ => Returns None;
     editImage := fun _ _ => Returns None;
     searchWeb := fun _ => Throws;
     analyzeImage := fun _ _ => Returns "a desk"%string;
     thinkHard := fun _ => Returns "done"%string;
     handleCapture := Returns None;
     randomId := fun n => string_of_Z (Z.of_nat n) |}.

Definition mic_granted : ConnectEnv :=
  {| API_KEY := true; getUserMedia := Some {| tracks := 1 |};
     random := fun _ => 1 # 2 |}.

Definition mic_denied : ConnectEnv :=
  {| API_KEY := true; getUserMedia := None; random := fun _ => 1 # 2 |}.

(** Six samples of 16-bit audio in base64. *)
Definition chunk : string := "/38AgAAA/z8AwP5/".

Definition audio_message : LiveServerMessage :=
  {| audioData := Some chunk; toolCall := None |}.

Definition unknown_call : FunctionCall.t :=
  {| FunctionCall.id := Some "call-1"%string;
     FunctionCall.name := Some "open_door"%string;
     FunctionCall.args := None |}.

Definition image_call : FunctionCall.t :=
  {| FunctionCall.id := Some "call-2"%string;
     FunctionCall.name := Some "generate_image"%string;
     FunctionCall.args := Some [("prompt", "a red bicycle")]%string |}.

Definition tool_message : LiveServerMessage :=
  {| audioData := None; toolCall := Some [unknown_call; image_call] |}.

(** A session that is open and idle, with and without the call filter. *)
Definition opened : list Event := [EConnect mic_granted; EOpen 0; EResolved].

Definition unfiltered : list Event := EToggleFilter :: opened.

(** Sixteen frequency bins at full scale. *)
Definition loud : list Byte.byte := repeat Byte.xff 16.

(** ** The tool manifest ([toolsDef]) *)

(** A declaration with the names of its properties (all of type
    [STRING]) and of the required ones; the descriptions are texts for the
    remote model and are left out. *)
Module FunctionDeclaration.
Record t :=
  { name : string; properties : list string; required : list string }.
End FunctionDeclaration.

Definition toolsDef : list FunctionDeclaration.t :=
  [ {| FunctionDeclaration.name := "generate_image";
       FunctionDeclaration.properties := ["prompt"];
       FunctionDeclaration.required := ["prompt"] |};
    {| FunctionDeclaration.name := "edit_current_image";
       FunctionDeclaration.properties := ["instruction"];
       FunctionDeclaration.required := ["instruction"] |};
    {| FunctionDeclaration.name := "search_web";
       FunctionDeclaration.properties := ["query"];
       FunctionDeclaration.required := ["query"] |};
    {| FunctionDeclaration.name := "see_and_analyze";
       FunctionDeclaration.properties := ["question"];
       FunctionDeclaration.required := ["question"] |};
    {| FunctionDeclaration.name := "analyze_uploaded_image";
       FunctionDeclaration.properties := ["question"];
       FunctionDeclaration.required := ["question"] |};
    {| FunctionDeclaration.name := "read_inbox_messages";
       FunctionDeclaration.properties := [];
       FunctionDeclaration.required := [] |};
    {| FunctionDeclaration.name := "send_text_response";
       FunctionDeclaration.properties := ["message"];
       FunctionDeclaration.required := ["message"] |};
    {| FunctionDeclaration.name := "edit_text_message";
       FunctionDeclaration.properties := ["messageId"; "newContent"];
       FunctionDeclaration.required := ["messageId"; "newContent"] |};
    {| FunctionDeclaration.name := "think_deeply";
       FunctionDeclaration.properties := ["problem"];
       FunctionDeclaration.required := ["problem"] |} ]%string.

(** The declaration of the tool a call names, if there is one. *)
Definition declaration (fc : FunctionCall.t) : option FunctionDeclaration.t :=
  find (fun d => name_is fc (FunctionDeclaration.name d)) toolsDef.

(** Two argument objects agree on the properties [ks]. *)
Definition agree (ks : list string) (a a' : list (string * string)) : Prop :=
  forall k, In k ks -> lookup k a = lookup k a'.

(** ** The inbox in the hands of the user *)

(** [setInbox(prev => prev.filter(item => item.id !== id))] *)
Definition deleteFromInbox (id : string) (w : App) : App :=
  setInbox (filter (fun item => negb (String.eqb (InboxItem.id item) id))
                   (inbox w)) w.

(** The copy of the inbox that the persistence effect hands to
    [localStorage]: large media are replaced by ['expired']. *)
Definition safeInbox (inbox : list InboxItem.t) : list InboxItem.t :=
  map (fun item =>
         match InboxItem.type item, InboxItem.content item with
         | (image | audio), CString s =>
             if (500 <? String.length s)%nat
             then {| InboxItem.id := InboxItem.id item;
                     InboxItem.type := InboxItem.type item;
                     InboxItem.role := InboxItem.role item;
                     InboxItem.content := CString "expired";
                     InboxItem.edited := InboxItem.edited item |}
             else item
         | _, _ => item
         end)
      inbox.

(** [String.prototype.trim] on a string of characters with codes below
    256: tab, line feed, vertical tab, form feed, carriage return, space
    and no-break space are white space. *)
Definition is_white (c : ascii) : bool :=
  let k := N_of_ascii c in
  ((k =? 9) || (k =? 10) || (k =? 11) || (k =? 12) || (k =? 13) || (k =? 32)
   || (k =? 160))%N.

Fixpoint trimStart (cs : list ascii) : list ascii :=
  match cs with
  | c :: cs' => if is_white c then trimStart cs' else cs
  | [] => []
  end.

Definition trim (s : string) : string :=
  string_of_list_ascii
    (rev (trimStart (rev (trimStart (list_ascii_of_string s))))).

(** The text box under the inbox: what was typed, and the message being
    edited, if any. *)
Record TextBox := { textInput : string; editingMessageId : option string }.

(** [handleSendText] *)
Definition handleSendText (env : Env) (t : TextBox) (w : App) : App * TextBox :=
  if String.eqb (trim (textInput t)) "" then (w, t)
  else if truthy (editingMessageId t) then
    (* Edit Mode *)
    let (w, _) := editInboxMessage (editingMessageId t) (Some (textInput t)) w in
    let w := addLog user ("Edited message: "
                          +++ substring 0 50 (textInput t) +++ "...") w in
    (w, {| textInput := ""; editingMessageId := None |})
  else
    (* Send Mode *)
    let (w, _) := addToInbox env text user (CString (textInput t)) w in
    let w := addLog user ("Sent text: "
                          +++ substring 0 50 (textInput t) +++ "...") w in
    (w, {| textInput := ""; editingMessageId := editingMessageId t |}).

(** ** Vocabulary of the further properties *)

(** Slots that follow one another without a gap, from [start] on. *)
Fixpoint back_to_back (start : Q) (bs : list AudioBuffer) : list PlaybackSlot :=
  match bs with
  | [] => []
  | b :: bs' =>
      {| slot_start := start; slot_duration := duration b |}
      :: back_to_back (start + duration b) bs'
  end.

(** The calls made on the live session. *)
Definition to_session (e : Effect) : bool :=
  match e with
  | SendRealtimeInput _ | SendClientContent _ | SendToolResponse _
  | SessionClose => true
  | _ => false
  end.

Definition is_message (ev : Event) : bool :=
  match ev with EMessage _ _ => true | _ => false end.

Definition is_open (ev : Event) : bool :=
  match ev with EOpen _ => true | _ => false end.

(** The filter state of the pink-noise generator stays within these
    bounds. *)
Definition pink_within (p : Pink) : Prop :=
  (-(48.7) <= b0 p <= 48.7) /\ (-(11.24) <= b1 p <= 11.24) /\
  (-(4.97) <= b2 p <= 4.97) /\ (-(2.33) <= b3 p <= 2.33) /\
  (-(1.19) <= b4 p <= 1.19) /\ (-(0.071) <= b5 p <= 0.071) /\
  (-(0.116) <= b6 p <= 0.116).

(** ** Further sample surroundings *)

Definition note (i c : string) : InboxItem.t :=
  {| InboxItem.id := i; InboxItem.type := text; InboxItem.role := user;
     InboxItem.content := CString c; InboxItem.edited := false |}.

(** An idle component whose inbox holds two notes, after a render. *)
Definition two_notes : App :=
  set_inboxRef [note "a1" "milk"; note "b2" "eggs"]
    (setInbox [note "a1" "milk"; note "b2" "eggs"] initial).

(** ** The capabilities ([geminiService]) *)

Module geminiService.

(** A request to [ai.models.generateContent]: the model, the contents (a
    string, or parts that are texts or inline data with a MIME type) and,
    of the [config], what differs between the calls ([safetySettings] is
    the same constant in each): the search tool, the aspect ratio, the
    thinking budget. *)
Inductive Part :=
| text_part (text : option string)
| inline_part (data mimeType : string).

Inductive Contents :=
| Text (s : option string)
| Parts (parts : list Part).

Record Config :=
  { googleSearch : bool; aspectRatio : option string;
    thinkingBudget : option Z }.

Record Request := { model : string; contents : Contents; config : Config }.

(** What the functions read of a response: [response.text], the parts of
    the first candidate with the data of their [inlineData], and the
    grounding chunks of the first candidate. *)
Record Web := { web_title : option string; uri : option string }.

Record GroundingChunk := { web : option Web }.

Record ResponsePart := { inlineData : option (option string) }.

Record Response :=
  { text : option string;
    parts : option (list ResponsePart);
    groundingChunks : option (list GroundingChunk) }.

(** The client; its [generateContent] answers or throws. *)
Record GoogleGenAI := { generateContent : Request -> Outcome Response }.

Record Link := { title : option string; url : string }.

Record SearchOutput := { summary : string; links : list Link }.

(** [value || fallback] for a string that may be missing. *)
Definition or_else (value : option string) (fallback : string) : string :=
  if truthy value then show value else fallback.

(** [chunks.filter(c => c.web?.uri).map(c => ({ title: c.web.title, url:
    c.web.uri }))] *)
Definition links_of (chunks : list GroundingChunk) : list Link :=
  flat_map (fun c =>
              match web c with
              | Some wb =>
                  if truthy (uri wb)
                  then [{| title := web_title wb; url := show (uri wb) |}]
                  else []
              | None => []
              end)
           chunks.

(** The loop over the parts of the first candidate: the first part with
    inline data gives the image. *)
Fixpoint first_image (ps : list ResponsePart) : option string :=
  match ps with
  | [] => None
  | part :: rest =>
      match inlineData part with
      | Some d => Some ("data:image/png;base64," +++ show d)
      | None => first_image rest
      end
  end.

Definition image_of (response : Response) : option string :=
  first_image (match parts response with Some ps => ps | None => [] end).

(** [s.split(',')] *)
Fixpoint split_comma (s : string) : list string :=
  match s with
  | EmptyString => [EmptyString]
  | String c s' =>
      if Ascii.eqb c ","%char then EmptyString :: split_comma s'
      else match split_comma s' with
           | field :: fields => String c field :: fields
           | [] => [String c EmptyString]
           end
  end.

(** [base64Image.split(',')[1] || base64Image]; [None] is the [TypeError]
    thrown when [base64Image] is not a string. *)
Definition clean (base64Image : Content) : option string :=
  match base64Image with
  | CString s =>
      Some (or_else (nth_error (split_comma s) 1) s)
  | _ => None
  end.

(** The request of [searchWeb]. *)
Definition search_request (query : option string) : Request :=
  {| model := "gemini-2.5-flash";
     contents := Text (Some ("Search the web for: " +++ show query
                             +++ ". Provide a concise summary."));
     config := {| googleSearch := true; aspectRatio := None;
                  thinkingBudget := None |} |}.

Definition plain : Config :=
  {| googleSearch := false; aspectRatio := None; thinkingBudget := None |}.

Section Service.

(** [getAI()]: the construction of the client, outside of every [try]. *)
Variable getAI : Outcome GoogleGenAI.

Definition searchWeb (query : option string) : Outcome SearchOutput :=
  match getAI with
  | Throws => Throws
  | Returns ai =>
      match generateContent ai (search_request query) with
      | Returns response =>
          let text := or_else (text response) "No results found." in
          (* Extract grounding chunks for URLs *)
          let links := match groundingChunks response with
                       | Some chunks => links_of chunks
                       | None => []
                       end in
          Returns {| summary := text; links := links |}
      | Throws =>
          Returns {| summary := "I encountered an error searching the web.";
                     links := [] |}
      end
  end.

Definition generateImage (prompt : option string) : Outcome (option string) :=
  match getAI with
  | Throws => Throws
  | Returns ai =>
      match generateContent ai
              {| model := "gemini-2.5-flash-image";
                 contents := Parts [text_part prompt];
                 config := {| googleSearch := false; aspectRatio := Some "1:1"%string;
                              thinkingBudget := None |} |} with
      | Returns response => Returns (image_of response)
      | Throws => Returns None
      end
  end.

Definition editImage (base64Image : Content) (instruction : option string)
  : Outcome (option string) :=
  match getAI with
  | Throws => Throws
  | Returns ai =>
      (* Clean base64 string if it has prefix *)
      match clean base64Image with
      | None => Returns None
      | Some data =>
          match generateContent ai
                  {| model := "gemini-2.5-flash-image";
                     contents := Parts [inline_part data "image/png";
                                        text_part instruction];
                     config := plain |} with
          | Returns response => Returns (image_of response)
          | Throws => Returns None
          end
      end
  end.

Definition analyzeImage (base64Image : Content) (prompt : option string)
  : Outcome string :=
  match getAI with
  | Throws => Throws
  | Returns ai =>
      match clean base64Image with
      | None => Returns "Error analyzing the image."%string
      | Some data =>
          match generateContent ai
                  {| model := "gemini-flash-latest";
                     contents := Parts [inline_part data "image/jpeg";
                                        text_part prompt];
                     config := plain |} with
          | Returns response =>
              Returns (or_else (text response) "I couldn't analyze the image.")
          | Throws => Returns "Error analyzing the image."%string
          end
      end
  end.

Definition thinkHard (query : option string) : Outcome string :=
  match getAI with
  | Throws => Throws
  | Returns ai =>
      match generateContent ai
              {| model := "gemini-2.5-pro";
                 contents := Text query;
                 config := {| googleSearch := false; aspectRatio := None;
                              thinkingBudget := Some 1024%Z |} |} with
      | Returns response =>
          Returns (or_else (text response) "I couldn't complete the thought.")
      | Throws => Returns "Error during thinking process."%string
      end
  end.

End Service.

(** A string without a comma. *)
Definition comma_free (s : string) : bool :=
  forallb (fun c => negb (Ascii.eqb c ","%char)) (list_ascii_of_string s).

(** A client that answers every request with one image part. *)
Definition painter : GoogleGenAI :=
  {| generateContent := fun _ =>
       Returns {| text := None;
                  parts := Some [{| inlineData := None |};
                                 {| inlineData := Some (Some "iVBORw0KGgo="%string) |}];
                  groundingChunks := None |} |}.

(** A client that answers every request with a text and three grounding
    chunks, one of them with a link. *)
Definition librarian : GoogleGenAI :=
  {| generateContent := fun _ =>
       Returns {| text := Some "Sunny."%string;
                  parts := None;
                  groundingChunks :=
                    Some [{| web := None |};
                          {| web := Some {| web_title := Some "Weather"%string;
                                            uri := Some "https://weather.example"%string |} |};
                          {| web := Some {| web_title := Some "Empty"%string;
                                            uri := Some ""%string |} |}] |} |}.

(** A client whose every request fails. *)
Definition offline : GoogleGenAI := {| generateContent := fun _ => Throws |}.

End geminiService.

(** * Properties *)

(** ** Worked examples *)

(** Full scale, silence and half scale: [1] becomes [0x7FFF], [-1]
    becomes [0x8000], [0.5] becomes 16383 and [-0.5] becomes -16384, low
    byte first. *)
Example createAudioData_example :
  createAudioData [1; -1; 0; 1 # 2; -(1 # 2)]
  = {| data := "/38AgAAA/z8AwA=="; mimeType := "audio/pcm;rate=16000" |}.
Proof. reflexivity. Qed.

Example decodeAudioData_example :
  option_map channelData
    (decodeAudioData "/38AgAAA/z8AwA==" (Some {| sampleRate := 24000 |}))
  = Some [32767 # 32768; -32768 # 32768; 0 # 32768; 16383 # 32768;
          -16384 # 32768].
Proof. reflexivity. Qed.

(** Samples outside [[-1, 1]] are clamped before they are scaled. *)
Example pcm16_clamps : pcm16 (3 # 2) = 32767%Z /\ pcm16 (-(3 # 2)) = (-32768)%Z.
Proof. split; reflexivity. Qed.

(** An odd number of bytes, a chunk that is not base64 and a missing
    output context all make the decoder throw. *)
Example decodeAudioData_throws :
  decodeAudioData "TQ==" (Some {| sampleRate := 24000 |}) = None /\
  decodeAudioData "?" (Some {| sampleRate := 24000 |}) = None /\
  decodeAudioData chunk None = None.
Proof. repeat split. Qed.

Example atob_examples :
  Base64.atob "TWFu" = Some "Man"%string /\
  Base64.atob "TWE=" = Some "Ma"%string /\
  Base64.atob "TQ" = Some "M"%string /\
  Base64.atob "T" = None.
Proof. repeat split. Qed.

(** The batch of [tool_message] on an open session: the unknown tool and
    the image that does not come are both answered with an error. *)
Example tool_message_responses :
  responses (trace (step env0 (run env0 opened initial)
                         (EMessage 0 tool_message)))
  = [ {| FunctionResponse.id := Some "call-1"%string;
         FunctionResponse.name := Some "open_door"%string;
         FunctionResponse.response := error "Unknown tool" |};
      {| FunctionResponse.id := Some "call-2"%string;
         FunctionResponse.name := Some "generate_image"%string;
         FunctionResponse.response := error "Failed to generate image." |} ].
Proof. reflexivity. Qed.

(** The log line of a close without a reason. *)
Example onclose_log :
  map log_text (logs (onclose 1006 "" initial))
  = ["Disconnected. Code: 1006. No reason provided"%string].
Proof. reflexivity. Qed.

(** The opening turn for the first of the five contexts. *)
Example greeting_example :
  greeting 0
  = "System Event: User just opened the app. Be warm.. Greet the user naturally based on this context. Keep it short."%string.
Proof. reflexivity. Qed.

(** ** Base64 *)

Module Base64Facts.
Import Base64.
Local Open Scope N_scope.

Lemma b64val_b64char (n : N) : n < 64 -> b64val (b64char n) = Some n.
Proof.
  intros Hn. unfold b64val, b64char.
  destruct (N.ltb_spec n 26);
    [|destruct (N.ltb_spec n 52);
      [|destruct (N.ltb_spec n 62); [|destruct (N.eqb_spec n 62)]]];
    rewrite N_ascii_embedding by lia; cbv zeta.
  - replace (65 <=? n + 65) with true by (symmetry; apply N.leb_le; lia).
    replace (n + 65 <=? 90) with true by (symmetry; apply N.leb_le; lia).
    cbn [andb]. f_equal. lia.
  - replace (n + 71 <=? 90) with false by (symmetry; apply N.leb_gt; lia).
    rewrite andb_false_r.
    replace (97 <=? n + 71) with true by (symmetry; apply N.leb_le; lia).
    replace (n + 71 <=? 122) with true by (symmetry; apply N.leb_le; lia).
    cbn [andb]. f_equal. lia.
  - replace (65 <=? n - 4) with false by (symmetry; apply N.leb_gt; lia).
    replace (97 <=? n - 4) with false by (symmetry; apply N.leb_gt; lia).
    replace (48 <=? n - 4) with true by (symmetry; apply N.leb_le; lia).
    replace (n - 4 <=? 57) with true by (symmetry; apply N.leb_le; lia).
    cbn [andb]. f_equal. lia.
  - subst n. reflexivity.
  - assert (n = 63) by lia. subst n. reflexivity.
Qed.

Lemma b64val_pad : b64val pad = None.
Proof. reflexivity. Qed.

Lemma b64char_not_pad (n : N) : n < 64 -> Ascii.eqb (b64char n) pad = false.
Proof.
  intros Hn. destruct (Ascii.eqb_spec (b64char n) pad) as [E|]; [|reflexivity].
  pose proof (b64val_b64char n Hn) as H. rewrite E, b64val_pad in H. discriminate.
Qed.

Lemma b64val_space (c : ascii) : is_space c = true -> b64val c = None.
Proof.
  unfold is_space, b64val. cbv zeta. generalize (N_of_ascii c) as k. intros k H.
  repeat (apply orb_true_iff in H; destruct H as [H|H]);
    apply N.eqb_eq in H; subst k; reflexivity.
Qed.

Lemma b64char_not_space (n : N) : n < 64 -> is_space (b64char n) = false.
Proof.
  intros Hn. destruct (is_space (b64char n)) eqn:E; [|reflexivity].
  apply b64val_space in E. rewrite b64val_b64char in E by assumption. discriminate.
Qed.

(** Induction on a list three elements at a time. *)
Lemma list_ind3 {A} (P : list A -> Prop) :
  P [] -> (forall a, P [a]) -> (forall a b, P [a; b]) ->
  (forall a b c l, P l -> P (a :: b :: c :: l)) ->
  forall l, P l.
Proof.
  intros H0 H1 H2 H3.
  assert (forall l, P l /\ (forall a, P (a :: l)) /\ (forall a b, P (a :: b :: l))) as H.
  { induction l as [|x l IH].
    - auto.
    - destruct IH as (Ha & Hb & Hc). repeat split; auto. }
  intros l. apply H.
Qed.

Ltac divmod := Z.to_euclidean_division_equations; lia.
Local Ltac zlia := zify; divmod.

Lemma lt64_a (a : N) : a < 256 -> a / 4 < 64.
Proof. zlia. Qed.

Lemma lt64_b (a b : N) : b < 256 -> (a mod 4) * 16 + b / 16 < 64.
Proof. zlia. Qed.

Lemma lt64_c (b c : N) : c < 256 -> (b mod 16) * 4 + c / 64 < 64.
Proof. zlia. Qed.

Lemma lt64_d (c : N) : c mod 64 < 64.
Proof. zlia. Qed.

Lemma lt64_e (a : N) : (a mod 4) * 16 < 64.
Proof. zlia. Qed.

Lemma lt64_f (b : N) : (b mod 16) * 4 < 64.
Proof. zlia. Qed.

Lemma byte1_ok (a b : N) :
  b < 256 -> byte1 (a / 4) ((a mod 4) * 16 + b / 16) = a.
Proof. unfold byte1. zlia. Qed.

Lemma byte1_ok0 (a : N) : byte1 (a / 4) ((a mod 4) * 16) = a.
Proof. unfold byte1. zlia. Qed.

Lemma byte2_ok (a b c : N) :
  b < 256 -> c < 256 ->
  byte2 ((a mod 4) * 16 + b / 16) ((b mod 16) * 4 + c / 64) = b.
Proof. unfold byte2. zlia. Qed.

Lemma byte2_ok0 (a b : N) :
  b < 256 -> byte2 ((a mod 4) * 16 + b / 16) ((b mod 16) * 4) = b.
Proof. unfold byte2. zlia. Qed.

Lemma byte3_ok (b c : N) :
  c < 256 -> byte3 ((b mod 16) * 4 + c / 64) (c mod 64) = c.
Proof. unfold byte3. zlia. Qed.

Create HintDb b64.
#[local] Hint Resolve lt64_a lt64_b lt64_c lt64_d lt64_e lt64_f : b64.

Ltac sextets :=
  repeat match goal with
         | |- context [b64val (b64char ?n)] =>
             rewrite (b64val_b64char n) by auto with b64
         | |- context [Ascii.eqb (b64char ?n) pad] =>
             rewrite (b64char_not_pad n) by auto with b64
         end.

Lemma atob_btoa_list (bs : list N) :
  Forall (fun b => b < 256) bs -> atob_list (btoa_list bs) = Some bs.
Proof.
  induction bs as [|a|a b|a b c l IH] using list_ind3; intros HF.
  - reflexivity.
  - inversion_clear HF. cbn. unfold dec2. sextets.
    now rewrite byte1_ok0.
  - inversion_clear HF as [|? ? Ha HF']. inversion_clear HF' as [|? ? Hb _].
    cbn. sextets. unfold dec3. sextets.
    now rewrite byte1_ok, byte2_ok0.
  - inversion_clear HF as [|? ? Ha HF1]. inversion_clear HF1 as [|? ? Hb HF2].
    inversion_clear HF2 as [|? ? Hc HF3].
    specialize (IH HF3).
    change (btoa_list (a :: b :: c :: l))
      with (b64char (a / 4) :: b64char ((a mod 4) * 16 + b / 16)
              :: b64char ((b mod 16) * 4 + c / 64) :: b64char (c mod 64)
              :: btoa_list l).
    assert (dec4 (b64char (a / 4)) (b64char ((a mod 4) * 16 + b / 16))
              (b64char ((b mod 16) * 4 + c / 64)) (b64char (c mod 64))
            = Some [a; b; c]) as Hd.
    { unfold dec4. sextets. now rewrite byte1_ok, byte2_ok, byte3_ok. }
    cbn [atob_list]. destruct (btoa_list l) eqn:El.
    + sextets. rewrite Hd. destruct l as [|x [|y [|z l']]]; try discriminate.
      reflexivity.
    + rewrite Hd, IH. reflexivity.
Qed.

Lemma btoa_list_no_space (bs : list N) :
  Forall (fun b => b < 256) bs ->
  filter (fun c => negb (is_space c)) (btoa_list bs) = btoa_list bs.
Proof.
  induction bs as [|a|a b|a b c l IH] using list_ind3; intros HF.
  - reflexivity.
  - inversion_clear HF. cbn.
    rewrite !b64char_not_space by auto with b64. reflexivity.
  - inversion_clear HF as [|? ? Ha HF']. inversion_clear HF' as [|? ? Hb _].
    cbn. rewrite !b64char_not_space by auto with b64. reflexivity.
  - inversion_clear HF as [|? ? Ha HF1]. inversion_clear HF1 as [|? ? Hb HF2].
    inversion_clear HF2 as [|? ? Hc HF3].
    change (btoa_list (a :: b :: c :: l))
      with (b64char (a / 4) :: b64char ((a mod 4) * 16 + b / 16)
              :: b64char ((b mod 16) * 4 + c / 64) :: b64char (c mod 64)
              :: btoa_list l).
    cbn [filter]. rewrite !b64char_not_space by auto with b64.
    cbn [negb]. now rewrite IH.
Qed.

Lemma bytes_of_string_bounded (s : string) :
  Forall (fun b => b < 256) (bytes_of_string s).
Proof.
  unfold bytes_of_string. induction s as [|c s IH]; cbn; constructor.
  - apply N_ascii_bounded.
  - exact IH.
Qed.

Lemma string_of_bytes_of_string (s : string) :
  string_of_bytes (bytes_of_string s) = s.
Proof.
  unfold string_of_bytes, bytes_of_string. rewrite map_map.
  rewrite (map_ext _ (fun c => c)) by (intros; apply ascii_N_embedding).
  rewrite map_id. apply string_of_list_ascii_of_string.
Qed.

Lemma bytes_of_string_of_bytes (bs : list N) :
  Forall (fun b => b < 256) bs -> bytes_of_string (string_of_bytes bs) = bs.
Proof.
  intros HF. unfold string_of_bytes, bytes_of_string.
  rewrite list_ascii_of_string_of_list_ascii, map_map.
  induction HF as [|b l Hb _ IH]; cbn; [reflexivity|].
  now rewrite N_ascii_embedding, IH.
Qed.

(** [atob] undoes [btoa] on every binary string. *)
Lemma atob_btoa (binary : string) : atob (btoa binary) = Some binary.
Proof.
  unfold atob, btoa. rewrite list_ascii_of_string_of_list_ascii.
  rewrite btoa_list_no_space by apply bytes_of_string_bounded.
  rewrite atob_btoa_list by apply bytes_of_string_bounded.
  now rewrite string_of_bytes_of_string.
Qed.

End Base64Facts.

(** ** The codec *)

Lemma ToInt16_range (z : Z) : (-32768 <= ToInt16 z < 32768)%Z.
Proof.
  unfold ToInt16. pose proof (Z.mod_pos_bound z 65536 ltac:(lia)).
  cbv zeta. destruct (Z.leb_spec 32768 (z mod 65536)); lia.
Qed.

Lemma ToInt16_small (z : Z) : (-32768 <= z < 32768)%Z -> ToInt16 z = z.
Proof.
  intros H. unfold ToInt16. cbv zeta.
  destruct (Z.leb_spec 32768 (z mod 65536));
    Z.to_euclidean_division_equations; lia.
Qed.

Lemma ToInt16_mod (z : Z) : ToInt16 (z mod 65536) = ToInt16 z.
Proof. unfold ToInt16. now rewrite Z.mod_mod by lia. Qed.

Lemma ToInt16_idem (z : Z) : ToInt16 (ToInt16 z) = ToInt16 z.
Proof. apply ToInt16_small, ToInt16_range. Qed.

Lemma int16_bytes_bounded (z : Z) :
  Forall (fun b => (b < 256)%N) (int16_bytes z).
Proof.
  unfold int16_bytes. cbv zeta.
  pose proof (Z.mod_pos_bound z 65536 ltac:(lia)).
  repeat constructor; zify; Z.to_euclidean_division_equations; lia.
Qed.

Lemma uint8_view_bounded (l : list Z) :
  Forall (fun b => (b < 256)%N) (uint8_view l).
Proof.
  unfold uint8_view. induction l as [|z l IH]; cbn [flat_map].
  - constructor.
  - apply Forall_app. split; [apply int16_bytes_bounded | exact IH].
Qed.

(** Reading the bytes back as 16-bit integers gives the stored values. *)
Lemma int16_view_uint8_view (l : list Z) :
  int16_view (uint8_view l) = Some (map ToInt16 l).
Proof.
  induction l as [|z l IH]; [reflexivity|].
  cbn [uint8_view flat_map int16_bytes app map] in *.
  cbn [int16_view]. fold (uint8_view l). rewrite IH. do 2 f_equal.
  rewrite <- (ToInt16_mod z). f_equal.
  pose proof (Z.mod_pos_bound z 65536 ltac:(lia)).
  rewrite !Z2N.id by (Z.to_euclidean_division_equations; lia).
  Z.to_euclidean_division_equations; lia.
Qed.

Lemma pcm16_int16 (x : Q) : ToInt16 (pcm16 x) = pcm16 x.
Proof. unfold pcm16. cbv zeta. apply ToInt16_idem. Qed.

(** What [decodeAudioData] makes of the output of [createAudioData]. *)
Lemma decode_createAudioData (d : list Q) (ctx : AudioContext) :
  decodeAudioData (data (createAudioData d)) (Some ctx)
  = match d with
    | [] => None
    | _ :: _ =>
        Some {| channelData := map (fun x => inject_Z (pcm16 x) / 32768) d;
                bufferRate := 24000 |}
    end.
Proof.
  unfold decodeAudioData, createAudioData. cbn [data].
  rewrite Base64Facts.atob_btoa.
  rewrite Base64Facts.bytes_of_string_of_bytes by apply uint8_view_bounded.
  rewrite int16_view_uint8_view.
  destruct d as [|x d]; [reflexivity|].
  cbn [map]. rewrite !map_map. rewrite pcm16_int16. do 3 f_equal.
  apply map_ext. intros a. now rewrite pcm16_int16.
Qed.

Lemma clamp_in (x : Q) : -1 <= x <= 1 -> clamp x == x /\ -1 <= clamp x <= 1.
Proof.
  intros [Hl Hu]. unfold clamp.
  assert (Qmin 1 x == x) as E1 by (apply Q.min_r; exact Hu).
  assert (Qmax (-1) (Qmin 1 x) == x) as E2.
  { rewrite Q.max_r; [exact E1 | rewrite E1; exact Hl]. }
  split; [exact E2 | rewrite E2; split; assumption].
Qed.

Lemma quot_floor (n k d : Z) :
  (0 <= n)%Z -> (0 <= k)%Z -> (0 < d)%Z ->
  (Z.quot (n * k) d * d <= n * k < Z.quot (n * k) d * d + d)%Z.
Proof.
  intros. pose proof (Z.quot_rem' (n * k) d).
  pose proof (Z.rem_bound_pos (n * k) d ltac:(nia) ltac:(lia)). nia.
Qed.

Lemma quot_ceil (n k d : Z) :
  (n <= 0)%Z -> (0 <= k)%Z -> (0 < d)%Z ->
  (Z.quot (n * k) d * d - d < n * k <= Z.quot (n * k) d * d)%Z.
Proof.
  intros. pose proof (Z.quot_rem' (n * k) d).
  pose proof (Z.rem_bound_pos (- (n * k)) d ltac:(nia) ltac:(lia)) as Hb.
  rewrite Z.rem_opp_l' in Hb. nia.
Qed.

(** Encoding a sample of [[-1, 1]] and decoding it: the conversion never
    wraps, the decoded value is never farther from zero than the sample,
    and the error is below [2/32768], below [1/32768] for a sample that
    is not positive. *)
Lemma sample_bound (s : Q) :
  -1 <= s <= 1 ->
  let z := ToInt16 (Qtrunc (if Qltb s 0 then s * 0x8000 else s * 0x7FFF)) in
  Qabs (s - inject_Z z / 32768) < 2 / 32768 /\
  (s <= 0 -> Qabs (s - inject_Z z / 32768) < 1 / 32768).
Proof.
  intros [Hl Hu]. destruct s as [n d]. unfold Qltb.
  unfold Qle in Hl, Hu. cbn in Hl, Hu.
  destruct (Qle_bool 0 (n # d)) eqn:E; cbn [negb].
  - apply Qle_bool_iff in E. unfold Qle in E. cbn in E.
    assert (0 <= n)%Z as Hn by lia.
    pose proof (quot_floor n 32767 (Zpos d) Hn ltac:(lia) ltac:(lia)) as Hq.
    unfold Qtrunc. cbn [Qnum Qden Qmult]. rewrite Pos.mul_1_r.
    set (q := Z.quot (n * 32767) (Zpos d)) in *.
    assert (0 <= q <= 32767)%Z as Hr by nia.
    cbv zeta. rewrite ToInt16_small by lia.
    split; [|intros H0; unfold Qle in H0; cbn in H0];
      apply Qabs_Qlt_condition; unfold Qlt, Qminus, Qplus, Qopp, Qdiv, Qmult, Qinv, inject_Z;
      cbn; nia.
  - assert (~ 0 <= n # d) as E' by (intros H; apply Qle_bool_iff in H; congruence).
    unfold Qle in E'. cbn in E'.
    assert (n <= 0)%Z as Hn by lia.
    pose proof (quot_ceil n 32768 (Zpos d) Hn ltac:(lia) ltac:(lia)) as Hq.
    unfold Qtrunc. cbn [Qnum Qden Qmult]. rewrite Pos.mul_1_r.
    set (q := Z.quot (n * 32768) (Zpos d)) in *.
    assert (-32768 <= q <= 0)%Z as Hr by nia.
    cbv zeta. rewrite ToInt16_small by lia.
    split; [|intros _];
      apply Qabs_Qlt_condition; unfold Qlt, Qminus, Qplus, Qopp, Qdiv, Qmult, Qinv, inject_Z;
      cbn; nia.
Qed.

Lemma pcm16_bound (x : Q) :
  -1 <= x <= 1 ->
  Qabs (x - inject_Z (pcm16 x) / 32768) < 2 / 32768 /\
  (x <= 0 -> Qabs (x - inject_Z (pcm16 x) / 32768) < 1 / 32768).
Proof.
  intros Hx. destruct (clamp_in x Hx) as [E Hc].
  pose proof (sample_bound (clamp x) Hc) as [H1 H2]. cbv zeta in H1, H2.
  unfold pcm16. cbv zeta. split.
  - rewrite <- E at 1. exact H1.
  - intros H0. rewrite <- E at 1. apply H2. now rewrite E.
Qed.

(** ** The job queue *)

Lemma set_trace_same (w : App) : set_trace (trace w) w = w.
Proof. now destruct w. Qed.

Lemma run_jobs_spec (js : list Job) (w : App) :
  fold_left (fun acc j => run_job j acc) js w
  = set_trace (trace w ++ flat_map (job_effects (isSome (processorRef w))) js) w.
Proof.
  revert w. induction js as [|j js IH]; intros w.
  - cbn. now rewrite app_nil_r, set_trace_same.
  - cbn [fold_left flat_map]. rewrite IH. rewrite app_assoc. clear IH.
    destruct w as [? ? ? ? ? ? ? ? ? ? pr ? ? ? ? ? ? ? ? tr].
    destruct j; try reflexivity.
    destruct pr; cbn; [reflexivity|]. now rewrite app_nil_r.
Qed.

(** Draining runs every queued job: their effects are appended to the
    trace and nothing else changes. *)
Lemma drain_spec (w : App) :
  drain w
  = set_trace (trace w ++ flat_map (job_effects (isSome (processorRef w))) (jobs w))
      (set_jobs [] w).
Proof. unfold drain. now rewrite run_jobs_spec. Qed.

Lemma slots_app (t1 t2 : list Effect) : slots (t1 ++ t2) = slots t1 ++ slots t2.
Proof. apply flat_map_app. Qed.

Lemma responses_app (t1 t2 : list Effect) :
  responses (t1 ++ t2) = responses t1 ++ responses t2.
Proof. apply flat_map_app. Qed.

Lemma frames_app (t1 t2 : list Effect) : frames (t1 ++ t2) = frames t1 ++ frames t2.
Proof. apply flat_map_app. Qed.

Lemma turns_app (t1 t2 : list Effect) : turns (t1 ++ t2) = turns t1 ++ turns t2.
Proof. apply flat_map_app. Qed.

Lemma noise_stops_app (t1 t2 : list Effect) :
  noise_stops (t1 ++ t2) = (noise_stops t1 + noise_stops t2)%nat.
Proof. unfold noise_stops. now rewrite flat_map_app, length_app. Qed.

(** No job starts a buffer or stops the noise. *)
Lemma slots_jobs (c : bool) (js : list Job) :
  slots (flat_map (job_effects c) js) = [].
Proof.
  induction js as [|j js IH]; [reflexivity|].
  cbn [flat_map]. rewrite slots_app, IH, app_nil_r.
  destruct j; try reflexivity. now destruct c.
Qed.

Lemma noise_stops_jobs (c : bool) (js : list Job) :
  noise_stops (flat_map (job_effects c) js) = 0%nat.
Proof.
  induction js as [|j js IH]; [reflexivity|].
  cbn [flat_map]. rewrite noise_stops_app, IH, Nat.add_0_r.
  destruct j; try reflexivity. now destruct c.
Qed.

Lemma frames_jobs_idle (js : list Job) :
  frames (flat_map (job_effects false) js) = [].
Proof.
  induction js as [|j js IH]; [reflexivity|].
  cbn [flat_map]. rewrite frames_app, IH, app_nil_r. now destruct j.
Qed.

Lemma responses_tool_jobs (c : bool) (rs : list FunctionResponse.t) :
  responses (flat_map (job_effects c) (map JToolResponse rs)) = rs.
Proof. induction rs as [|r rs IH]; [reflexivity|]. cbn. now rewrite <- IH at 2. Qed.

(** ** The tool loop *)

Ltac split_ifs :=
  repeat match goal with
         | |- context [if ?b then _ else _] => destruct b eqn:?
         | |- context [match ?x with _ => _ end] => destruct x eqn:?
         end.

(** The [try] block of a call touches the logs and the inbox only. *)
Lemma tryTool_core (env : Env) (fc : FunctionCall.t) (w : App) :
  core (state_of (tryTool env fc w)) = core w.
Proof.
  unfold tryTool, with_args, await, addToInbox, editInboxMessage.
  split_ifs; reflexivity.
Qed.

Lemma answer_spec (env : Env) (w : App) (fc : FunctionCall.t) :
  answer env w fc
  = then_ (JToolResponse (respond env fc w)) (state_of (tryTool env fc w)).
Proof. unfold answer, respond. now destruct (tryTool env fc w). Qed.

Lemma then_view (j : Job) (w : App) : view (then_ j w) = view w.
Proof. unfold then_. split_ifs; reflexivity. Qed.

Lemma tryTool_view (env : Env) (fc : FunctionCall.t) (w : App) :
  view (state_of (tryTool env fc w)) = view w.
Proof.
  change (set_sessionRef None (set_jobs [] (core (state_of (tryTool env fc w))))
          = view w).
  now rewrite tryTool_core.
Qed.

Lemma tryTool_session (env : Env) (fc : FunctionCall.t) (w : App) :
  sessionRef (state_of (tryTool env fc w)) = sessionRef w
  /\ jobs (state_of (tryTool env fc w)) = jobs w.
Proof.
  pose proof (tryTool_core env fc w) as H.
  split.
  - change (sessionRef (core (state_of (tryTool env fc w))) = sessionRef (core w)).
    now rewrite H.
  - change (jobs (core (state_of (tryTool env fc w))) = jobs (core w)).
    now rewrite H.
Qed.

(** The loop leaves everything but logs, inbox, the session promise and
    the job queue as it was. *)
Lemma tools_view (env : Env) (calls : list FunctionCall.t) (w : App) :
  view (fold_left (answer env) calls w) = view w.
Proof.
  revert w. induction calls as [|fc calls IH]; intros w; [reflexivity|].
  cbn [fold_left]. rewrite IH, answer_spec, then_view. apply tryTool_view.
Qed.

Lemma unknown_tool (env : Env) (fc : FunctionCall.t) (w : App) :
  unknown fc = true -> tryTool env fc w = Done w (error "Unknown tool").
Proof.
  unfold unknown, known_tools. cbn [existsb]. intros H.
  apply negb_true_iff in H.
  repeat (apply orb_false_iff in H; destruct H as [?E H]).
  unfold tryTool. now rewrite E, E0, E1, E2, E3, E4, E5, E6, E7.
Qed.

Lemma unavailable_error (env : Env) (fc : FunctionCall.t) (w : App) :
  unavailable env fc w = true -> is_error (verdict (tryTool env fc w)) = true.
Proof.
  unfold unavailable, tryTool, with_args, await, addToInbox, name_is, lastImage.
  destruct fc as [i [n|] [a|]]; cbn [FunctionCall.args FunctionCall.name];
    try discriminate.
  cbn [option_string_eqb].
  repeat match goal with
         | |- context [String.eqb n ?t] =>
             destruct (String.eqb_spec n t) as [->|?]; cbn
         end;
    repeat match goal with
           | |- context [match ?x with _ => _ end] => destruct x eqn:?; cbn
           end;
    try discriminate; try reflexivity.
Qed.

Lemma answered_respond (env : Env) (fc : FunctionCall.t) (w : App) :
  answered env fc (respond env fc w).
Proof.
  unfold answered, respond. cbn. repeat split. exists w. repeat split.
  - intros H. now rewrite (unknown_tool env fc w H).
  - intros w' H. now rewrite H.
  - apply unavailable_error.
Qed.

(** On a fulfilled session promise every call of the batch queues one
    response, in the order of the calls. *)
Lemma tools_fulfilled (env : Env) (calls : list FunctionCall.t) (w : App)
  (p : SessionPromise) :
  sessionRef w = Some p -> pstate p = Fulfilled ->
  exists rs,
    Forall2 (answered env) calls rs /\
    jobs (fold_left (answer env) calls w) = jobs w ++ map JToolResponse rs.
Proof.
  revert w. induction calls as [|fc calls IH]; intros w Hs Hp.
  - exists []. split; [constructor | cbn; now rewrite app_nil_r].
  - cbn [fold_left]. rewrite answer_spec.
    destruct (tryTool_session env fc w) as [Es Ej].
    set (w1 := state_of (tryTool env fc w)) in *.
    assert (then_ (JToolResponse (respond env fc w)) w1
            = set_jobs (jobs w1 ++ [JToolResponse (respond env fc w)]) w1) as Et.
    { unfold then_. now rewrite Es, Hs, Hp. }
    rewrite Et.
    destruct (IH (set_jobs (jobs w1 ++ [JToolResponse (respond env fc w)]) w1))
      as (rs & HF & Hj); [cbn; now rewrite Es | assumption |].
    exists (respond env fc w :: rs). split.
    + constructor; [apply answered_respond | exact HF].
    + rewrite Hj. cbn. rewrite Ej, <- app_assoc. reflexivity.
Qed.

(** ** The playback scheduler *)

Lemma view_sched (w w' : App) : view w' = view w -> sched w' = sched w.
Proof.
  intros H. change (sched (view w') = sched (view w)). now rewrite H.
Qed.

Lemma slots_track_stops (n : nat) : slots (repeat TrackStop n) = [].
Proof. induction n; [reflexivity | exact IHn]. Qed.

Ltac sched_crush :=
  unfold sched; cbn;
  rewrite ?slots_app; cbn;
  rewrite ?slots_track_stops, ?app_nil_r; try reflexivity.

Lemma then_sched (j : Job) (w : App) : sched (then_ j w) = sched w.
Proof. apply view_sched, then_view. Qed.

Lemma connect_sched (c : ConnectEnv) (w : App) :
  sched (connectToLiveAPI c w) = sched w.
Proof.
  unfold connectToLiveAPI. destruct w. cbn. split_ifs; sched_crush.
Qed.

Lemma onopen_sched (r : Q) (w : App) : sched (onopen r w) = sched w.
Proof.
  unfold onopen. rewrite then_sched. destruct w. cbn. split_ifs; sched_crush.
Qed.

Lemma settle_sched (w : App) : sched (settle w) = sched w.
Proof. unfold settle. split_ifs; reflexivity. Qed.

Lemma disconnect_sched (w : App) : sched (disconnect w) = sched w.
Proof.
  unfold disconnect. cbv zeta.
  assert (sched (if isSome (sessionRef w) then then_ JClose w else w) = sched w)
    as H by (destruct (isSome (sessionRef w)); [apply then_sched | reflexivity]).
  revert H. generalize (if isSome (sessionRef w) then then_ JClose w else w).
  intros w0 <-.
  unfold closeOutput, stopNoise, stopTracks, releaseMic, stopCapture.
  destruct w0. cbn. split_ifs; sched_crush.
Qed.

Lemma fail_sched (msg : string) (w : App) : sched (fail msg w) = sched w.
Proof.
  unfold fail. split_ifs; try reflexivity. now rewrite disconnect_sched.
Qed.

Lemma onaudioprocess_sched (d : list Q) (w : App) :
  sched (onaudioprocess d w) = sched w.
Proof.
  unfold onaudioprocess. split_ifs; [reflexivity|]. now rewrite then_sched.
Qed.

Lemma runTools_sched (env : Env) (calls : list FunctionCall.t) (w : App) :
  sched (runTools env calls w) = sched w.
Proof. unfold runTools. now rewrite (view_sched _ _ (tools_view env calls _)). Qed.

(** The three ways the audio branch can go: nothing to play, a buffer
    scheduled, or an exception once the mode is [SPEAKING]. *)
Lemma audioPart_cases (now : Q) (m : LiveServerMessage) (w : App) :
  audioPart now m w = Normal w \/
  (exists d b,
      audioData m = Some d /\
      decodeAudioData d (audioContextRef w) = Some b /\
      audioPart now m w = Normal (schedule now b (setMode SPEAKING w))) \/
  audioPart now m w = Abrupt (setMode SPEAKING w).
Proof.
  unfold audioPart, playAudio.
  destruct (audioData m) as [d|]; [|now left].
  destruct (String.eqb d ""); [now left|]. cbv zeta.
  change (audioContextRef (setMode SPEAKING w)) with (audioContextRef w).
  destruct (decodeAudioData d (audioContextRef w)) as [b|] eqn:E.
  - right. left. now exists d, b.
  - now right; right.
Qed.

Lemma toolPart_sched (env : Env) (m : LiveServerMessage) (w : App) :
  sched (toolPart env m w) = sched w.
Proof.
  unfold toolPart. destruct (toolCall m); [apply runTools_sched | reflexivity].
Qed.

Lemma decode_duration (d : string) (ctx : option AudioContext) (b : AudioBuffer) :
  decodeAudioData d ctx = Some b -> 0 <= duration b.
Proof.
  unfold decodeAudioData. split_ifs; try discriminate.
  intros [= <-]. unfold duration. cbn [bufferRate].
  apply Qle_shift_div_l; [reflexivity|]. rewrite Qmult_0_l.
  unfold Qle. cbn. lia.
Qed.

(** What one handler does to the schedule: nothing, or one buffer of a
    non-negative duration is given the slot that starts at
    [max(now, nextAvailable)], and [nextAvailable] moves to its end. *)
Lemma handle_sched (env : Env) (ev : Event) (w : App) :
  sched (handle env ev w) = sched w \/
  exists now b,
    0 <= duration b /\
    sched (handle env ev w)
    = (slots (trace w)
         ++ [{| slot_start := Qmax now (nextStartTimeRef w);
                slot_duration := duration b |}],
       Qmax now (nextStartTimeRef w) + duration b).
Proof.
  destruct ev; cbn [handle].
  - left. apply connect_sched.
  - left. apply onopen_sched.
  - left. apply settle_sched.
  - left. apply fail_sched.
  - left. apply onaudioprocess_sched.
  - (* EMessage *)
    unfold onmessage.
    destruct (audioPart_cases now m w) as [E|[(d & b & _ & Hd & E)|E]];
      rewrite E.
    + left. apply toolPart_sched.
    + right. exists now, b. split; [eapply decode_duration; eassumption|].
      rewrite toolPart_sched. unfold schedule. destruct w; sched_crush.
    + now left.
  - left. unfold ontick. now destruct (intervals w).
  - left. unfold onended. destruct w. cbn. split_ifs; sched_crush.
  - left. unfold onclose. now rewrite disconnect_sched.
  - left. unfold onerror. now rewrite disconnect_sched.
  - left. apply disconnect_sched.
  - left. reflexivity.
  - left. reflexivity.
Qed.

Lemma drain_sched (w : App) : sched (drain w) = sched w.
Proof.
  rewrite drain_spec. unfold sched. cbn.
  now rewrite slots_app, slots_jobs, app_nil_r.
Qed.

Lemma step_sched (env : Env) (ev : Event) (w : App) :
  sched (step env w ev) = sched w \/
  exists now b,
    0 <= duration b /\
    sched (step env w ev)
    = (slots (trace w)
         ++ [{| slot_start := Qmax now (nextStartTimeRef w);
                slot_duration := duration b |}],
       Qmax now (nextStartTimeRef w) + duration b).
Proof. unfold step. rewrite drain_sched. apply handle_sched. Qed.

Lemma run_snoc (env : Env) (evs : list Event) (ev : Event) (w : App) :
  run env (evs ++ [ev]) w = step env (run env evs w) ev.
Proof. unfold run. now rewrite fold_left_app. Qed.

Lemma sorted_snoc (l : list PlaybackSlot) (s : PlaybackSlot) :
  StronglySorted before l -> Forall (fun a => before a s) l ->
  StronglySorted before (l ++ [s]).
Proof.
  induction 1 as [|a l Hs IH Ha]; intros HF; cbn.
  - repeat constructor.
  - inversion_clear HF as [|? ? Has HF']. constructor; [now apply IH|].
    apply Forall_app. split; [exact Ha | now constructor].
Qed.

(** The invariant of the scheduler: the slots handed out are in order
    without overlap, and all of them end by [nextStartTimeRef]. *)
Lemma schedule_invariant (env : Env) (evs : list Event) :
  StronglySorted before (slots (trace (run env evs initial))) /\
  Forall (fun s => slot_end s <= nextStartTimeRef (run env evs initial))
         (slots (trace (run env evs initial))).
Proof.
  induction evs as [|ev evs IH] using rev_ind.
  - cbn. split; constructor.
  - rewrite run_snoc. set (w := run env evs initial) in *.
    destruct IH as [Hs He].
    destruct (step_sched env ev w) as [E|(now & b & Hd & E)];
      unfold sched in E; injection E as Et En; rewrite Et, En.
    + now split.
    + assert (nextStartTimeRef w <= Qmax now (nextStartTimeRef w))
        as Hm by apply Q.le_max_r.
      split.
      * apply sorted_snoc; [exact Hs|].
        eapply Forall_impl; [|exact He]. intros a Ha. unfold before. cbn.
        now apply Qle_trans with (nextStartTimeRef w).
      * apply Forall_app. split.
        -- eapply Forall_impl; [|exact He]. intros a Ha. cbn in Ha.
           apply Qle_trans with (nextStartTimeRef w); [exact Ha|].
           apply Qle_trans with (Qmax now (nextStartTimeRef w)); [exact Hm|].
           rewrite <- (Qplus_0_r (Qmax now (nextStartTimeRef w))) at 1.
           apply Qplus_le_r. exact Hd.
        -- repeat constructor. unfold slot_end. cbn. apply Qle_refl.
Qed.

Lemma sorted_nth (l : list PlaybackSlot) :
  StronglySorted before l ->
  forall i j a b, (i < j)%nat -> nth_error l i = Some a ->
                  nth_error l j = Some b -> before a b.
Proof.
  induction 1 as [|x l Hs IH Hx]; intros i j a b Hij Ha Hb.
  - now destruct i.
  - destruct j as [|j]; [lia|]. cbn in Hb. destruct i as [|i].
    + cbn in Ha. injection Ha as <-.
      rewrite Forall_forall in Hx. apply Hx. eapply nth_error_In; eassumption.
    + cbn in Ha. apply (IH i j); [lia | assumption | assumption].
Qed.

(** ** Teardown *)

Lemma run_quiescent (env : Env) (evs : list Event) :
  jobs (run env evs initial) = [].
Proof.
  destruct evs as [|ev evs] using rev_ind; [reflexivity|].
  rewrite run_snoc. unfold step. now rewrite drain_spec.
Qed.

Lemma stopCapture_spec (w : App) :
  stopCapture w
  = set_processorRef None
      (set_trace (trace w ++ (if isSome (processorRef w)
                              then [CaptureDetach; ProcessorDisconnect] else []))
                 w).
Proof.
  unfold stopCapture. destruct w as [? ? ? ? ? ? ? ? ? ? pr ? ? ? ? ? ? ? ? tr].
  destruct pr; unfold emit, set_processorRef, set_trace; cbn;
    rewrite ?app_nil_r, <- ?app_assoc; reflexivity.
Qed.

Lemma releaseMic_spec (w : App) :
  releaseMic w
  = set_sourceRef None
      (set_trace (trace w ++ (if isSome (sourceRef w)
                              then [MicSourceDisconnect] else [])) w).
Proof.
  unfold releaseMic. destruct w as [? ? ? ? ? ? ? ? ? ? ? so ? ? ? ? ? ? ? tr].
  destruct so;
    unfold emit, set_sourceRef, set_streamRef, set_bgNoiseRef,
      set_audioContextRef, set_trace; cbn;
    rewrite ?app_nil_r; reflexivity.
Qed.

Lemma stopTracks_spec (w : App) :
  stopTracks w
  = set_streamRef None
      (set_trace (trace w ++ match streamRef w with
                             | Some s => repeat TrackStop (tracks s)
                             | None => []
                             end) w).
Proof.
  unfold stopTracks. destruct w as [? ? ? ? ? ? ? ? ? ? ? ? st ? ? ? ? ? ? tr].
  destruct st;
    unfold emit, set_sourceRef, set_streamRef, set_bgNoiseRef,
      set_audioContextRef, set_trace; cbn;
    rewrite ?app_nil_r; reflexivity.
Qed.

Lemma stopNoise_spec (w : App) :
  stopNoise w
  = set_bgNoiseRef None
      (set_trace (trace w ++ (if isSome (bgNoiseRef w) then [NoiseStop] else []))
                 w).
Proof.
  unfold stopNoise. destruct w as [? ? ? ? ? ? ? ? ? ? ? ? ? bg ? ? ? ? ? tr].
  destruct bg;
    unfold emit, set_sourceRef, set_streamRef, set_bgNoiseRef,
      set_audioContextRef, set_trace; cbn;
    rewrite ?app_nil_r; reflexivity.
Qed.

Lemma closeOutput_spec (w : App) :
  closeOutput w
  = set_audioContextRef None
      (set_trace (trace w ++ (if isSome (audioContextRef w)
                              then [ContextClose] else [])) w).
Proof.
  unfold closeOutput. destruct w as [? ? ? ? ? ? ac ? ? ? ? ? ? ? ? ? ? ? ? tr].
  destruct ac;
    unfold emit, set_sourceRef, set_streamRef, set_bgNoiseRef,
      set_audioContextRef, set_trace; cbn;
    rewrite ?app_nil_r; reflexivity.
Qed.

(** The blocks of [disconnect] run on [w0]: the state they leave. *)
Lemma blocks_spec (w0 : App) :
  closeOutput (stopNoise (stopTracks (releaseMic (stopCapture w0))))
  = set_audioContextRef None
      (set_bgNoiseRef None
         (set_streamRef None
            (set_sourceRef None
               (set_processorRef None
                  (set_trace (trace w0 ++ teardown_sync w0) w0))))).
Proof.
  rewrite stopCapture_spec.
  set (w1 := set_processorRef _ _).
  rewrite (releaseMic_spec w1). set (w2 := set_sourceRef _ _).
  rewrite (stopTracks_spec w2). set (w3 := set_streamRef _ _).
  rewrite (stopNoise_spec w3). set (w4 := set_bgNoiseRef _ _).
  rewrite (closeOutput_spec w4).
  subst w4 w3 w2 w1. unfold teardown_sync. cbn.
  rewrite <- !app_assoc. reflexivity.
Qed.

Lemma disconnect_spec (w : App) :
  disconnect w
  = let w0 := if isSome (sessionRef w) then then_ JClose w else w in
    setVolume 0%R
      (setMode IDLE
         (setConnected false
            (set_audioContextRef None
               (set_bgNoiseRef None
                  (set_streamRef None
                     (set_sourceRef None
                        (set_processorRef None
                           (set_trace (trace w0 ++ teardown_sync w0) w0)))))))).
Proof. unfold disconnect. cbv zeta. now rewrite blocks_spec. Qed.

Lemma close_view (w : App) :
  view (if isSome (sessionRef w) then then_ JClose w else w) = view w.
Proof. destruct (isSome (sessionRef w)); [apply then_view | reflexivity]. Qed.

Lemma view_teardown_sync (w w' : App) :
  view w' = view w -> teardown_sync w' = teardown_sync w.
Proof.
  intros H. change (teardown_sync (view w') = teardown_sync (view w)).
  now rewrite H.
Qed.

Lemma view_trace (w w' : App) : view w' = view w -> trace w' = trace w.
Proof. intros H. change (trace (view w') = trace (view w)). now rewrite H. Qed.

(** After [disconnect] the component is idle and holds no audio resource. *)
Lemma disconnect_released (w : App) :
  mode (disconnect w) = IDLE /\ connected (disconnect w) = false /\
  volume (disconnect w) = 0%R /\
  processorRef (disconnect w) = None /\ sourceRef (disconnect w) = None /\
  streamRef (disconnect w) = None /\ bgNoiseRef (disconnect w) = None /\
  audioContextRef (disconnect w) = None.
Proof. rewrite disconnect_spec. repeat split. Qed.

Lemma disconnect_effects (w : App) :
  trace (disconnect w) = trace w ++ teardown_sync w.
Proof.
  rewrite disconnect_spec. cbv zeta. cbn [trace setVolume setMode setConnected
    set_audioContextRef set_bgNoiseRef set_streamRef set_sourceRef
    set_processorRef set_trace].
  now rewrite (view_trace _ _ (close_view w)), (view_teardown_sync _ _ (close_view w)).
Qed.

(** The whole of a teardown from a state with no job waiting: the effects
    of [disconnect], then the job that closes the session. *)
Lemma disconnect_trace (w : App) :
  jobs w = [] -> trace (drain (disconnect w)) = trace w ++ teardown w.
Proof.
  intros Hj. rewrite drain_spec. cbn [trace set_trace set_jobs].
  rewrite disconnect_effects.
  destruct (disconnect_released w) as (_ & _ & _ & -> & _). cbn [isSome].
  unfold teardown. rewrite <- app_assoc. do 2 f_equal.
  rewrite disconnect_spec. cbv zeta. cbn [jobs setVolume setMode setConnected
    set_audioContextRef set_bgNoiseRef set_streamRef set_sourceRef
    set_processorRef set_trace].
  unfold teardown_close, then_.
  destruct (sessionRef w) as [[[| |] rs]|]; cbn; rewrite ?Hj; reflexivity.
Qed.

(** ** The noise bed *)

Lemma view_noise (w w' : App) : view w' = view w -> noise w' = noise w.
Proof.
  intros H. change (noise (view w') = noise (view w)). now rewrite H.
Qed.

Ltac noise_crush :=
  unfold noise; cbn;
  rewrite ?noise_stops_app; cbn;
  rewrite ?Nat.add_0_r; try reflexivity.

Lemma then_noise (j : Job) (w : App) : noise (then_ j w) = noise w.
Proof. apply view_noise, then_view. Qed.

Lemma drain_noise (w : App) : noise (drain w) = noise w.
Proof.
  rewrite drain_spec. unfold noise. cbn [bgNoiseRef trace set_trace set_jobs].
  now rewrite noise_stops_app, noise_stops_jobs, Nat.add_0_r.
Qed.

Lemma runTools_noise (env : Env) (calls : list FunctionCall.t) (w : App) :
  noise (runTools env calls w) = noise w.
Proof. unfold runTools. now rewrite (view_noise _ _ (tools_view env calls _)). Qed.

(** While a noise source runs, no event but a teardown touches it. *)
Lemma handle_noise (env : Env) (ev : Event) (w : App) :
  is_teardown ev = false -> isSome (bgNoiseRef w) = true ->
  noise (handle env ev w) = noise w.
Proof.
  intros Ht Hn. destruct ev; try discriminate; cbn [handle].
  - unfold connectToLiveAPI.
    destruct w as [? ? ? ? ? cf ac ic ? se pr so st bg ? ? ? ? jo tr].
    cbn in Hn. destruct bg; [|discriminate].
    destruct (API_KEY c), (getUserMedia c), cf, ac, ic; noise_crush.
  - unfold onopen. rewrite then_noise. destruct w. cbn. split_ifs; noise_crush.
  - unfold settle. split_ifs; reflexivity.
  - unfold onaudioprocess. split_ifs; [reflexivity|]. now rewrite then_noise.
  - unfold onmessage.
    destruct (audioPart_cases now m w) as [E|[(d & b & _ & Hd & E)|E]];
      rewrite E; try reflexivity;
      (unfold toolPart; destruct (toolCall m); rewrite ?runTools_noise;
       try reflexivity; unfold schedule; destruct w; noise_crush).
  - unfold ontick. now destruct (intervals w).
  - unfold onended. destruct w. cbn. split_ifs; noise_crush.
  - reflexivity.
  - reflexivity.
Qed.

Lemma step_noise (env : Env) (ev : Event) (w : App) :
  is_teardown ev = false -> isSome (bgNoiseRef w) = true ->
  noise (step env w ev) = noise w.
Proof. intros. unfold step. rewrite drain_noise. now apply handle_noise. Qed.

Lemma run_noise (env : Env) (evs : list Event) (w : App) :
  forallb (fun ev => negb (is_teardown ev)) evs = true ->
  isSome (bgNoiseRef w) = true ->
  noise (run env evs w) = noise w.
Proof.
  induction evs as [|ev evs IH] using rev_ind; intros Hf Hn; [reflexivity|].
  rewrite forallb_app in Hf. apply andb_true_iff in Hf as [Hf He].
  cbn in He. rewrite andb_true_r in He. apply negb_true_iff in He.
  rewrite run_snoc. specialize (IH Hf Hn).
  rewrite step_noise; [exact IH | exact He |].
  unfold noise in IH. injection IH as -> _. exact Hn.
Qed.

Lemma noise_stops_track_stops (n : nat) : noise_stops (repeat TrackStop n) = 0%nat.
Proof. unfold noise_stops. induction n; [reflexivity | exact IHn]. Qed.

Lemma noise_stops_teardown_sync (w : App) :
  noise_stops (teardown_sync w) = if isSome (bgNoiseRef w) then 1%nat else 0%nat.
Proof.
  unfold teardown_sync. rewrite !noise_stops_app.
  destruct (processorRef w), (sourceRef w), (streamRef w), (bgNoiseRef w),
    (audioContextRef w); cbn [isSome]; rewrite ?noise_stops_track_stops;
    reflexivity.
Qed.

(** [disconnect] stops a running noise source, once, and lets go of it. *)
Lemma disconnect_noise (w : App) :
  isSome (bgNoiseRef w) = true ->
  noise (disconnect w) = (None, S (noise_stops (trace w))).
Proof.
  intros Hn. unfold noise.
  destruct (disconnect_released w) as (_ & _ & _ & _ & _ & _ & -> & _).
  rewrite disconnect_effects, noise_stops_app, noise_stops_teardown_sync, Hn.
  f_equal. lia.
Qed.

Lemma closes_noise (env : Env) (ev : Event) (w : App) :
  closes ev = true -> isSome (bgNoiseRef w) = true ->
  noise (step env w ev) = (None, S (noise_stops (trace w))).
Proof.
  intros Hc Hn. unfold step. rewrite drain_noise.
  destruct ev; try discriminate; cbn [handle].
  - unfold onclose. now rewrite disconnect_noise.
  - unfold onerror. now rewrite disconnect_noise.
  - now apply disconnect_noise.
Qed.

(** ** Capture *)

Lemma view_capture (w w' : App) : view w' = view w -> capture w' = capture w.
Proof.
  intros H. change (capture (view w') = capture (view w)). now rewrite H.
Qed.

Lemma frames_track_stops (n : nat) : frames (repeat TrackStop n) = [].
Proof. induction n; [reflexivity | exact IHn]. Qed.

Ltac capture_crush :=
  unfold capture; cbn;
  rewrite ?frames_app; cbn;
  rewrite ?frames_track_stops, ?app_nil_r; try reflexivity.

Lemma then_capture (j : Job) (w : App) : capture (then_ j w) = capture w.
Proof. apply view_capture, then_view. Qed.

Lemma runTools_capture (env : Env) (calls : list FunctionCall.t) (w : App) :
  capture (runTools env calls w) = capture w.
Proof.
  unfold runTools. now rewrite (view_capture _ _ (tools_view env calls _)).
Qed.

Lemma frames_teardown_sync (w : App) : frames (teardown_sync w) = [].
Proof.
  unfold teardown_sync. rewrite !frames_app.
  destruct (processorRef w), (sourceRef w), (streamRef w), (bgNoiseRef w),
    (audioContextRef w); cbn [isSome]; rewrite ?frames_track_stops;
    reflexivity.
Qed.

Lemma disconnect_stream (w : App) : stream (disconnect w) = stream w.
Proof.
  rewrite disconnect_spec. cbv zeta.
  change (stream (view (if isSome (sessionRef w) then then_ JClose w else w))
          = stream (view w)).
  now rewrite close_view.
Qed.

Lemma disconnect_capture (w : App) :
  processorRef w = None ->
  capture (disconnect w) = capture w.
Proof.
  intros Hp. unfold capture.
  destruct (disconnect_released w) as (_ & _ & _ & -> & _).
  now rewrite disconnect_stream, disconnect_effects, frames_app,
    frames_teardown_sync, app_nil_r, Hp.
Qed.

(** Without a stream and without a processor, no event but a new
    connection brings capture to life. *)
Lemma handle_capture (env : Env) (ev : Event) (w : App) :
  is_connect ev = false -> processorRef w = None -> stream w = None ->
  capture (handle env ev w) = capture w.
Proof.
  intros Hc Hp Hs. destruct ev; try discriminate; cbn [handle].
  - unfold onopen. rewrite then_capture. destruct w. cbn in Hp, Hs. subst.
    reflexivity.
  - unfold settle. split_ifs; reflexivity.
  - unfold fail. split_ifs; try reflexivity. now rewrite disconnect_capture.
  - unfold onaudioprocess. now rewrite Hp.
  - unfold onmessage.
    destruct (audioPart_cases now m w) as [E|[(d & b & _ & Hd & E)|E]];
      rewrite E; try reflexivity;
      (unfold toolPart; destruct (toolCall m); rewrite ?runTools_capture;
       try reflexivity; unfold schedule; destruct w; capture_crush).
  - unfold ontick. now destruct (intervals w).
  - unfold onended. destruct w. cbn. split_ifs; capture_crush.
  - unfold onclose. now rewrite disconnect_capture.
  - unfold onerror. now rewrite disconnect_capture.
  - now apply disconnect_capture.
  - reflexivity.
  - reflexivity.
Qed.

Lemma step_capture (env : Env) (ev : Event) (w : App) :
  is_connect ev = false -> processorRef w = None -> stream w = None ->
  capture (step env w ev) = capture w.
Proof.
  intros Hc Hp Hs. unfold step.
  pose proof (handle_capture env ev w Hc Hp Hs) as H.
  rewrite <- H. rewrite drain_spec. unfold capture in *. cbn.
  injection H as Hp' _ _. rewrite Hp' , Hp. cbn [isSome].
  now rewrite frames_app, frames_jobs_idle, app_nil_r.
Qed.

Lemma run_capture (env : Env) (evs : list Event) (w : App) :
  forallb (fun ev => negb (is_connect ev)) evs = true ->
  processorRef w = None -> stream w = None ->
  capture (run env evs w) = capture w.
Proof.
  induction evs as [|ev evs IH] using rev_ind; intros Hf Hp Hs; [reflexivity|].
  rewrite forallb_app in Hf. apply andb_true_iff in Hf as [Hf He].
  cbn in He. rewrite andb_true_r in He. apply negb_true_iff in He.
  rewrite run_snoc. specialize (IH Hf Hp Hs).
  rewrite step_capture; [exact IH | exact He | |];
    unfold capture in IH; injection IH as H1 H2 _; congruence.
Qed.

(** ** Modes and messages *)

Lemma drain_mode (w : App) : mode (drain w) = mode w.
Proof. now rewrite drain_spec. Qed.

Lemma drain_refs (w : App) :
  processorRef (drain w) = processorRef w /\
  sourceRef (drain w) = sourceRef w /\
  streamRef (drain w) = streamRef w /\
  bgNoiseRef (drain w) = bgNoiseRef w /\
  audioContextRef (drain w) = audioContextRef w.
Proof. rewrite drain_spec. now repeat split. Qed.

Lemma view_mode (w w' : App) : view w' = view w -> mode w' = mode w.
Proof. intros H. change (mode (view w') = mode (view w)). now rewrite H. Qed.

Lemma runTools_mode (env : Env) (calls : list FunctionCall.t) (w : App) :
  mode (runTools env calls w) = THINKING.
Proof. unfold runTools. now rewrite (view_mode _ _ (tools_view env calls _)). Qed.

(** When the audio part is fine the audio branch completes, and leaves
    the session promise, the job queue and the responses alone. *)
Lemma audioPart_ok (now : Q) (m : LiveServerMessage) (w : App) :
  audio_ok m w = true ->
  exists wa,
    audioPart now m w = Normal wa /\
    sessionRef wa = sessionRef w /\ jobs wa = jobs w /\
    responses (trace wa) = responses (trace w).
Proof.
  intros Hok.
  destruct (audioPart_cases now m w) as [E|[(d & b & _ & Hd & E)|E]].
  - exists w. now rewrite E.
  - eexists. split; [exact E|]. unfold schedule. destruct w. cbn.
    rewrite responses_app. cbn. now rewrite app_nil_r.
  - exfalso. unfold audio_ok in Hok. unfold audioPart, playAudio in E.
    destruct (audioData m) as [d|]; [|discriminate].
    destruct (String.eqb d ""); [discriminate|]. cbv zeta in E.
    change (audioContextRef (setMode SPEAKING w)) with (audioContextRef w) in E.
    cbn [orb] in Hok.
    destruct (decodeAudioData d (audioContextRef w)); discriminate.
Qed.

(** A batch of calls on an open session: one response per call is sent,
    in the order of the calls. *)
Lemma message_responses (env : Env) (now : Q) (m : LiveServerMessage)
  (w : App) (calls : list FunctionCall.t) (p : SessionPromise) :
  sessionRef w = Some p -> pstate p = Fulfilled -> jobs w = [] ->
  audio_ok m w = true -> toolCall m = Some calls ->
  exists rs,
    Forall2 (answered env) calls rs /\
    responses (trace (step env w (EMessage now m))) = responses (trace w) ++ rs.
Proof.
  intros Hs Hp Hj Hok Hc.
  destruct (audioPart_ok now m w Hok) as (wa & Ea & Es & Eja & Er).
  unfold step. cbn [handle]. unfold onmessage. rewrite Ea.
  unfold toolPart. rewrite Hc. unfold runTools.
  set (w0 := addLog system "Executing tools..." (setMode THINKING wa)).
  destruct (tools_fulfilled env calls w0 p) as (rs & HF & Hjobs);
    [cbn; congruence | assumption |].
  exists rs. split; [exact HF|].
  rewrite drain_spec. cbn [trace set_trace set_jobs].
  rewrite Hjobs. cbn [jobs w0 addLog setLogs setMode]. rewrite Eja, Hj. cbn [app].
  rewrite responses_app, responses_tool_jobs.
  rewrite (view_trace _ _ (tools_view env calls w0)). cbn. now rewrite Er.
Qed.

Lemma message_speaking (env : Env) (now : Q) (m : LiveServerMessage)
  (w : App) (d : string) :
  audioData m = Some d -> d <> ""%string -> toolCall m = None ->
  mode (step env w (EMessage now m)) = SPEAKING.
Proof.
  intros Hd Hne Hc. unfold step. rewrite drain_mode. cbn [handle].
  unfold onmessage, toolPart. rewrite Hc.
  unfold audioPart, playAudio. rewrite Hd.
  destruct (String.eqb_spec d ""); [contradiction|]. cbv zeta.
  destruct (decodeAudioData d _); reflexivity.
Qed.

Lemma ended_listening (env : Env) (now : Q) (w : App) :
  nextStartTimeRef w - 0.1 <= now ->
  mode (step env w (EEnded now)) = LISTENING.
Proof.
  intros H. unfold step. rewrite drain_mode. cbn [handle]. unfold onended.
  cbv zeta.
  change (nextStartTimeRef (emit ClearInterval (set_intervals (pred (intervals w)) w)))
    with (nextStartTimeRef w).
  apply Qle_bool_iff in H. now rewrite H.
Qed.

Lemma closes_disconnect (env : Env) (ev : Event) (w : App) :
  closes ev = true ->
  exists w0, handle env ev w = disconnect w0 /\ view w0 = view w
             /\ sessionRef w0 = sessionRef w /\ jobs w0 = jobs w.
Proof.
  intros Hc. destruct ev; try discriminate; cbn [handle].
  - unfold onclose. eexists. split; [reflexivity|]. now repeat split.
  - unfold onerror. eexists. split; [reflexivity|]. now repeat split.
  - exists w. now repeat split.
Qed.

(** ** Volume *)

Lemma square_le_1 (x : Q) : -1 <= x <= 1 -> 0 <= x * x <= 1.
Proof. intros [H1 H2]. split; nra. Qed.

Lemma sum_squares_acc (d : list Q) (a n : Q) :
  Forall (fun x => -1 <= x <= 1) d -> 0 <= a <= n ->
  0 <= fold_left (fun sum x => sum + x * x) d a
    <= n + inject_Z (Z.of_nat (List.length d)).
Proof.
  intros HF. revert a n. induction HF as [|x d Hx _ IH]; intros a n Ha.
  - cbn. unfold inject_Z. lra.
  - cbn [fold_left List.length]. pose proof (square_le_1 x Hx) as Hs.
    specialize (IH (a + x * x) (n + 1) ltac:(lra)).
    rewrite Nat2Z.inj_succ. unfold Z.succ. rewrite inject_Z_plus.
    change (inject_Z 1) with 1. lra.
Qed.

Lemma length_pos_Q {A} (d : list A) :
  d <> [] -> 0 < inject_Z (Z.of_nat (List.length d)).
Proof.
  intros H. destruct d; [contradiction|]. unfold Qlt. cbn. lia.
Qed.

(** The mean square of a frame of samples of [[-1, 1]]. *)
Lemma mean_square_bounds (d : list Q) :
  Forall (fun x => -1 <= x <= 1) d -> d <> [] ->
  0 <= sum_squares d / inject_Z (Z.of_nat (List.length d)) <= 1.
Proof.
  intros HF Hne. pose proof (length_pos_Q d Hne) as Hl.
  pose proof (sum_squares_acc d 0 0 HF ltac:(lra)) as [H0 H1].
  fold (sum_squares d) in H0, H1. rewrite Qplus_0_l in H1. split.
  - apply Qle_shift_div_l; [exact Hl|]. now rewrite Qmult_0_l.
  - apply Qle_shift_div_r; [exact Hl|]. now rewrite Qmult_1_l.
Qed.

Lemma rms_bounds (d : list Q) :
  Forall (fun x => -1 <= x <= 1) d -> d <> [] -> (0 <= rms d <= 1)%R.
Proof.
  intros HF Hne. destruct (mean_square_bounds d HF Hne) as [H0 H1].
  unfold rms. apply Qle_Rle in H0, H1.
  replace (Q2R 0) with 0%R in H0 by (unfold Q2R; cbn; Lra.lra).
  replace (Q2R 1) with 1%R in H1 by (unfold Q2R; cbn; Lra.lra).
  split; [apply sqrt_pos|].
  rewrite <- sqrt_1. apply sqrt_le_1; Lra.lra.
Qed.

Lemma byte_sum_acc (data : list Byte.byte) (a n : Q) :
  0 <= a <= 255 * n ->
  0 <= fold_left (fun a b => a + inject_Z (Z.of_N (Byte.to_N b))) data a
    <= 255 * (n + inject_Z (Z.of_nat (List.length data))).
Proof.
  revert a n. induction data as [|b data IH]; intros a n Ha.
  - cbn. unfold inject_Z at 1. lra.
  - cbn [fold_left List.length].
    assert (0 <= inject_Z (Z.of_N (Byte.to_N b)) <= 255) as Hb.
    { pose proof (Byte.to_N_bounded b). unfold Qle, inject_Z. cbn. lia. }
    specialize (IH (a + inject_Z (Z.of_N (Byte.to_N b))) (n + 1) ltac:(lra)).
    rewrite Nat2Z.inj_succ. unfold Z.succ. rewrite inject_Z_plus.
    change (inject_Z 1) with 1. lra.
Qed.

(** The published output volume is eight times a mean of [[0, 1]]. *)
Lemma outputVolume_bounds (data : list Byte.byte) :
  data <> [] -> 0 <= outputVolume data <= 8.
Proof.
  intros Hne. pose proof (length_pos_Q data Hne) as Hl.
  pose proof (byte_sum_acc data 0 0 ltac:(lra)) as [H0 H1].
  rewrite Qplus_0_l in H1. unfold outputVolume. cbv zeta.
  set (sum := fold_left _ data 0) in *.
  set (len := inject_Z (Z.of_nat (List.length data))) in *.
  assert (0 <= sum / len <= 255) as [Ha Hb].
  { split.
    - apply Qle_shift_div_l; [exact Hl|]. now rewrite Qmult_0_l.
    - apply Qle_shift_div_r; [exact Hl|]. exact H1. }
  assert (0 <= sum / len / 255 <= 1) as [Hc Hd].
  { split.
    - apply Qle_shift_div_l; [reflexivity|]. now rewrite Qmult_0_l.
    - apply Qle_shift_div_r; [reflexivity|]. now rewrite Qmult_1_l. }
  split; lra.
Qed.

Lemma drain_volume (w : App) : volume (drain w) = volume w.
Proof. now rewrite drain_spec. Qed.

Lemma view_volume (w w' : App) : view w' = view w -> volume w' = volume w.
Proof. intros H. change (volume (view w') = volume (view w)). now rewrite H. Qed.

Lemma capture_volume (env : Env) (d : list Q) (w : App) :
  processorRef w <> None -> volume (step env w (EAudioProcess d)) = rms d.
Proof.
  intros Hp. unfold step. rewrite drain_volume. cbn [handle].
  unfold onaudioprocess. destruct (processorRef w); [|contradiction].
  cbn [isSome negb]. now rewrite (view_volume _ _ (then_view _ _)).
Qed.

Lemma tick_volume (env : Env) (data : list Byte.byte) (w : App) :
  intervals w <> 0%nat ->
  volume (step env w (ETick data)) = Q2R (outputVolume data).
Proof.
  intros Hi. unfold step. rewrite drain_volume. cbn [handle]. unfold ontick.
  now destruct (intervals w).
Qed.

(** ** The filter graph *)

Lemma filtered_route (b : AudioBuffer) :
  routes (playbackGraph true b) 7 n_source
  = [[n_highpass; n_distortion; n_lowpass; n_gainNode; n_destination]].
Proof. reflexivity. Qed.

Lemma direct_route (b : AudioBuffer) :
  routes (playbackGraph false b) 7 n_source = [[n_destination]].
Proof. reflexivity. Qed.

(** The saturation curve at drive 5 is gentle: every point of the curve
    lies within [8/9] of zero. *)
Lemma curve_soft (i : nat) :
  (INR i <= IZR n_samples)%R ->
  (Rabs (makeDistortionCurve 5 i) <= 8 / 9)%R.
Proof.
  intros Hi. unfold makeDistortionCurve, n_samples in *. cbv zeta.
  set (x := (INR i * 2 / 44100 - 1)%R).
  assert (-1 <= x <= 1)%R as Hx.
  { pose proof (pos_INR i). unfold x. split; Lra.lra. }
  pose proof PI_RGT_0 as Hpi. pose proof (Rabs_pos x) as Hax.
  assert (Rabs x <= 1)%R as Hax1 by (apply Rabs_le; Lra.lra).
  assert (0 < PI + 5 * Rabs x)%R as Hden by Lra.lra.
  replace ((3 + 5) * x * 20 * (PI / 180) / (PI + 5 * Rabs x))%R
    with (x * (8 * PI / 9 / (PI + 5 * Rabs x)))%R by (field; Lra.lra).
  rewrite Rabs_mult.
  assert (0 < 8 * PI / 9 / (PI + 5 * Rabs x) <= 8 / 9)%R as [Hq0 Hq1].
  { split.
    - apply Rdiv_lt_0_compat; Lra.lra.
    - apply (Rmult_le_reg_r (PI + 5 * Rabs x)); [exact Hden|].
      replace (8 * PI / 9 / (PI + 5 * Rabs x) * (PI + 5 * Rabs x))%R
        with (8 * PI / 9)%R by (field; Lra.lra).
      Lra.nra. }
  rewrite (Rabs_pos_eq (8 * PI / 9 / (PI + 5 * Rabs x))) by Lra.lra.
  Lra.nra.
Qed.

(** ** Connecting *)

(** With the call filter on and no noise source left over, connecting
    starts one. *)
Lemma connect_starts_noise (c : ConnectEnv) (w : App) :
  API_KEY c = true -> callFilterEnabled w = true -> bgNoiseRef w = None ->
  exists ctx,
    bgNoiseRef (connectToLiveAPI c w) = Some (makeBgNoise (random c) ctx) /\
    trace (connectToLiveAPI c w)
    = trace w ++ [NoiseStart (makeBgNoise (random c) ctx); LiveConnect].
Proof.
  intros Hk Hf Hn. unfold connectToLiveAPI. rewrite Hk.
  destruct w as [? ? ? ? ? cf ac ic ? se pr so st bg ? ? ? ? jo tr].
  cbn in Hf, Hn. subst cf bg.
  destruct ac as [ctx|], ic, (getUserMedia c); cbn;
    eexists; (split; [reflexivity | now rewrite <- app_assoc]).
Qed.

(** Connecting without a microphone: the component listens, the session
    promise is pending, and capture is not set up. *)
Lemma connect_degraded (c : ConnectEnv) (w : App) :
  API_KEY c = true -> getUserMedia c = None ->
  mode (connectToLiveAPI c w) = LISTENING /\
  connected (connectToLiveAPI c w) = true /\
  sessionRef (connectToLiveAPI c w) = Some {| pstate := Pending; reactions := [] |} /\
  jobs (connectToLiveAPI c w) = jobs w /\
  isSome (audioContextRef (connectToLiveAPI c w)) = true /\
  capture (connectToLiveAPI c w) = (processorRef w, None, frames (trace w)).
Proof.
  intros Hk Hm. unfold connectToLiveAPI. rewrite Hk, Hm.
  destruct w as [? ? ? ? ? cf ac ic ? se pr so st bg ? ? ? ? jo tr].
  destruct cf, ac, ic, bg; cbn; repeat split; capture_crush.
Qed.

(** The socket opens and the promise fulfils on a session without a
    stream: the greeting is the one thing sent. *)
Lemma open_resolve (env : Env) (r : Q) (w : App) :
  sessionRef w = Some {| pstate := Pending; reactions := [] |} ->
  jobs w = [] -> stream w = None ->
  let w2 := run env [EOpen r; EResolved] w in
  trace w2 = trace w ++ [SendClientContent (greeting r)] /\
  sessionRef w2 = Some {| pstate := Fulfilled; reactions := [] |} /\
  jobs w2 = [] /\ audioContextRef w2 = audioContextRef w.
Proof.
  intros Hs Hj Hst.
  destruct w as [? ? ? ? ? cf ac ic ? se pr so st bg ? sm ? ? jo tr].
  cbn in Hs, Hj, Hst. subst se jo sm.
  unfold run, step. cbn [fold_left handle].
  unfold onopen, settle, then_, drain. cbn.
  now repeat split.
Qed.

(** A decodable chunk is given the slot at [max(now, nextAvailable)]. *)
Lemma message_slot (env : Env) (now : Q) (m : LiveServerMessage) (w : App)
  (d : string) (b : AudioBuffer) :
  audioData m = Some d -> d <> ""%string ->
  decodeAudioData d (audioContextRef w) = Some b ->
  sched (step env w (EMessage now m))
  = (slots (trace w)
       ++ [{| slot_start := Qmax now (nextStartTimeRef w);
              slot_duration := duration b |}],
     Qmax now (nextStartTimeRef w) + duration b).
Proof.
  intros Hd Hne Hb. unfold step. rewrite drain_sched. cbn [handle].
  unfold onmessage, audioPart, playAudio. rewrite Hd.
  destruct (String.eqb_spec d ""); [contradiction|]. cbv zeta.
  change (audioContextRef (setMode SPEAKING w)) with (audioContextRef w).
  rewrite Hb, toolPart_sched. unfold schedule. destruct w. sched_crush.
Qed.

(** The effects of a message with a decodable chunk start with the start
    of the source on its graph. *)
Lemma message_graph (env : Env) (now : Q) (m : LiveServerMessage) (w : App)
  (d : string) (b : AudioBuffer) :
  audioData m = Some d -> d <> ""%string ->
  decodeAudioData d (audioContextRef w) = Some b ->
  exists t,
    trace (step env w (EMessage now m))
    = trace w ++ SourceStart (playbackGraph (callFilter w) b) b
                   (Qmax now (nextStartTimeRef w)) :: t.
Proof.
  intros Hd Hne Hb. unfold step. rewrite drain_spec.
  cbn [trace set_trace set_jobs handle].
  unfold onmessage, audioPart, playAudio. rewrite Hd.
  destruct (String.eqb_spec d ""); [contradiction|]. cbv zeta.
  change (audioContextRef (setMode SPEAKING w)) with (audioContextRef w).
  rewrite Hb.
  assert (forall w0, trace (toolPart env m w0) = trace w0) as Ht.
  { intros w0. unfold toolPart, runTools. destruct (toolCall m); [|reflexivity].
    now rewrite (view_trace _ _ (tools_view env _ _)). }
  rewrite Ht. unfold schedule. cbn [trace emit set_trace set_nextStartTimeRef
    set_intervals setMode callFilter nextStartTimeRef].
  rewrite <- app_assoc. eexists. reflexivity.
Qed.

(** ** The noise bed over whole runs *)

Ltac quiet_crush :=
  split; [reflexivity|]; cbn; rewrite <- ?app_assoc;
  first [ exists []; split; [now rewrite app_nil_r | reflexivity]
        | eexists; split; [reflexivity | reflexivity] ].

Lemma quiet_refl (w : App) : quiet_step w w.
Proof. split; [reflexivity|]. exists []. now rewrite app_nil_r. Qed.

Lemma quiet_trans (w1 w2 w3 : App) :
  quiet_step w1 w2 -> quiet_step w2 w3 -> quiet_step w1 w3.
Proof.
  intros (Hb1 & t1 & Ht1 & Hn1) (Hb2 & t2 & Ht2 & Hn2). split; [congruence|].
  exists (t1 ++ t2). rewrite Ht2, Ht1, <- app_assoc. split; [reflexivity|].
  now rewrite noise_stops_app, Hn1, Hn2.
Qed.

Lemma view_quiet (w w' : App) : view w' = view w -> quiet_step w w'.
Proof.
  intros H. split.
  - change (bgNoiseRef (view w') = bgNoiseRef (view w)). now rewrite H.
  - exists []. rewrite app_nil_r. split; [apply (view_trace _ _ H) | reflexivity].
Qed.

Lemma drain_quiet (w : App) : quiet_step w (drain w).
Proof.
  rewrite drain_spec. split; [reflexivity|]. eexists. split; [reflexivity|].
  apply noise_stops_jobs.
Qed.

Lemma toolPart_quiet (env : Env) (m : LiveServerMessage) (w : App) :
  quiet_step w (toolPart env m w).
Proof.
  unfold toolPart, runTools. destruct (toolCall m); [|apply quiet_refl].
  apply quiet_trans with (addLog system "Executing tools..." (setMode THINKING w)).
  - split; [reflexivity|]. exists []. cbn. now rewrite app_nil_r.
  - apply view_quiet, tools_view.
Qed.

Lemma start_then_quiet (w1 w2 w3 : App) :
  start_step w1 w2 -> quiet_step w2 w3 -> start_step w1 w3.
Proof.
  intros (Hb1 & r & ctx & t & Hb & Ht & Hn) (Hb2 & t2 & Ht2 & Hn2).
  split; [exact Hb1|]. exists r, ctx, (t ++ t2). repeat split.
  - congruence.
  - rewrite Ht2, Ht, <- app_assoc. reflexivity.
  - now rewrite noise_stops_app, Hn, Hn2.
Qed.

Lemma connect_noise_step (c : ConnectEnv) (w : App) :
  quiet_step w (connectToLiveAPI c w) \/ start_step w (connectToLiveAPI c w).
Proof.
  unfold connectToLiveAPI.
  destruct w as [? ? ? ? ? cf ac ic ? se pr so st bg ? ? ? ? jo tr].
  destruct (API_KEY c); [|left; quiet_crush].
  destruct bg as [n0|].
  - left. destruct (getUserMedia c), cf, ac, ic; quiet_crush.
  - destruct cf.
    + right. split; [reflexivity|].
      destruct (getUserMedia c), ac as [ctx|], ic; cbn;
        eexists; eexists; eexists;
        (repeat split; [now rewrite <- app_assoc | reflexivity]).
    + left. destruct (getUserMedia c), ac, ic; quiet_crush.
Qed.

Lemma then_quiet (j : Job) (w : App) : quiet_step w (then_ j w).
Proof. apply view_quiet, then_view. Qed.

Lemma disconnect_noise_step (w : App) :
  bgNoiseRef (disconnect w) = None.
Proof. now destruct (disconnect_released w) as (_ & _ & _ & _ & _ & _ & H & _). Qed.

(** Every handler is quiet, starts the noise, or leaves no source. *)
Lemma handle_noise_step (env : Env) (ev : Event) (w : App) :
  quiet_step w (handle env ev w) \/ start_step w (handle env ev w) \/
  bgNoiseRef (handle env ev w) = None.
Proof.
  destruct ev; cbn [handle].
  - destruct (connect_noise_step c w); auto.
  - left. unfold onopen. eapply quiet_trans; [|apply then_quiet].
    destruct w. cbn. split_ifs; quiet_crush.
  - left. unfold settle. split_ifs; try apply quiet_refl. quiet_crush.
  - unfold fail. split_ifs; try (left; apply quiet_refl).
    right; right. apply disconnect_noise_step.
  - left. unfold onaudioprocess. split_ifs; [apply quiet_refl|].
    eapply quiet_trans; [|apply then_quiet]. quiet_crush.
  - left. unfold onmessage.
    destruct (audioPart_cases now m w) as [E|[(d & b & _ & Hd & E)|E]];
      rewrite E.
    + apply toolPart_quiet.
    + eapply quiet_trans; [|apply toolPart_quiet].
      unfold schedule. destruct w. quiet_crush.
    + quiet_crush.
  - left. unfold ontick. destruct (intervals w); [apply quiet_refl | quiet_crush].
  - left. unfold onended. destruct w. cbn. split_ifs; quiet_crush.
  - right; right. unfold onclose. apply disconnect_noise_step.
  - right; right. unfold onerror. apply disconnect_noise_step.
  - right; right. apply disconnect_noise_step.
  - left. quiet_crush.
  - left. quiet_crush.
Qed.

Lemma step_noise_step (env : Env) (ev : Event) (w : App) :
  quiet_step w (step env w ev) \/ start_step w (step env w ev) \/
  bgNoiseRef (step env w ev) = None.
Proof.
  unfold step. destruct (handle_noise_step env ev w) as [H|[H|H]].
  - left. eapply quiet_trans; [exact H | apply drain_quiet].
  - right; left. eapply start_then_quiet; [exact H | apply drain_quiet].
  - right; right. now destruct (drain_refs (handle env ev w)) as (_ & _ & _ & -> & _).
Qed.

(** A noise source the component holds came out of the generator, was
    started, and no noise source was stopped since. *)
Lemma noise_invariant (env : Env) (evs : list Event) (n : NoiseSource) :
  bgNoiseRef (run env evs initial) = Some n ->
  (exists random ctx, n = makeBgNoise random ctx) /\
  running n (trace (run env evs initial)).
Proof.
  revert n. induction evs as [|ev evs IH] using rev_ind; intros n Hn.
  - discriminate.
  - rewrite run_snoc in *. set (w := run env evs initial) in *.
    destruct (step_noise_step env ev w)
      as [(Hb & t & Ht & Hq)|[(Hb & r & ctx & t & Hb' & Ht & Hq)|Hb]].
    + rewrite Hb in Hn. destruct (IH n Hn) as (Hg & t1 & t2 & E & Hs).
      split; [exact Hg|]. exists t1, (t2 ++ t).
      rewrite Ht, E, <- app_assoc. split; [reflexivity|].
      now rewrite noise_stops_app, Hs, Hq.
    + rewrite Hb' in Hn. injection Hn as <-. split; [now exists r, ctx|].
      exists (trace w), t. now split.
    + congruence.
Qed.

(** The generated loop holds two seconds of samples. *)
Lemma pinkNoise_length (random : nat -> Q) (n k : nat) (p : Pink) :
  List.length (pinkNoise random n k p) = n.
Proof.
  revert k p. induction n as [|n IH]; intros k p; [reflexivity|].
  cbn [pinkNoise]. cbv zeta.
  destruct (Qltb (random (S k)) 0.002); cbn [List.length]; now rewrite IH.
Qed.

Lemma makeBgNoise_spec (random : nat -> Q) (ctx : AudioContext) :
  loop (makeBgNoise random ctx) = true /\
  noiseGain (makeBgNoise random ctx) = 0.018 /\
  List.length (noiseBuffer (makeBgNoise random ctx))
  = Z.to_nat (2 * sampleRate ctx).
Proof.
  unfold makeBgNoise. cbn [loop noiseGain noiseBuffer].
  rewrite pinkNoise_length, Z.mul_comm. now repeat split.
Qed.

(** * The claims *)

(** C1.  Playback scheduler.  In every state the component reaches, a
    decodable audio chunk arriving at clock reading [now] is given the
    slot that starts at [max(now, nextAvailable)] and [nextAvailable]
    becomes that start plus the duration of the buffer; no event ever
    moves [nextAvailable] backwards; and of any two slots handed out, the
    earlier one has ended when the later one starts, so no two slots
    overlap and slot n+1 never starts before the end of slot n. *)
Theorem playback_slots_never_overlap (env : Env) (evs : list Event) :
  let w := run env evs initial in
  (forall now m d b,
      audioData m = Some d -> d <> ""%string ->
      decodeAudioData d (audioContextRef w) = Some b ->
      sched (step env w (EMessage now m))
      = (slots (trace w)
           ++ [{| slot_start := Qmax now (nextStartTimeRef w);
                  slot_duration := duration b |}],
         Qmax now (nextStartTimeRef w) + duration b)) /\
  (forall ev, nextStartTimeRef w <= nextStartTimeRef (step env w ev)) /\
  (forall i j a b,
      (i < j)%nat ->
      nth_error (slots (trace w)) i = Some a ->
      nth_error (slots (trace w)) j = Some b ->
      slot_end a <= slot_start b).
Proof.
  intros w. repeat split.
  - intros now m d b. apply message_slot.
  - intros ev.
    destruct (step_sched env ev w) as [E|(now & b & Hd & E)];
      unfold sched in E; injection E as _ ->.
    + apply Qle_refl.
    + apply Qle_trans with (Qmax now (nextStartTimeRef w)); [apply Q.le_max_r|].
      rewrite <- (Qplus_0_r (Qmax now (nextStartTimeRef w))) at 1.
      now apply Qplus_le_r.
  - intros i j a b Hij Ha Hb.
    destruct (schedule_invariant env evs) as [Hs _].
    exact (sorted_nth _ Hs i j a b Hij Ha Hb).
Qed.

Lemma playback_slots_never_overlap_witness :
  slot_end {| slot_start := 1; slot_duration := 6 # 24000 |}
  <= slot_start {| slot_start := 1 + (6 # 24000); slot_duration := 6 # 24000 |}.
Proof.
  apply (proj2 (proj2 (playback_slots_never_overlap env0
                         (opened ++ [EMessage 1 audio_message;
                                     EMessage 1 audio_message])))
           0%nat 1%nat); [lia | reflexivity | reflexivity].
Defined.



(** C3, as stated, fails: the sample [65535/65536] lies in [[-1, 1]], it
    is encoded to 32766 and decoded to [32766/32768], which is
    [3/65536] away, more than [1/32768]. *)
Lemma codec_roundtrip_counterexample :
  let s := [65535 # 65536] in
  Forall (fun x => -1 <= x <= 1) s /\
  exists b,
    decodeAudioData (data (createAudioData s)) (Some {| sampleRate := 24000 |})
    = Some b /\
    ~ Forall2 (fun x y => Qabs (x - y) <= 1 / 32768) s (channelData b).
Proof.
  split.
  - repeat constructor; unfold Qle; cbn; lia.
  - eexists. split; [reflexivity|]. intros H. inversion_clear H as [|? ? ? ? Hb _].
    vm_compute in Hb. now apply Hb.
Qed.

(** C3, amended.  For every non-empty sequence of samples of [[-1, 1]],
    decoding the encoded sequence succeeds and gives one sample per
    sample, each within less than [2/32768] of the original, and within
    less than [1/32768] when the original is not positive. *)
Theorem codec_roundtrip_within_two_steps (s : list Q) (ctx : AudioContext) :
  s <> [] -> Forall (fun x => -1 <= x <= 1) s ->
  exists b,
    decodeAudioData (data (createAudioData s)) (Some ctx) = Some b /\
    Forall2 (fun x y => Qabs (x - y) < 2 / 32768 /\
                        (x <= 0 -> Qabs (x - y) < 1 / 32768))
            s (channelData b).
Proof.
  intros Hne HF. rewrite decode_createAudioData.
  destruct s as [|x s]; [contradiction|].
  eexists. split; [reflexivity|]. cbn [channelData]. clear Hne.
  induction HF as [|y l Hy _ IH]; cbn [map]; constructor.
  - apply pcm16_bound, Hy.
  - exact IH.
Qed.

Lemma codec_roundtrip_within_two_steps_witness :
  exists b,
    decodeAudioData (data (createAudioData [65535 # 65536; -(1 # 3)]))
      (Some {| sampleRate := 24000 |}) = Some b /\
    Forall2 (fun x y => Qabs (x - y) < 2 / 32768 /\
                        (x <= 0 -> Qabs (x - y) < 1 / 32768))
            [65535 # 65536; -(1 # 3)] (channelData b).
Proof.
  apply (codec_roundtrip_within_two_steps [65535 # 65536; -(1 # 3)]).
  - discriminate.
  - repeat constructor; unfold Qle; cbn; lia.
Defined.



(** C5, as stated, fails: with a buffer playing the component is in
    [SPEAKING], and a message with a batch of tool calls puts it in
    [THINKING]. *)
Lemma tool_call_leaves_speaking :
  let w := run env0 (opened ++ [EMessage 0 audio_message]) initial in
  mode w = SPEAKING /\
  toolCall tool_message = Some [unknown_call; image_call] /\
  mode (step env0 w (EMessage 0 tool_message)) <> SPEAKING.
Proof. repeat split. discriminate. Qed.

(** C5, amended.  From any state, [SPEAKING] included, a message that
    carries a batch of tool calls, and whose audio part, if any, decodes,
    leaves the component in [THINKING]. *)
Theorem tool_call_sets_thinking (env : Env) (now : Q) (m : LiveServerMessage)
  (w : App) (calls : list FunctionCall.t) :
  audio_ok m w = true -> toolCall m = Some calls ->
  mode (step env w (EMessage now m)) = THINKING.
Proof.
  intros Hok Hc.
  destruct (audioPart_ok now m w Hok) as (wa & Ea & _).
  unfold step. rewrite drain_mode. cbn [handle]. unfold onmessage.
  rewrite Ea. unfold toolPart. rewrite Hc. apply runTools_mode.
Qed.

Lemma tool_call_sets_thinking_witness :
  mode (step env0 (run env0 (opened ++ [EMessage 0 audio_message]) initial)
             (EMessage 0 tool_message))
  = THINKING.
Proof.
  apply (tool_call_sets_thinking env0 0 tool_message _ [unknown_call; image_call]);
    reflexivity.
Defined.

(** C6.  Teardown order.  In every state the component reaches, an event
    that disconnects (the user's disconnect, a close or an error of the
    transport) has these effects and no others, in this order: the capture
    callback is detached and the processor disconnected, the microphone
    source is disconnected, the tracks of the stream are stopped, the noise
    source is stopped, the output context is closed, and last the session
    is closed; each step is taken when its resource is held, and
    afterwards none of the resources is held. *)
Theorem teardown_order (env : Env) (evs : list Event) (ev : Event) :
  closes ev = true ->
  let w := run env evs initial in
  trace (step env w ev)
  = trace w
    ++ (if isSome (processorRef w)
        then [CaptureDetach; ProcessorDisconnect] else [])
    ++ (if isSome (sourceRef w) then [MicSourceDisconnect] else [])
    ++ match streamRef w with
       | Some s => repeat TrackStop (tracks s)
       | None => []
       end
    ++ (if isSome (bgNoiseRef w) then [NoiseStop] else [])
    ++ (if isSome (audioContextRef w) then [ContextClose] else [])
    ++ match sessionRef w with
       | Some p => match pstate p with Fulfilled => [SessionClose] | _ => [] end
       | None => []
       end /\
  processorRef (step env w ev) = None /\
  sourceRef (step env w ev) = None /\
  streamRef (step env w ev) = None /\
  bgNoiseRef (step env w ev) = None /\
  audioContextRef (step env w ev) = None.
Proof.
  intros Hc w.
  destruct (closes_disconnect env ev w Hc) as (w0 & E & Hv & Hs & Hj).
  unfold step. rewrite E. split.
  - rewrite disconnect_trace by (rewrite Hj; apply run_quiescent).
    rewrite (view_trace _ _ Hv). unfold teardown, teardown_close.
    rewrite (view_teardown_sync _ _ Hv), Hs. unfold teardown_sync.
    now rewrite <- !app_assoc.
  - destruct (drain_refs (disconnect w0)) as (-> & -> & -> & -> & ->).
    destruct (disconnect_released w0)
      as (_ & _ & _ & Hp & Hso & Hst & Hbg & Hac).
    exact (conj Hp (conj Hso (conj Hst (conj Hbg Hac)))).
Qed.

Lemma teardown_order_witness :
  trace (step env0 (run env0 opened initial) EDisconnect)
  = trace (run env0 opened initial)
    ++ [CaptureDetach; ProcessorDisconnect; MicSourceDisconnect; TrackStop;
        NoiseStop; ContextClose; SessionClose].
Proof.
  exact (proj1 (teardown_order env0 opened EDisconnect eq_refl)).
Defined.

(** The flag the audio branch reads is the setting as it was when the
    session was connected; switching the setting later does not reach a
    running session. *)
Lemma connect_captures_filter (c : ConnectEnv) (w : App) :
  API_KEY c = true -> callFilter (connectToLiveAPI c w) = callFilterEnabled w.
Proof.
  intros Hk. unfold connectToLiveAPI. rewrite Hk.
  destruct w as [? ? ? ? ? cf ac ic ? se pr so st bg ? ? ? ? jo tr].
  now destruct cf, ac, ic, bg, (getUserMedia c).
Qed.

Lemma toggle_keeps_captured_filter (env : Env) (w : App) :
  callFilter (step env w EToggleFilter) = callFilter w /\
  callFilterEnabled (step env w EToggleFilter) = negb (callFilterEnabled w).
Proof. unfold step. rewrite drain_spec. now split. Qed.






(** C9, as stated, fails: while a buffer plays, a tick of the volume
    interval that reads sixteen bins at full scale publishes the volume
    8. *)
Lemma output_volume_exceeds_one :
  let w := run env0 (opened ++ [EMessage 0 audio_message; ETick loud]) initial in
  volume w = 8%R /\ ~ (0 <= volume w <= 1)%R.
Proof.
  assert (volume (run env0 (opened ++ [EMessage 0 audio_message; ETick loud])
                      initial) = 8%R) as E.
  { change (Q2R (outputVolume loud) = 8%R).
    rewrite (Qeq_eqR (outputVolume loud) 8) by reflexivity.
    unfold Q2R. cbn [Qnum Qden]. Lra.lra. }
  cbv zeta. rewrite E. split; [reflexivity | Lra.lra].
Qed.

(** C9, amended.  A volume published from a capture frame is the root
    mean square of the frame, a scalar of [[0, 1]] for a non-empty frame
    of samples of [[-1, 1]]; a volume published from the analysis of the
    output is eight times the mean bin magnitude over 255, a scalar of
    [[0, 8]]. *)
Theorem volume_sample_bounds (env : Env) (w : App) :
  (forall inputData,
      processorRef w <> None -> inputData <> [] ->
      Forall (fun x => -1 <= x <= 1) inputData ->
      volume (step env w (EAudioProcess inputData)) = rms inputData /\
      (0 <= volume (step env w (EAudioProcess inputData)) <= 1)%R) /\
  (forall data,
      intervals w <> 0%nat -> data <> [] ->
      volume (step env w (ETick data)) = Q2R (outputVolume data) /\
      (0 <= volume (step env w (ETick data)) <= 8)%R).
Proof.
  split.
  - intros d Hp Hne HF. rewrite (capture_volume env d w Hp).
    split; [reflexivity | now apply rms_bounds].
  - intros data Hi Hne. rewrite (tick_volume env data w Hi).
    split; [reflexivity|].
    destruct (outputVolume_bounds data Hne) as [H0 H1].
    apply Qle_Rle in H0, H1.
    replace (Q2R 0) with 0%R in H0 by (unfold Q2R; cbn; Lra.lra).
    replace (Q2R 8) with 8%R in H1 by (unfold Q2R; cbn; Lra.lra).
    now split.
Qed.

Lemma volume_sample_bounds_witness :
  (0 <= volume (step env0 (run env0 opened initial)
                     (EAudioProcess [1 # 2; -(1 # 2)]%Q)) <= 1)%R /\
  (0 <= volume (step env0 (run env0 (opened ++ [EMessage 0 audio_message]) initial)
                     (ETick loud)) <= 8)%R.
Proof.
  split.
  - apply (proj1 (volume_sample_bounds env0 (run env0 opened initial))
             [1 # 2; -(1 # 2)]).
    + discriminate.
    + discriminate.
    + repeat constructor; unfold Qle; cbn; lia.
  - apply (proj2 (volume_sample_bounds env0
                    (run env0 (opened ++ [EMessage 0 audio_message]) initial))
             loud); discriminate.
Defined.



(** * Further properties *)

(** ** The codec, sample by sample *)

Lemma Qtrunc_nonneg (q : Q) : 0 <= q -> Qtrunc q = Qfloor q.
Proof.
  destruct q as [n d]. unfold Qle, Qtrunc, Qfloor. cbn. intros H.
  apply Z.quot_div_nonneg; lia.
Qed.

Lemma Qtrunc_nonpos (q : Q) : q <= 0 -> Qtrunc q = Qceiling q.
Proof.
  destruct q as [n d]. unfold Qle, Qtrunc, Qceiling, Qfloor. cbn. intros H.
  replace n with (- - n)%Z at 1 by lia.
  rewrite Z.quot_opp_l by lia. f_equal.
  apply Z.quot_div_nonneg; lia.
Qed.

Lemma Qfloor_unique (q : Q) (k : Z) :
  inject_Z k <= q -> q < inject_Z (k + 1) -> Qfloor q = k.
Proof.
  intros H1 H2.
  pose proof (Qfloor_resp_le _ _ H1) as L. rewrite Qfloor_Z in L.
  pose proof (Qfloor_le q) as U.
  assert (inject_Z (Qfloor q) < inject_Z (k + 1)) as U' by (eapply Qle_lt_trans; eauto).
  rewrite <- Zlt_Qlt in U'. lia.
Qed.

Lemma Qltb_spec (x y : Q) : Qltb x y = true <-> x < y.
Proof.
  unfold Qltb. rewrite negb_true_iff. split.
  - intros H. apply Qnot_le_lt. intros L. apply Qle_bool_iff in L. congruence.
  - intros H. destruct (Qle_bool y x) eqn:E; [|reflexivity].
    apply Qle_bool_iff in E. exfalso. eapply Qlt_not_le; eauto.
Qed.

Lemma Qltb_false (x y : Q) : Qltb x y = false <-> y <= x.
Proof.
  unfold Qltb. rewrite negb_false_iff. apply Qle_bool_iff.
Qed.

Lemma over_32768 (q : Q) : q / 32768 = q * (1 # 32768).
Proof. reflexivity. Qed.

Lemma clamp_range (x : Q) : -1 <= clamp x <= 1.
Proof.
  unfold clamp. split.
  - apply Q.le_max_l.
  - apply Q.max_lub; [discriminate | apply Q.le_min_l].
Qed.

Lemma clamp_mono (x y : Q) : x <= y -> clamp x <= clamp y.
Proof.
  intros H. unfold clamp. apply Q.max_le_compat_l, Q.min_le_compat_l, H.
Qed.

(** The integer the loop stores for a clamped sample [s]: rounded toward
    zero, and within the range of sixteen bits, so that nothing wraps. *)
Lemma stored_spec (s : Q) :
  -1 <= s <= 1 ->
  ToInt16 (Qtrunc (if Qltb s 0 then s * 0x8000 else s * 0x7FFF))
  = (if Qltb s 0 then Qceiling (s * 32768) else Qfloor (s * 32767)) /\
  (-32768 <= (if Qltb s 0 then Qceiling (s * 32768) else Qfloor (s * 32767))
   <= 32767)%Z.
Proof.
  intros [Hl Hu]. destruct (Qltb s 0) eqn:E.
  - apply Qltb_spec in E.
    assert (s * 32768 <= 0) as H0 by lra.
    assert (inject_Z (-32768) <= s * 32768) as H1
        by (change (inject_Z (-32768)) with (-32768 # 1); lra).
    pose proof (Qceiling_resp_le _ _ H1) as L. rewrite Qceiling_Z in L.
    pose proof (Qceiling_resp_le _ _ H0) as U.
    change 0 with (inject_Z 0) in U. rewrite Qceiling_Z in U.
    change (s * 0x8000) with (s * 32768).
    rewrite Qtrunc_nonpos by exact H0.
    split; [apply ToInt16_small|]; lia.
  - apply Qltb_false in E.
    assert (0 <= s * 32767) as H0 by lra.
    assert (s * 32767 <= inject_Z 32767) as H1
        by (change (inject_Z 32767) with (32767 # 1); lra).
    pose proof (Qfloor_resp_le _ _ H1) as U. rewrite Qfloor_Z in U.
    pose proof (Qfloor_resp_le _ _ H0) as L.
    change 0 with (inject_Z 0) in L. rewrite Qfloor_Z in L.
    change (s * 0x7FFF) with (s * 32767).
    rewrite Qtrunc_nonneg by exact H0.
    split; [apply ToInt16_small|]; lia.
Qed.

Lemma pcm16_spec (x : Q) :
  pcm16 x = (if Qltb (clamp x) 0 then Qceiling (clamp x * 32768)
             else Qfloor (clamp x * 32767)) /\
  (-32768 <= pcm16 x <= 32767)%Z.
Proof.
  unfold pcm16. cbv zeta.
  destruct (stored_spec (clamp x) (clamp_range x)) as [E R].
  rewrite E. split; [reflexivity | exact R].
Qed.

(** X1.  The encoder saturates instead of wrapping.  Whatever the sample,
    the 16-bit value [createAudioData] stores lies between -32768 and 32767;
    samples at or above 1 are stored as 32767, samples at or below -1 as
    -32768, and 0 as 0. *)
Theorem pcm16_saturates (x : Q) :
  (-32768 <= pcm16 x <= 32767)%Z /\
  (1 <= x -> pcm16 x = 32767%Z) /\
  (x <= -1 -> pcm16 x = (-32768)%Z) /\
  (x == 0 -> pcm16 x = 0%Z).
Proof.
  destruct (pcm16_spec x) as [E R]. split; [exact R|].
  split; [|split]; intros H; rewrite E.
  - assert (clamp x == 1) as C.
    { unfold clamp. rewrite (Q.min_l 1 x H). now apply Q.max_r. }
    rewrite (proj2 (Qltb_false (clamp x) 0)) by (rewrite C; discriminate).
    rewrite (Qfloor_comp (clamp x * 32767) (inject_Z 32767)).
    + apply Qfloor_Z.
    + rewrite C. reflexivity.
  - assert (clamp x == -1) as C.
    { unfold clamp. apply Q.max_l. eapply Qle_trans; [apply Q.le_min_r | exact H]. }
    rewrite (proj2 (Qltb_spec (clamp x) 0)) by (rewrite C; reflexivity).
    rewrite (Qceiling_comp (clamp x * 32768) (inject_Z (-32768))).
    + apply Qceiling_Z.
    + rewrite C. reflexivity.
  - assert (clamp x == 0) as C.
    { unfold clamp. rewrite H. reflexivity. }
    rewrite (proj2 (Qltb_false (clamp x) 0)) by (rewrite C; discriminate).
    rewrite (Qfloor_comp (clamp x * 32767) (inject_Z 0)).
    + apply Qfloor_Z.
    + rewrite C. reflexivity.
Qed.

Lemma pcm16_saturates_witness :
  pcm16 (7 # 2) = 32767%Z /\ pcm16 (-(7 # 2)) = (-32768)%Z /\ pcm16 (0 # 5) = 0%Z.
Proof.
  split; [|split].
  - apply (proj1 (proj2 (pcm16_saturates (7 # 2)))). discriminate.
  - apply (proj1 (proj2 (proj2 (pcm16_saturates (-(7 # 2)))))). discriminate.
  - apply (proj2 (proj2 (proj2 (pcm16_saturates (0 # 5))))). reflexivity.
Defined.

(** X2.  The encoder keeps the order of samples: a sample that is not
    larger is stored as a 16-bit value that is not larger. *)
Theorem pcm16_monotone (x y : Q) : x <= y -> (pcm16 x <= pcm16 y)%Z.
Proof.
  intros H. apply clamp_mono in H.
  destruct (pcm16_spec x) as [Ex Rx], (pcm16_spec y) as [Ey Ry].
  destruct (clamp_range x) as [Lx Ux], (clamp_range y) as [Ly Uy].
  rewrite Ex, Ey.
  destruct (Qltb (clamp x) 0) eqn:Bx, (Qltb (clamp y) 0) eqn:By.
  - apply Qceiling_resp_le. lra.
  - apply Qltb_spec in Bx. apply Qltb_false in By.
    assert (clamp x * 32768 <= inject_Z 0) as H0
        by (change (inject_Z 0) with 0; lra).
    assert (inject_Z 0 <= clamp y * 32767) as H1
        by (change (inject_Z 0) with 0; lra).
    apply Qceiling_resp_le in H0. apply Qfloor_resp_le in H1.
    rewrite Qceiling_Z in H0. rewrite Qfloor_Z in H1. lia.
  - apply Qltb_false in Bx. apply Qltb_spec in By. exfalso. lra.
  - apply Qfloor_resp_le. lra.
Qed.

Lemma pcm16_monotone_witness : (pcm16 (-(1 # 3)) <= pcm16 (2 # 3))%Z.
Proof. apply (pcm16_monotone (-(1 # 3)) (2 # 3)). discriminate. Defined.

(** X3.  Decoding and encoding again is not the identity.  A 16-bit value
    [z] decoded by [decodeAudioData] to [z / 32768] and encoded again by
    [createAudioData] comes back as [z] when it is zero or negative, and as
    [z - 1] when it is positive (negative samples are scaled by 32768,
    positive ones by 32767). *)
Theorem reencode_loses_one_step (z : Z) :
  (-32768 <= z <= 32767)%Z ->
  pcm16 (inject_Z z / 32768) = if (0 <? z)%Z then (z - 1)%Z else z.
Proof.
  intros Hz. destruct (pcm16_spec (inject_Z z / 32768)) as [E _]. rewrite E.
  assert (inject_Z (-32768) <= inject_Z z <= inject_Z 32767) as [H1 H2]
      by (rewrite <- !Zle_Qle; lia).
  change (inject_Z (-32768)) with (-32768 # 1) in H1.
  change (inject_Z 32767) with (32767 # 1) in H2.
  assert (-1 <= inject_Z z / 32768 <= 1) as Hr by (rewrite over_32768; lra).
  destruct (clamp_in _ Hr) as [C _].
  destruct (Z.ltb_spec 0 z) as [Hp|Hn].
  - assert (0 < inject_Z z) as P
        by (change 0 with (inject_Z 0); rewrite <- Zlt_Qlt; lia).
    rewrite (proj2 (Qltb_false (clamp (inject_Z z / 32768)) 0))
      by (rewrite C, over_32768; lra).
    apply Qfloor_unique; rewrite C, over_32768.
    + unfold Z.sub. rewrite inject_Z_plus.
      change (inject_Z (- (1))%Z) with (-1 # 1). lra.
    + replace (z - 1 + 1)%Z with z by lia. lra.
  - destruct (Z.eq_dec z 0) as [->|Hne].
    + reflexivity.
    + assert (inject_Z z < 0) as P
          by (change 0 with (inject_Z 0); rewrite <- Zlt_Qlt; lia).
      rewrite (proj2 (Qltb_spec (clamp (inject_Z z / 32768)) 0))
        by (rewrite C, over_32768; lra).
      rewrite (Qceiling_comp _ (inject_Z z)); [apply Qceiling_Z|].
      rewrite C, over_32768. lra.
Qed.

Lemma reencode_loses_one_step_witness :
  pcm16 (inject_Z 32767 / 32768) = 32766%Z /\
  pcm16 (inject_Z (-32768) / 32768) = (-32768)%Z.
Proof.
  split.
  - apply (reencode_loses_one_step 32767). lia.
  - apply (reencode_loses_one_step (-32768)). lia.
Defined.

Lemma int16_view_shape (bytes : list N) (l : list Z) :
  int16_view bytes = Some l ->
  List.length bytes = (2 * List.length l)%nat /\
  Forall (fun v => (-32768 <= v < 32768)%Z) l.
Proof.
  remember (List.length bytes) as n eqn:Hn.
  revert bytes l Hn. induction n as [n IH] using lt_wf_ind.
  intros [|lo [|hi rest]] l Hn H.
  - injection H as <-. subst n. split; [reflexivity | constructor].
  - discriminate.
  - cbn [int16_view] in H. destruct (int16_view rest) as [l'|] eqn:E;
      [|discriminate].
    injection H as <-. cbn [List.length] in Hn.
    destruct (IH (List.length rest) ltac:(lia) rest l' eq_refl E) as [L F].
    split.
    + subst n. cbn [List.length]. lia.
    + constructor; [apply ToInt16_range | exact F].
Qed.

Lemma length_list_ascii (s : string) :
  List.length (list_ascii_of_string s) = String.length s.
Proof. induction s as [|c s IH]; [reflexivity | cbn; now rewrite IH]. Qed.

(** X4.  What [decodeAudioData] returns.  A buffer that comes back always
    holds at least one sample, is created at 24000 Hz whatever the rate of
    the context, has one sample for every two bytes of the decoded payload,
    and every sample lies in [[-1, 1)]. *)
Theorem decoded_buffer_shape (base64 : string) (ctx : option AudioContext)
  (b : AudioBuffer) :
  decodeAudioData base64 ctx = Some b ->
  bufferRate b = 24000%Z /\
  channelData b <> [] /\
  Forall (fun s => -1 <= s /\ s < 1) (channelData b) /\
  exists binaryString,
    Base64.atob base64 = Some binaryString /\
    String.length binaryString = (2 * List.length (channelData b))%nat.
Proof.
  unfold decodeAudioData. intros H.
  destruct (Base64.atob base64) as [bin|] eqn:Ea; [|discriminate].
  destruct (int16_view (Base64.bytes_of_string bin)) as [l|] eqn:Ei;
    [|discriminate].
  destruct ctx as [c|]; [|discriminate].
  destruct l as [|v l]; [discriminate|]. injection H as <-.
  destruct (int16_view_shape _ _ Ei) as [L F]. cbn [bufferRate channelData].
  split; [reflexivity|]. split; [discriminate|]. split.
  - change (Forall (fun s => -1 <= s /\ s < 1)
              (map (fun v => inject_Z v / 32768) (v :: l))).
    apply Forall_map. eapply Forall_impl; [|exact F].
    intros z [Hl Hu]. cbv beta.
    assert (inject_Z (-32768) <= inject_Z z) as H1 by (rewrite <- Zle_Qle; lia).
    assert (inject_Z z < inject_Z 32768) as H2 by (rewrite <- Zlt_Qlt; lia).
    change (inject_Z (-32768)) with (-32768 # 1) in H1.
    change (inject_Z 32768) with (32768 # 1) in H2.
    rewrite over_32768. split; lra.
  - exists bin. split; [reflexivity|].
    unfold Base64.bytes_of_string in L.
    rewrite length_map, length_list_ascii in L. rewrite L.
    cbn [List.length]. now rewrite length_map.
Qed.

Lemma decoded_buffer_shape_witness :
  exists b,
    decodeAudioData chunk (Some {| sampleRate := 48000 |}) = Some b /\
    bufferRate b = 24000%Z /\ List.length (channelData b) = 6%nat.
Proof.
  eexists. split; [reflexivity|].
  split; [|reflexivity].
  apply (decoded_buffer_shape chunk (Some {| sampleRate := 48000 |})).
  reflexivity.
Defined.

(** X5.  Encoding and decoding, exactly.  Decoding the payload that
    [createAudioData] makes of a non-empty frame gives a buffer with one
    sample for each sample of the frame, namely its 16-bit value over 32768;
    the payload of the empty frame is the empty string, and decoding it
    throws. *)
Theorem encode_then_decode (d : list Q) (ctx : AudioContext) :
  (d <> [] ->
   exists b,
     decodeAudioData (data (createAudioData d)) (Some ctx) = Some b /\
     channelData b = map (fun x => inject_Z (pcm16 x) / 32768) d /\
     List.length (channelData b) = List.length d /\
     duration b == inject_Z (Z.of_nat (List.length d)) / 24000) /\
  data (createAudioData []) = ""%string /\
  decodeAudioData (data (createAudioData [])) (Some ctx) = None.
Proof.
  split; [|split; reflexivity].
  intros Hne. rewrite decode_createAudioData.
  destruct d as [|x d]; [contradiction|].
  eexists. split; [reflexivity|]. cbn [channelData].
  split; [reflexivity|]. split; [apply length_map|].
  unfold duration. cbn [channelData bufferRate]. rewrite length_map.
  reflexivity.
Qed.

Lemma encode_then_decode_witness :
  exists b,
    decodeAudioData (data (createAudioData [1 # 2; -(1 # 2)]))
      (Some {| sampleRate := 24000 |}) = Some b /\
    channelData b
    = map (fun x => inject_Z (pcm16 x) / 32768) [1 # 2; -(1 # 2)] /\
    List.length (channelData b) = 2%nat /\
    duration b == inject_Z 2 / 24000.
Proof.
  apply (proj1 (encode_then_decode [1 # 2; -(1 # 2)] {| sampleRate := 24000 |})).
  discriminate.
Defined.

(** ** The distortion curve *)

Lemma curve_point (i : nat) :
  (INR i * 2 / IZR n_samples - 1 = (INR i - 22050) / 22050)%R.
Proof. unfold n_samples. field. Qed.

Lemma INR_to_nat (z : Z) : (0 <= z)%Z -> INR (Z.to_nat z) = IZR z.
Proof. intros H. now rewrite INR_IZR_INZ, Z2Nat.id. Qed.



Lemma shaper_increasing (k c x y : R) :
  (0 <= k)%R -> (0 < c)%R -> (x < y)%R ->
  (c * x / (PI + k * Rabs x) < c * y / (PI + k * Rabs y))%R.
Proof.
  intros Hk Hc Hxy.
  pose proof PI_RGT_0 as Hpi.
  pose proof (Rabs_pos x) as Ax. pose proof (Rabs_pos y) as Ay.
  assert (0 < PI + k * Rabs x)%R as Dx by Lra.nra.
  assert (0 < PI + k * Rabs y)%R as Dy by Lra.nra.
  apply Rmult_lt_reg_r with (r := ((PI + k * Rabs x) * (PI + k * Rabs y))%R);
    [Lra.nra|].
  replace (c * x / (PI + k * Rabs x) * ((PI + k * Rabs x) * (PI + k * Rabs y)))%R
    with (c * (x * (PI + k * Rabs y)))%R by (field; Lra.lra).
  replace (c * y / (PI + k * Rabs y) * ((PI + k * Rabs x) * (PI + k * Rabs y)))%R
    with (c * (y * (PI + k * Rabs x)))%R by (field; Lra.lra).
  apply Rmult_lt_compat_l; [exact Hc|].
  assert (x * Rabs y <= y * Rabs x)%R as M.
  { unfold Rabs. destruct (Rcase_abs x), (Rcase_abs y); Lra.nra. }
  Lra.nra.
Qed.



(** ** The noise bed *)

Lemma pinkNoise_within (random : nat -> Q) (n k : nat) (p : Pink) :
  (forall i, 0 <= random i /\ random i < 1) -> pink_within p ->
  Forall (fun s => -8 <= s /\ s <= 8) (pinkNoise random n k p).
Proof.
  intros Hr. revert k p. induction n as [|n IH]; intros k p Hp; [constructor|].
  destruct Hp as ([? ?] & [? ?] & [? ?] & [? ?] & [? ?] & [? ?] & [? ?]).
  pose proof (Hr k) as [? ?]. pose proof (Hr (S (S k))) as [? ?].
  cbn [pinkNoise]. cbv zeta.
  set (white := random k * 2 - 1) in *.
  assert (-1 <= white /\ white <= 1) as [? ?] by (subst white; split; lra).
  clearbody white.
  match goal with
  | |- context [if ?c then _ else _] => destruct c
  end;
    (constructor;
     [ split; lra
     | apply IH; unfold pink_within; cbn [b0 b1 b2 b3 b4 b5 b6];
       repeat split; lra ]).
Qed.

(** X8.  The noise bed stays small.  With [Math.random()] in [[0, 1)],
    every sample of the generated noise buffer, crackle included, lies
    within -8 .. 8, so that behind its gain of 0.018 the noise bed never
    exceeds 0.144 of full scale. *)
Theorem noise_bed_amplitude (random : nat -> Q) (ctx : AudioContext) :
  (forall i, 0 <= random i /\ random i < 1) ->
  Forall (fun s => -8 <= s /\ s <= 8 /\
                   -(0.144) <= s * noiseGain (makeBgNoise random ctx) /\
                   s * noiseGain (makeBgNoise random ctx) <= 0.144)
         (noiseBuffer (makeBgNoise random ctx)).
Proof.
  intros Hr. unfold makeBgNoise. cbn [noiseBuffer noiseGain].
  eapply Forall_impl; [|apply (pinkNoise_within random _ 0 pink0 Hr)].
  - intros s [? ?]. repeat split; lra.
  - unfold pink_within. cbn. repeat split; discriminate.
Qed.

Lemma noise_bed_amplitude_witness :
  Forall (fun s => -8 <= s /\ s <= 8 /\
                   -(0.144) <= s * noiseGain (makeBgNoise (fun _ => 1 # 2)
                                                {| sampleRate := 24000 |}) /\
                   s * noiseGain (makeBgNoise (fun _ => 1 # 2)
                                    {| sampleRate := 24000 |}) <= 0.144)
         (noiseBuffer (makeBgNoise (fun _ => 1 # 2) {| sampleRate := 24000 |})).
Proof.
  apply (noise_bed_amplitude (fun _ => 1 # 2) {| sampleRate := 24000 |}).
  intros _. split; [discriminate | reflexivity].
Defined.

(** ** The scheduler across events *)

Lemma quiet_sched (env : Env) (ev : Event) (w : App) :
  is_message ev = false -> sched (step env w ev) = sched w.
Proof.
  intros Hm. unfold step. rewrite drain_sched.
  destruct ev; try discriminate; cbn [handle].
  - apply connect_sched.
  - apply onopen_sched.
  - apply settle_sched.
  - apply fail_sched.
  - apply onaudioprocess_sched.
  - unfold ontick. now destruct (intervals w).
  - unfold onended. destruct w. cbn. split_ifs; sched_crush.
  - unfold onclose. now rewrite disconnect_sched.
  - unfold onerror. now rewrite disconnect_sched.
  - apply disconnect_sched.
  - reflexivity.
  - reflexivity.
Qed.

(** X9.  Only inbound audio moves the schedule.  Over any run of events
    without an inbound message, [nextStartTimeRef] and the slots handed out
    stay as they were: connecting, opening, capturing, ending a buffer and
    tearing down never write them.  In particular a teardown followed by a
    new connection starts from the [nextStartTimeRef] of the old session. *)
Theorem schedule_moves_only_on_messages (env : Env) (evs : list Event) (w : App) :
  forallb (fun ev => negb (is_message ev)) evs = true ->
  nextStartTimeRef (run env evs w) = nextStartTimeRef w /\
  slots (trace (run env evs w)) = slots (trace w).
Proof.
  intros Hf.
  assert (sched (run env evs w) = sched w) as H.
  { revert w. induction evs as [|ev evs IH]; intros w; [reflexivity|].
    cbn [forallb] in Hf. apply andb_true_iff in Hf as [He Hf].
    apply negb_true_iff in He. cbn [run fold_left].
    change (sched (run env evs (step env w ev)) = sched w).
    rewrite (IH Hf). now apply quiet_sched. }
  unfold sched in H. now injection H as -> ->.
Qed.

Lemma schedule_moves_only_on_messages_witness :
  nextStartTimeRef
    (run env0 [EDisconnect; EConnect mic_granted; EOpen 0; EResolved]
         (run env0 (opened ++ [EMessage 0 audio_message]) initial))
  = nextStartTimeRef (run env0 (opened ++ [EMessage 0 audio_message]) initial).
Proof.
  apply (schedule_moves_only_on_messages env0
           [EDisconnect; EConnect mic_granted; EOpen 0; EResolved]
           (run env0 (opened ++ [EMessage 0 audio_message]) initial)).
  reflexivity.
Defined.

Lemma view_audioContextRef (w w' : App) :
  view w' = view w -> audioContextRef w' = audioContextRef w.
Proof.
  intros H. change (audioContextRef (view w') = audioContextRef (view w)).
  now rewrite H.
Qed.

Lemma toolPart_audioContextRef (env : Env) (m : LiveServerMessage) (w : App) :
  audioContextRef (toolPart env m w) = audioContextRef w.
Proof.
  unfold toolPart, runTools. destruct (toolCall m); [|reflexivity].
  now rewrite (view_audioContextRef _ _ (tools_view env l _)).
Qed.

Lemma message_audioContextRef (env : Env) (now : Q) (m : LiveServerMessage)
  (w : App) :
  audioContextRef (step env w (EMessage now m)) = audioContextRef w.
Proof.
  unfold step. destruct (drain_refs (handle env (EMessage now m) w))
    as (_ & _ & _ & _ & ->).
  cbn [handle]. unfold onmessage.
  destruct (audioPart_cases now m w) as [E|[(d & b & _ & Hd & E)|E]];
    rewrite E; rewrite ?toolPart_audioContextRef; reflexivity.
Qed.

Lemma Qmax_late (now next : Q) : now < next -> Qmax now next = next.
Proof.
  intros H. unfold Qmax, GenericMinMax.gmax.
  now rewrite (proj1 (Qlt_alt now next) H).
Qed.



(** ** Capture and the session promise *)

(** A capture frame on an open session: the volume is set and the frame is
    sent once the handler has returned. *)
Lemma capture_step_open (env : Env) (d : list Q) (w : App) (p : SessionPromise) :
  sessionRef w = Some p -> pstate p = Fulfilled -> jobs w = [] ->
  processorRef w <> None ->
  step env w (EAudioProcess d)
  = emit (SendRealtimeInput (createAudioData d)) (setVolume (rms d) w).
Proof.
  intros Hs Hp Hj Hpr. unfold step. cbn [handle]. unfold onaudioprocess.
  destruct (processorRef w) as [pr|] eqn:Epr; [|contradiction]. cbn [isSome negb].
  unfold then_. cbn [sessionRef setVolume]. rewrite Hs, Hp.
  rewrite drain_spec. destruct w. cbn in *. subst. reflexivity.
Qed.

(** X11.  Frames leave in the order they were captured.  On an open
    session with capture attached, a run of capture frames adds to the calls
    made on outside objects exactly one [sendRealtimeInput] per frame, in
    capture order, each carrying the [createAudioData] encoding of its
    frame. *)
Theorem frames_sent_in_capture_order (env : Env) (ds : list (list Q)) (w : App)
  (p : SessionPromise) :
  sessionRef w = Some p -> pstate p = Fulfilled -> jobs w = [] ->
  processorRef w <> None ->
  trace (run env (map EAudioProcess ds) w)
  = trace w ++ map (fun d => SendRealtimeInput (createAudioData d)) ds.
Proof.
  revert w. induction ds as [|d ds IH]; intros w Hs Hp Hj Hpr.
  - cbn. now rewrite app_nil_r.
  - change (run env (map EAudioProcess (d :: ds)) w)
      with (run env (map EAudioProcess ds) (step env w (EAudioProcess d))).
    rewrite (capture_step_open env d w p Hs Hp Hj Hpr).
    rewrite IH; try assumption.
    cbn [emit trace set_trace setVolume map]. now rewrite <- app_assoc.
Qed.

Lemma frames_sent_in_capture_order_witness :
  trace (run env0 (map EAudioProcess [[1 # 2]; [-(1 # 2)]])
             (run env0 opened initial))
  = trace (run env0 opened initial)
    ++ map (fun d => SendRealtimeInput (createAudioData d)) [[1 # 2]; [-(1 # 2)]].
Proof.
  apply (frames_sent_in_capture_order env0 [[1 # 2]; [-(1 # 2)]]
           (run env0 opened initial) {| pstate := Fulfilled; reactions := [] |});
    try reflexivity.
  discriminate.
Defined.

(** Capture frames while the session promise is pending: each frame waits
    among the reactions of the promise. *)
Lemma capture_run_pending (env : Env) (ds : list (list Q)) (w : App)
  (rs : list Job) :
  sessionRef w = Some {| pstate := Pending; reactions := rs |} ->
  jobs w = [] -> processorRef w <> None ->
  let w' := run env (map EAudioProcess ds) w in
  sessionRef w'
  = Some {| pstate := Pending;
            reactions := rs ++ map (fun d => JRealtimeInput (createAudioData d)) ds |} /\
  jobs w' = [] /\ trace w' = trace w /\ processorRef w' = processorRef w.
Proof.
  cbv zeta. revert w rs. induction ds as [|d ds IH]; intros w rs Hs Hj Hpr.
  - cbn. now rewrite app_nil_r.
  - change (run env (map EAudioProcess (d :: ds)) w)
      with (run env (map EAudioProcess ds) (step env w (EAudioProcess d))).
    assert (step env w (EAudioProcess d)
            = set_sessionRef
                (Some {| pstate := Pending;
                         reactions := rs ++ [JRealtimeInput (createAudioData d)] |})
                (setVolume (rms d) w)) as E.
    { unfold step. cbn [handle]. unfold onaudioprocess.
      destruct (processorRef w) as [pr|] eqn:Epr; [|contradiction].
      cbn [isSome negb]. unfold then_. cbn [sessionRef setVolume]. rewrite Hs.
      cbn [pstate reactions]. rewrite drain_spec.
      destruct w. cbn in *. subst. cbn. now rewrite app_nil_r. }
    rewrite E.
    destruct (IH (set_sessionRef
                    (Some {| pstate := Pending;
                             reactions := rs ++ [JRealtimeInput (createAudioData d)] |})
                    (setVolume (rms d) w))
                 (rs ++ [JRealtimeInput (createAudioData d)]))
      as (H1 & H2 & H3 & H4); [reflexivity | exact Hj | exact Hpr |].
    rewrite H1, H2, H3, H4. cbn [map]. rewrite <- app_assoc. now repeat split.
Qed.

(** X12.  Nothing reaches the session before it resolves, and the greeting
    goes first.  When the socket opens while the session promise is still
    pending, the greeting and every frame captured before the promise
    fulfils are held back: until then the only call made is the attachment of
    the capture graph.  On fulfilment the greeting is sent first, then the
    frames in capture order. *)
Theorem queued_until_resolved (env : Env) (r : Q) (ds : list (list Q)) (w : App)
  (s : MediaStream) (ic : AudioContext) :
  sessionRef w = Some {| pstate := Pending; reactions := [] |} ->
  jobs w = [] -> stream w = Some s -> inputContextRef w = Some ic ->
  trace (run env (EOpen r :: map EAudioProcess ds) w)
  = trace w ++ [CaptureAttach] /\
  trace (run env (EOpen r :: map EAudioProcess ds ++ [EResolved]) w)
  = trace w ++ CaptureAttach :: SendClientContent (greeting r)
      :: map (fun d => SendRealtimeInput (createAudioData d)) ds.
Proof.
  intros Hs Hj Hst Hic.
  assert (step env w (EOpen r)
          = set_sessionRef
              (Some {| pstate := Pending; reactions := [JGreeting (greeting r)] |})
              (set_processorRef (Some {| bufferSize := 4096 |})
                 (set_sourceRef (Some {| mediaStream := s |})
                    (emit CaptureAttach (addLog system "Connected!" w))))) as E.
  { unfold step. cbn [handle]. unfold onopen.
    cbn [stream inputContextRef addLog setLogs]. rewrite Hst, Hic.
    unfold then_. cbn [sessionRef set_processorRef set_sourceRef emit set_trace
                       addLog setLogs]. rewrite Hs. cbn [pstate reactions].
    rewrite drain_spec. destruct w. cbn in *. subst. cbn.
    now rewrite app_nil_r. }
  set (w1 := step env w (EOpen r)) in *.
  destruct (capture_run_pending env ds w1 [JGreeting (greeting r)])
    as (H1 & H2 & H3 & H4);
    [now rewrite E | now rewrite E | rewrite E; discriminate |].
  split.
  - change (run env (EOpen r :: map EAudioProcess ds) w)
      with (run env (map EAudioProcess ds) w1).
    rewrite H3, E. reflexivity.
  - change (run env (EOpen r :: map EAudioProcess ds ++ [EResolved]) w)
      with (run env (map EAudioProcess ds ++ [EResolved]) w1).
    rewrite run_snoc. set (w2 := run env (map EAudioProcess ds) w1) in *.
    unfold step. cbn [handle]. unfold settle. rewrite H1. cbn [pstate reactions].
    rewrite drain_spec.
    cbn [trace jobs processorRef set_jobs set_sessionRef set_trace].
    rewrite H2, H3, H4, E.
    cbn [trace processorRef set_sessionRef set_processorRef set_sourceRef emit
         set_trace addLog setLogs isSome app flat_map job_effects].
    rewrite <- app_assoc. cbn [app]. do 3 f_equal.
    clear. induction ds as [|d ds IH]; [reflexivity|].
    cbn [map flat_map job_effects app]. now rewrite IH.
Qed.

Lemma queued_until_resolved_witness :
  trace (run env0 (EOpen 0 :: map EAudioProcess [[1 # 2]] ++ [EResolved])
             (step env0 initial (EConnect mic_granted)))
  = trace (step env0 initial (EConnect mic_granted))
    ++ CaptureAttach :: SendClientContent (greeting 0)
       :: map (fun d => SendRealtimeInput (createAudioData d)) [[1 # 2]].
Proof.
  apply (queued_until_resolved env0 0 [[1 # 2]]
           (step env0 initial (EConnect mic_granted))
           {| tracks := 1 |} {| sampleRate := 16000 |});
    reflexivity.
Defined.

(** ** After a teardown *)

Lemma frames_nil_app (t u : list Effect) :
  frames u = [] -> frames (t ++ u) = frames t.
Proof. intros H. now rewrite frames_app, H, app_nil_r. Qed.

Lemma connect_idle (c : ConnectEnv) (w : App) :
  processorRef (connectToLiveAPI c w) = processorRef w /\
  frames (trace (connectToLiveAPI c w)) = frames (trace w).
Proof.
  unfold connectToLiveAPI.
  destruct (API_KEY c), (getUserMedia c), w as
    [? ? ? ? ? cf ac ic ? ? ? ? ? bg ? ? ? ? ? ?];
    cbn; destruct cf, ac, ic, bg; cbn; split; try reflexivity;
    rewrite <- ?app_assoc; apply frames_nil_app; reflexivity.
Qed.

Lemma capture_idle (w w' : App) :
  capture w' = capture w ->
  processorRef w' = processorRef w /\ frames (trace w') = frames (trace w).
Proof. unfold capture. intros H. now injection H as -> _ ->. Qed.

(** Without a processor, no event but the opening of a socket brings one,
    and no frame is sent. *)
Lemma handle_idle (env : Env) (ev : Event) (w : App) :
  is_open ev = false -> processorRef w = None ->
  processorRef (handle env ev w) = processorRef w /\
  frames (trace (handle env ev w)) = frames (trace w).
Proof.
  intros Ho Hp. destruct ev; try discriminate; cbn [handle].
  - apply connect_idle.
  - unfold settle. split_ifs; now split.
  - unfold fail. split_ifs; try now split.
    apply capture_idle. now rewrite disconnect_capture.
  - unfold onaudioprocess. rewrite Hp. now split.
  - apply capture_idle. unfold onmessage.
    destruct (audioPart_cases now m w) as [E|[(d & b & _ & Hd & E)|E]];
      rewrite E; try reflexivity;
      (unfold toolPart; destruct (toolCall m); rewrite ?runTools_capture;
       try reflexivity; unfold schedule; destruct w; capture_crush).
  - unfold ontick. now destruct (intervals w).
  - apply capture_idle. unfold onended. destruct w. cbn. split_ifs; capture_crush.
  - apply capture_idle. unfold onclose. now rewrite disconnect_capture.
  - apply capture_idle. unfold onerror. now rewrite disconnect_capture.
  - apply capture_idle. now apply disconnect_capture.
  - now split.
  - now split.
Qed.

Lemma drain_idle (w : App) :
  processorRef w = None ->
  processorRef (drain w) = None /\ frames (trace (drain w)) = frames (trace w).
Proof.
  intros Hp. rewrite drain_spec. cbn. rewrite Hp. cbn [isSome].
  now rewrite frames_app, frames_jobs_idle, app_nil_r.
Qed.

Lemma run_idle (env : Env) (evs : list Event) (w : App) :
  forallb (fun ev => negb (is_open ev)) evs = true -> processorRef w = None ->
  processorRef (run env evs w) = None /\
  frames (trace (run env evs w)) = frames (trace w).
Proof.
  revert w. induction evs as [|ev evs IH]; intros w Hf Hp; [now split|].
  cbn [forallb] in Hf. apply andb_true_iff in Hf as [He Hf].
  apply negb_true_iff in He.
  change (run env (ev :: evs) w) with (run env evs (step env w ev)).
  destruct (handle_idle env ev w He Hp) as [H1 H2].
  destruct (drain_idle (handle env ev w)) as [H3 H4]; [congruence|].
  destruct (IH (step env w ev) Hf H3) as [H5 H6].
  split; [exact H5|]. rewrite H6. unfold step. congruence.
Qed.

(** X13.  No frame leaves after a teardown.  Once [disconnect] has run
    (the user's disconnect, a close or an error of the socket), no audio
    frame is sent any more, whatever follows, until a socket opens again:
    frames still waiting in the job queue or among the reactions of a
    pending session promise are dropped when their turn comes. *)
Theorem no_frames_after_teardown (env : Env) (ev : Event) (evs : list Event)
  (w : App) :
  closes ev = true ->
  forallb (fun e => negb (is_open e)) evs = true ->
  frames (trace (run env evs (step env w ev))) = frames (trace w).
Proof.
  intros Hc Hf.
  destruct (closes_disconnect env ev w Hc) as (w0 & E & Hv & _ & _).
  assert (processorRef (handle env ev w) = None) as Hp.
  { rewrite E. now destruct (disconnect_released w0) as (_ & _ & _ & -> & _). }
  destruct (drain_idle _ Hp) as [H1 H2].
  destruct (run_idle env evs (step env w ev) Hf H1) as [_ H3].
  rewrite H3. unfold step. rewrite H2, E, disconnect_effects.
  rewrite (view_trace _ _ Hv). apply frames_nil_app, frames_teardown_sync.
Qed.

Lemma no_frames_after_teardown_witness :
  frames (trace (run env0 [EAudioProcess [1 # 2]; EResolved; EAudioProcess [1 # 3]]
                     (step env0 (run env0 [EConnect mic_granted; EOpen 0;
                                           EAudioProcess [1 # 4]] initial)
                           EDisconnect)))
  = frames (trace (run env0 [EConnect mic_granted; EOpen 0;
                             EAudioProcess [1 # 4]] initial)).
Proof.
  apply (no_frames_after_teardown env0 EDisconnect
           [EAudioProcess [1 # 2]; EResolved; EAudioProcess [1 # 3]]);
    reflexivity.
Defined.

Lemma teardown_close_kept (w : App) :
  teardown_close (drain (disconnect w)) = teardown_close w.
Proof.
  unfold teardown_close. rewrite drain_spec.
  cbn [sessionRef set_trace set_jobs]. rewrite disconnect_spec. cbv zeta.
  cbn [sessionRef setVolume setMode setConnected set_audioContextRef
       set_bgNoiseRef set_streamRef set_sourceRef set_processorRef set_trace].
  unfold then_. destruct (sessionRef w) as [[[| |] rs]|] eqn:E; cbn;
    rewrite ?E; reflexivity.
Qed.

(** X14.  A second teardown releases nothing twice, but closes the session
    again.  [disconnect] clears every ref it releases except [sessionRef].
    So when a teardown follows a teardown (as when the socket reports its
    close after the user's disconnect), the second one makes no call on the
    microphone, the noise source or the output context, and calls [close] on
    the session once more when the session promise is fulfilled. *)
Theorem second_teardown_closes_again (env : Env) (ev ev' : Event) (w : App) :
  closes ev = true -> closes ev' = true -> jobs w = [] ->
  let w1 := step env w ev in
  trace (step env w1 ev')
  = trace w1
    ++ match sessionRef w with
       | Some p => match pstate p with Fulfilled => [SessionClose] | _ => [] end
       | None => []
       end.
Proof.
  intros Hc Hc' Hj w1.
  destruct (closes_disconnect env ev w Hc) as (w0 & E & Hv & Hs & Hj0).
  destruct (closes_disconnect env ev' w1 Hc') as (w2 & E' & Hv' & Hs' & Hj').
  assert (w1 = drain (disconnect w0)) as E1 by (unfold w1, step; now rewrite E).
  assert (jobs w1 = []) as J1 by (rewrite E1, drain_spec; reflexivity).
  unfold step at 1. rewrite E'.
  rewrite disconnect_trace by congruence.
  rewrite (view_trace _ _ Hv'). f_equal.
  unfold teardown. rewrite (view_teardown_sync _ _ Hv').
  assert (teardown_sync w1 = []) as ->.
  { unfold teardown_sync. rewrite E1.
    destruct (drain_refs (disconnect w0)) as (-> & -> & -> & -> & ->).
    now destruct (disconnect_released w0) as (_ & _ & _ & -> & -> & -> & -> & ->). }
  cbn [app].
  change (teardown_close w2 = teardown_close w).
  unfold teardown_close at 1. rewrite Hs'.
  change (teardown_close w1 = teardown_close w).
  rewrite E1, teardown_close_kept. unfold teardown_close. now rewrite Hs.
Qed.

Lemma second_teardown_closes_again_witness :
  trace (step env0 (step env0 (run env0 opened initial) EDisconnect)
              (EClose 1000 ""))
  = trace (step env0 (run env0 opened initial) EDisconnect) ++ [SessionClose].
Proof.
  apply (second_teardown_closes_again env0 EDisconnect (EClose 1000 "")
           (run env0 opened initial));
    reflexivity.
Defined.

(** ** The input context *)

Lemma view_inputContextRef (w w' : App) :
  view w' = view w -> inputContextRef w' = inputContextRef w.
Proof.
  intros H. change (inputContextRef (view w') = inputContextRef (view w)).
  now rewrite H.
Qed.

Lemma disconnect_inputContextRef (w : App) :
  inputContextRef (disconnect w) = inputContextRef w.
Proof.
  rewrite disconnect_spec. cbv zeta.
  change (inputContextRef
            (view (if isSome (sessionRef w) then then_ JClose w else w))
          = inputContextRef (view w)).
  now rewrite close_view.
Qed.

Lemma connect_inputContextRef (c : ConnectEnv) (w : App) :
  inputContextRef (connectToLiveAPI c w)
  = match inputContextRef w with
    | Some ic => Some ic
    | None => if API_KEY c then Some {| sampleRate := 16000 |} else None
    end.
Proof.
  unfold connectToLiveAPI.
  destruct (API_KEY c), (getUserMedia c), w as
    [? ? ? ? ? cf ac ic ? ? ? ? ? bg ? ? ? ? ? ?];
    cbn; destruct cf, ac, ic, bg; reflexivity.
Qed.

Lemma handle_inputContextRef (env : Env) (ev : Event) (w : App) (ic : AudioContext) :
  inputContextRef w = Some ic -> inputContextRef (handle env ev w) = Some ic.
Proof.
  intros H. destruct ev; cbn [handle].
  - now rewrite connect_inputContextRef, H.
  - unfold onopen. rewrite (view_inputContextRef _ _ (then_view _ _)).
    destruct w as [? ? ? ? ? ? ? ? ? ? ? ? ? ? ? st ? ? ? ?]. cbn in H |- *.
    subst. now destruct st.
  - unfold settle. split_ifs; exact H.
  - unfold fail. split_ifs; try exact H. now rewrite disconnect_inputContextRef.
  - unfold onaudioprocess. split_ifs; [exact H|].
    now rewrite (view_inputContextRef _ _ (then_view _ _)).
  - unfold onmessage.
    destruct (audioPart_cases now m w) as [E|[(d & b & _ & Hd & E)|E]];
      rewrite E; try exact H;
      unfold toolPart, runTools; destruct (toolCall m);
      rewrite ?(view_inputContextRef _ _ (tools_view env _ _)); exact H.
  - unfold ontick. now destruct (intervals w).
  - unfold onended. split_ifs; exact H.
  - unfold onclose. now rewrite disconnect_inputContextRef.
  - unfold onerror. now rewrite disconnect_inputContextRef.
  - now rewrite disconnect_inputContextRef.
  - exact H.
  - exact H.
Qed.

Lemma run_inputContextRef (env : Env) (evs : list Event) (w : App)
  (ic : AudioContext) :
  inputContextRef w = Some ic -> inputContextRef (run env evs w) = Some ic.
Proof.
  revert w. induction evs as [|ev evs IH]; intros w H; [exact H|].
  change (run env (ev :: evs) w) with (run env evs (step env w ev)).
  apply IH. unfold step. rewrite drain_spec.
  cbn [inputContextRef set_trace set_jobs]. now apply handle_inputContextRef.
Qed.

(** X15.  The input context lives for ever.  A connection with an API key
    leaves an input context in place: the one that was there, or a new one
    at 16000 Hz.  From then on it is the same context through every run of
    events: teardown closes and clears the output context but neither
    releases nor replaces the input context, and a new connection uses it
    again. *)
Theorem input_context_is_kept (env : Env) (c : ConnectEnv) (w : App) :
  API_KEY c = true ->
  exists ic,
    inputContextRef (step env w (EConnect c)) = Some ic /\
    (inputContextRef w = None -> sampleRate ic = 16000%Z) /\
    forall evs,
      inputContextRef (run env evs (step env w (EConnect c))) = Some ic /\
      forall ev, closes ev = true ->
        audioContextRef (step env (run env evs (step env w (EConnect c))) ev)
        = None.
Proof.
  intros Hk.
  assert (inputContextRef (step env w (EConnect c))
          = match inputContextRef w with
            | Some ic => Some ic
            | None => Some {| sampleRate := 16000 |}
            end) as E.
  { unfold step. rewrite drain_spec. cbn [inputContextRef set_trace set_jobs handle].
    now rewrite connect_inputContextRef, Hk. }
  exists (match inputContextRef w with
          | Some ic => ic
          | None => {| sampleRate := 16000 |}
          end).
  split; [|split].
  - rewrite E. now destruct (inputContextRef w).
  - now intros ->.
  - intros evs. split.
    + apply run_inputContextRef. rewrite E. now destruct (inputContextRef w).
    + intros ev Hc.
      destruct (closes_disconnect env ev
                  (run env evs (step env w (EConnect c))) Hc) as (w0 & E0 & _).
      unfold step at 1. rewrite E0.
      destruct (drain_refs (disconnect w0)) as (_ & _ & _ & _ & ->).
      now destruct (disconnect_released w0) as (_ & _ & _ & _ & _ & _ & _ & ->).
Qed.

Lemma input_context_is_kept_witness :
  exists ic,
    inputContextRef (step env0 initial (EConnect mic_granted)) = Some ic /\
    inputContextRef
      (run env0 [EOpen 0; EResolved; EDisconnect; EConnect mic_granted]
           (step env0 initial (EConnect mic_granted))) = Some ic.
Proof.
  destruct (input_context_is_kept env0 mic_granted initial eq_refl)
    as (ic & H1 & _ & H2).
  exists ic.
  exact (conj H1 (proj1 (H2 [EOpen 0; EResolved; EDisconnect;
                              EConnect mic_granted]))).
Defined.

(** ** A rejected connection *)

Lemma session_nil_app (t u : list Effect) :
  filter to_session u = [] -> filter to_session (t ++ u) = filter to_session t.
Proof. intros H. now rewrite filter_app, H, app_nil_r. Qed.

Lemma session_teardown_sync (w : App) : filter to_session (teardown_sync w) = [].
Proof.
  unfold teardown_sync. rewrite !filter_app.
  assert (forall n, filter to_session (repeat TrackStop n) = []) as R
      by (induction n; [reflexivity | exact IHn]).
  destruct (processorRef w), (sourceRef w), (streamRef w), (bgNoiseRef w),
    (audioContextRef w); cbn [isSome]; rewrite ?R; reflexivity.
Qed.

(** What the session sees of a state: its promise, the jobs waiting for
    it, and the calls made on it. *)
Lemma then_rejected (j : Job) (w : App) (p : SessionPromise) :
  sessionRef w = Some p -> pstate p = Rejected -> then_ j w = w.
Proof. intros Hs Hp. unfold then_. now rewrite Hs, Hp. Qed.

Lemma tools_rejected (env : Env) (calls : list FunctionCall.t) (w : App)
  (p : SessionPromise) :
  sessionRef w = Some p -> pstate p = Rejected ->
  sessionRef (fold_left (answer env) calls w) = Some p /\
  jobs (fold_left (answer env) calls w) = jobs w /\
  trace (fold_left (answer env) calls w) = trace w.
Proof.
  revert w. induction calls as [|fc calls IH]; intros w Hs Hp; [now repeat split|].
  cbn [fold_left]. rewrite answer_spec.
  destruct (tryTool_session env fc w) as [Es Ej].
  rewrite (then_rejected _ _ p) by congruence.
  destruct (IH (state_of (tryTool env fc w))) as (H1 & H2 & H3);
    [congruence | exact Hp |].
  rewrite H1, H2, H3, Ej. repeat split.
  apply (view_trace _ _ (tryTool_view env fc w)).
Qed.

Lemma disconnect_rejected (w : App) (p : SessionPromise) :
  sessionRef w = Some p -> pstate p = Rejected ->
  sessionRef (disconnect w) = Some p /\ jobs (disconnect w) = jobs w /\
  filter to_session (trace (disconnect w)) = filter to_session (trace w).
Proof.
  intros Hs Hp. rewrite disconnect_effects, disconnect_spec. cbv zeta.
  rewrite Hs. cbn [isSome]. rewrite (then_rejected _ _ p Hs Hp).
  cbn [sessionRef jobs setVolume setMode setConnected set_audioContextRef
       set_bgNoiseRef set_streamRef set_sourceRef set_processorRef set_trace].
  repeat split; [exact Hs|]. apply session_nil_app, session_teardown_sync.
Qed.

Lemma handle_rejected (env : Env) (ev : Event) (w : App) (p : SessionPromise) :
  is_connect ev = false ->
  sessionRef w = Some p -> pstate p = Rejected ->
  sessionRef (handle env ev w) = Some p /\
  jobs (handle env ev w) = jobs w /\
  filter to_session (trace (handle env ev w)) = filter to_session (trace w).
Proof.
  intros Hc Hs Hp. destruct ev; try discriminate; cbn [handle].
  - unfold onopen. rewrite (then_rejected _ _ p).
    + destruct w as [? ? ? ? ? ? ? ic ? ? ? ? ? ? ? st ? ? ? ?].
      cbn in Hs |- *. destruct st, ic; cbn; repeat split; try assumption;
        apply session_nil_app; reflexivity.
    + destruct w as [? ? ? ? ? ? ? ic ? ? ? ? ? ? ? st ? ? ? ?].
      cbn in Hs |- *. now destruct st, ic.
    + exact Hp.
  - unfold settle. rewrite Hs, Hp. now repeat split.
  - unfold fail. rewrite Hs, Hp. now repeat split.
  - unfold onaudioprocess. split_ifs; [now repeat split|].
    rewrite (then_rejected _ (setVolume (rms inputData) w) p Hs Hp).
    now repeat split.
  - unfold onmessage.
    assert (forall w', sessionRef w' = Some p -> jobs w' = jobs w ->
                       filter to_session (trace w') = filter to_session (trace w) ->
                       sessionRef (toolPart env m w') = Some p /\
                       jobs (toolPart env m w') = jobs w /\
                       filter to_session (trace (toolPart env m w'))
                       = filter to_session (trace w)) as T.
    { intros w' H1 H2 H3. unfold toolPart, runTools.
      destruct (toolCall m) as [calls|]; [|now repeat split].
      destruct (tools_rejected env calls
                  (addLog system "Executing tools..." (setMode THINKING w')) p)
        as (T1 & T2 & T3); [exact H1 | exact Hp |].
      rewrite T1, T2, T3. now repeat split. }
    destruct (audioPart_cases now m w) as [E|[(d & b & _ & Hd & E)|E]];
      rewrite E.
    + now apply T.
    + apply T; [exact Hs | reflexivity |].
      unfold schedule. cbn. apply session_nil_app. reflexivity.
    + now repeat split.
  - unfold ontick. destruct (intervals w); now repeat split.
  - unfold onended. split_ifs; cbn; repeat split; try assumption;
      apply session_nil_app; reflexivity.
  - unfold onclose.
    match goal with
    | |- context [disconnect ?x] => exact (disconnect_rejected x p Hs Hp)
    end.
  - unfold onerror.
    match goal with
    | |- context [disconnect ?x] => exact (disconnect_rejected x p Hs Hp)
    end.
  - now apply disconnect_rejected.
  - now repeat split.
  - now repeat split.
Qed.

Lemma drain_nothing (w : App) :
  jobs w = [] ->
  sessionRef (drain w) = sessionRef w /\ jobs (drain w) = [] /\
  trace (drain w) = trace w.
Proof.
  intros Hj. rewrite drain_spec, Hj.
  cbn [sessionRef jobs trace set_trace set_jobs flat_map].
  now rewrite app_nil_r.
Qed.

Lemma run_rejected (env : Env) (evs : list Event) (w : App) (p : SessionPromise) :
  forallb (fun ev => negb (is_connect ev)) evs = true ->
  sessionRef w = Some p -> pstate p = Rejected -> jobs w = [] ->
  filter to_session (trace (run env evs w)) = filter to_session (trace w).
Proof.
  revert w. induction evs as [|ev evs IH]; intros w Hf Hs Hp Hj; [reflexivity|].
  cbn [forallb] in Hf. apply andb_true_iff in Hf as [He Hf].
  apply negb_true_iff in He.
  change (run env (ev :: evs) w) with (run env evs (step env w ev)).
  destruct (handle_rejected env ev w p He Hs Hp) as (H1 & H2 & H3).
  destruct (drain_nothing (handle env ev w)) as (D1 & D2 & D3); [congruence|].
  fold (step env w ev) in D1, D2, D3.
  rewrite IH; try assumption; congruence.
Qed.

(** X16.  A session that failed to open is never used.  When the session
    promise rejects, the greeting and the frames that were waiting for it
    are discarded with it, and from then on nothing is sent to the session,
    not even the [close] of a later teardown, until the user connects
    again. *)
Theorem rejected_session_never_used (env : Env) (msg : string)
  (evs : list Event) (w : App) (rs : list Job) :
  sessionRef w = Some {| pstate := Pending; reactions := rs |} -> jobs w = [] ->
  forallb (fun ev => negb (is_connect ev)) evs = true ->
  filter to_session (trace (run env evs (step env w (ERejected msg))))
  = filter to_session (trace w).
Proof.
  intros Hs Hj Hf.
  set (w0 := addLog system ("Failed to establish connection: " +++ msg)
               (set_sessionRef (Some {| pstate := Rejected; reactions := [] |}) w)).
  assert (handle env (ERejected msg) w = disconnect w0) as E.
  { cbn [handle]. unfold fail. now rewrite Hs. }
  destruct (disconnect_rejected w0 {| pstate := Rejected; reactions := [] |}
              eq_refl eq_refl) as (H1 & H2 & H3).
  destruct (drain_nothing (disconnect w0)) as (D1 & D2 & D3);
    [rewrite H2; exact Hj|].
  rewrite <- E in D1, D2, D3. fold (step env w (ERejected msg)) in D1, D2, D3.
  rewrite (run_rejected env evs (step env w (ERejected msg))
             {| pstate := Rejected; reactions := [] |} Hf);
    [ rewrite D3, E; exact H3 | rewrite D1, E; exact H1 | reflexivity
    | exact D2 ].
Qed.

Lemma rejected_session_never_used_witness :
  filter to_session
    (trace (run env0 [EAudioProcess [1 # 2]; EResolved; EDisconnect]
                (step env0 (run env0 [EConnect mic_granted; EOpen 0] initial)
                      (ERejected "no route"))))
  = filter to_session (trace (run env0 [EConnect mic_granted; EOpen 0] initial)).
Proof.
  apply (rejected_session_never_used env0 "no route"
           [EAudioProcess [1 # 2]; EResolved; EDisconnect]
           (run env0 [EConnect mic_granted; EOpen 0] initial)
           [JGreeting (greeting 0)]);
    reflexivity.
Defined.

(** ** The greeting *)

(** X17.  The greeting always names a context.  For every value of
    [Math.random()] in [[0, 1)], the opening turn is built from one of the
    five contexts of the code, never from a missing one. *)
Theorem greeting_names_a_context (r : Q) :
  0 <= r -> r < 1 ->
  exists c,
    In c contexts /\
    greeting r
    = ("System Event: " +++ c +++
       ". Greet the user naturally based on this context. Keep it short.")%string.
Proof.
  intros H0 H1. unfold greeting. cbv zeta.
  set (i := Z.to_nat (Qfloor (r * inject_Z (Z.of_nat (List.length contexts))))).
  assert (i < List.length contexts)%nat as Hi.
  { subst i. change (inject_Z (Z.of_nat (List.length contexts))) with 5.
    assert (0 <= Qfloor (r * 5) < 5)%Z as [L U].
    { split.
      - change 0%Z with (Qfloor (inject_Z 0)) at 1. rewrite Qfloor_Z.
        assert (inject_Z 0 <= r * 5) as H by (change (inject_Z 0) with 0; lra).
        apply Qfloor_resp_le in H. now rewrite Qfloor_Z in H.
      - pose proof (Qfloor_le (r * 5)) as H.
        assert (inject_Z (Qfloor (r * 5)) < inject_Z 5) as H'
            by (change (inject_Z 5) with 5; lra).
        now rewrite <- Zlt_Qlt in H'. }
    change (List.length contexts) with 5%nat. lia. }
  exists (nth i contexts "undefined"%string). split; [|reflexivity].
  now apply nth_In.
Qed.

Lemma greeting_names_a_context_witness :
  exists c,
    In c contexts /\
    greeting (99 # 100)
    = ("System Event: " +++ c +++
       ". Greet the user naturally based on this context. Keep it short.")%string.
Proof.
  apply (greeting_names_a_context (99 # 100)); [discriminate | reflexivity].
Defined.

(** ** The tools and their manifest *)

Ltac name_cases n :=
  repeat match goal with
         | |- context [String.eqb n ?t] =>
             destruct (String.eqb_spec n t) as [->|?]; cbn
         | H : context [String.eqb n ?t] |- _ =>
             destruct (String.eqb_spec n t) as [->|?]; cbn in H
         end.

(** X18.  The manifest and the dispatcher name the same tools.  A call is
    answered [Unknown tool] exactly when [toolsDef] declares no tool of its
    name: an undeclared name gets that answer and changes nothing, and a
    declared name never gets it. *)
Theorem unknown_iff_undeclared (env : Env) (fc : FunctionCall.t) (w : App) :
  (declaration fc = None ->
   tryTool env fc w = Done w (error "Unknown tool")) /\
  (forall d, declaration fc = Some d ->
             verdict (tryTool env fc w) <> error "Unknown tool").
Proof.
  unfold declaration, toolsDef, tryTool, name_is, with_args, await, addToInbox,
    editInboxMessage.
  destruct fc as [i [n|] a]; cbn [FunctionCall.name FunctionCall.args
    FunctionDeclaration.name option_string_eqb find];
    [|split; [reflexivity | discriminate]].
  split.
  - intros H. name_cases n; try discriminate H. reflexivity.
  - intros d H. name_cases n; try discriminate H;
      split_ifs; cbn; discriminate.
Qed.

Lemma unknown_iff_undeclared_witness :
  tryTool env0 unknown_call initial = Done initial (error "Unknown tool") /\
  verdict (tryTool env0 image_call initial) <> error "Unknown tool".
Proof.
  split.
  - apply (proj1 (unknown_iff_undeclared env0 unknown_call initial)).
    reflexivity.
  - apply (proj2 (unknown_iff_undeclared env0 image_call initial)
             {| FunctionDeclaration.name := "generate_image";
                FunctionDeclaration.properties := ["prompt"%string];
                FunctionDeclaration.required := ["prompt"%string] |}).
    reflexivity.
Defined.

(** X19.  The dispatcher reads only declared properties.  Two calls of the
    same declared tool whose argument objects agree on the properties that
    [toolsDef] declares for it are handled alike: same changes, same
    answer.  No tool reads an argument that the manifest does not
    announce. *)
Theorem reads_only_declared_properties (env : Env) (fc fc' : FunctionCall.t)
  (d : FunctionDeclaration.t) (a a' : list (string * string)) (w : App) :
  declaration fc = Some d ->
  FunctionCall.name fc' = FunctionCall.name fc ->
  FunctionCall.args fc = Some a -> FunctionCall.args fc' = Some a' ->
  agree (FunctionDeclaration.properties d) a a' ->
  tryTool env fc' w = tryTool env fc w.
Proof.
  unfold declaration, toolsDef, agree, tryTool, name_is, with_args.
  destruct fc as [i [n|] x], fc' as [i' n' x'];
    cbn [FunctionCall.name FunctionCall.args FunctionDeclaration.name
         option_string_eqb find]; [|discriminate].
  intros H -> -> -> Ha. cbn [option_string_eqb].
  name_cases n; try discriminate H; injection H as <-;
    cbn [FunctionDeclaration.properties] in Ha;
    rewrite ?(Ha "prompt"%string), ?(Ha "instruction"%string),
      ?(Ha "query"%string), ?(Ha "question"%string), ?(Ha "message"%string),
      ?(Ha "messageId"%string), ?(Ha "newContent"%string),
      ?(Ha "problem"%string) by (cbn; auto);
    reflexivity.
Qed.

Lemma reads_only_declared_properties_witness :
  tryTool env0
    {| FunctionCall.id := Some "call-3"%string;
       FunctionCall.name := Some "generate_image"%string;
       FunctionCall.args :=
         Some [("size", "4K"); ("prompt", "a red bicycle")]%string |}
    initial
  = tryTool env0 image_call initial.
Proof.
  apply (reads_only_declared_properties env0 image_call _
           {| FunctionDeclaration.name := "generate_image";
              FunctionDeclaration.properties := ["prompt"%string];
              FunctionDeclaration.required := ["prompt"%string] |}
           [("prompt", "a red bicycle")]%string
           [("size", "4K"); ("prompt", "a red bicycle")]%string);
    try reflexivity.
  intros k [<-|[]]. reflexivity.
Defined.

(** X20.  An error never touches the inbox.  Whenever the answer to a call
    is an error (an unknown tool, a thrown exception, a capability with
    nothing to give, a message that was not found), the inbox is as it was
    before the call; only the logs may have grown. *)
Theorem error_leaves_inbox (env : Env) (fc : FunctionCall.t) (w : App) :
  is_error (verdict (tryTool env fc w)) = true ->
  inbox (state_of (tryTool env fc w)) = inbox w.
Proof.
  unfold tryTool, with_args, await, addToInbox, editInboxMessage.
  split_ifs; cbn; intros H; try discriminate H; reflexivity.
Qed.

Lemma error_leaves_inbox_witness :
  inbox (state_of (tryTool env0 image_call initial)) = inbox initial.
Proof. apply (error_leaves_inbox env0 image_call initial). reflexivity. Defined.

(** X21.  A call without arguments.  A call that carries no [args] is
    never answered as a success, except by [read_inbox_messages], which
    takes none; for the tools that read their arguments first
    ([generate_image], [search_web], [edit_text_message],
    [send_text_response], [think_deeply]) the answer is
    [Tool execution failed]. *)
Theorem call_without_args (env : Env) (fc : FunctionCall.t) (w : App) :
  FunctionCall.args fc = None ->
  (name_is fc "read_inbox_messages" = false ->
   is_error (verdict (tryTool env fc w)) = true) /\
  (existsb (name_is fc)
     ["generate_image"; "search_web"; "edit_text_message";
      "send_text_response"; "think_deeply"]%string = true ->
   verdict (tryTool env fc w) = error "Tool execution failed").
Proof.
  unfold tryTool, name_is, with_args, await.
  destruct fc as [i [n|] a]; cbn [FunctionCall.name FunctionCall.args
    option_string_eqb existsb]; intros ->; cbn [orb];
    [|split; [reflexivity | discriminate]].
  split; intros H; name_cases n; try discriminate H; split_ifs; reflexivity.
Qed.

Lemma call_without_args_witness :
  verdict (tryTool env0
             {| FunctionCall.id := None;
                FunctionCall.name := Some "think_deeply"%string;
                FunctionCall.args := None |} initial)
  = error "Tool execution failed".
Proof.
  apply (proj2 (call_without_args env0
                  {| FunctionCall.id := None;
                     FunctionCall.name := Some "think_deeply"%string;
                     FunctionCall.args := None |} initial eq_refl)).
  reflexivity.
Defined.

(** ** The inbox *)

(** X22.  What an edit does to the inbox.  [editInboxMessage] keeps the
    number, the order, the ids, the types and the roles of the items.
    Whether it reports success is decided on [inboxRef], the inbox as of the
    last render: it succeeds exactly when an item there has the given id.
    On success the content of every item of the inbox with that id is
    replaced and the item is marked as edited, every other item stays as it
    is; on failure nothing changes at all. *)
Theorem editInboxMessage_keeps_shape (id newContent : option string) (w : App) :
  let w' := fst (editInboxMessage id newContent w) in
  let success := snd (editInboxMessage id newContent w) in
  map InboxItem.id (inbox w') = map InboxItem.id (inbox w) /\
  map InboxItem.type (inbox w') = map InboxItem.type (inbox w) /\
  map InboxItem.role (inbox w') = map InboxItem.role (inbox w) /\
  (success = true <->
   exists item, In item (inboxRef w) /\ id = Some (InboxItem.id item)) /\
  (success = true ->
   Forall2 (fun old new =>
              if option_string_eqb id (InboxItem.id old)
              then InboxItem.content new = content_of newContent /\
                   InboxItem.edited new = true
              else new = old)
           (inbox w) (inbox w')) /\
  (success = false -> w' = w).
Proof.
  unfold editInboxMessage. cbv zeta.
  destruct (existsb _ (inboxRef w)) eqn:Ex; cbn [fst snd inbox setInbox].
  - repeat split; try discriminate.
    + rewrite map_map. apply map_ext. intros x.
      now destruct (option_string_eqb id (InboxItem.id x)).
    + rewrite map_map. apply map_ext. intros x.
      now destruct (option_string_eqb id (InboxItem.id x)).
    + rewrite map_map. apply map_ext. intros x.
      now destruct (option_string_eqb id (InboxItem.id x)).
    + intros _. apply existsb_exists in Ex as (item & Hin & He).
      exists item. split; [exact Hin|].
      destruct id as [s|]; [|discriminate]. cbn in He.
      apply String.eqb_eq in He. now subst.
    + intros _. induction (inbox w) as [|x l IH]; cbn [map]; constructor;
        [|exact IH].
      now destruct (option_string_eqb id (InboxItem.id x)).
  - repeat split; try discriminate.
    intros (item & Hin & ->). exfalso.
    assert (existsb (fun i => option_string_eqb (Some (InboxItem.id item))
                                (InboxItem.id i)) (inboxRef w) = true) as C.
    { apply existsb_exists. exists item. split; [exact Hin|].
      cbn. apply String.eqb_refl. }
    congruence.
Qed.

Lemma editInboxMessage_keeps_shape_witness :
  snd (editInboxMessage (Some "b2"%string) (Some "bread"%string) two_notes) = true /\
  inbox (fst (editInboxMessage (Some "b2"%string) (Some "bread"%string) two_notes))
  = [note "a1" "milk";
     {| InboxItem.id := "b2"; InboxItem.type := text; InboxItem.role := user;
        InboxItem.content := CString "bread"; InboxItem.edited := true |}] /\
  fst (editInboxMessage (Some "zz"%string) (Some "bread"%string) two_notes)
  = two_notes.
Proof.
  split; [|split].
  - apply (proj2 (proj1 (proj2 (proj2 (proj2
             (editInboxMessage_keeps_shape (Some "b2"%string)
                (Some "bread"%string) two_notes)))))).
    exists (note "b2" "eggs"). split; [right; left; reflexivity | reflexivity].
  - reflexivity.
  - apply (proj2 (proj2 (proj2 (proj2 (proj2
             (editInboxMessage_keeps_shape (Some "zz"%string)
                (Some "bread"%string) two_notes)))))).
    reflexivity.
Defined.

(** X23.  A message the assistant sent can be edited after the next
    render, not before.  [send_text_response] appends one text item of the
    assistant with the given message and a fresh id and answers with that
    id.  Once the inbox has been rendered, [edit_text_message] with that id
    succeeds and the item holds the new content, marked as edited.  Before
    the render [inboxRef] does not know the id, and the edit is answered
    [Message not found or update failed.] although the inbox holds the
    item. *)
Theorem sent_message_edited_after_render (env : Env) (send edit : FunctionCall.t)
  (a a' : list (string * string)) (m c : string) (w : App) :
  FunctionCall.name send = Some "send_text_response"%string ->
  FunctionCall.args send = Some a -> lookup "message" a = Some m ->
  let i := randomId env (List.length (inbox w)) in
  FunctionCall.name edit = Some "edit_text_message"%string ->
  FunctionCall.args edit = Some a' ->
  lookup "messageId" a' = Some i -> lookup "newContent" a' = Some c ->
  let w1 := state_of (tryTool env send w) in
  verdict (tryTool env send w) = result ("Message sent to inbox. ID: " +++ i) /\
  inbox w1
  = inbox w ++ [{| InboxItem.id := i; InboxItem.type := text;
                   InboxItem.role := assistant; InboxItem.content := CString m;
                   InboxItem.edited := false |}] /\
  (let w2 := handle env ERender w1 in
   verdict (tryTool env edit w2) = result "Message updated successfully." /\
   nth_error (inbox (state_of (tryTool env edit w2))) (List.length (inbox w))
   = Some {| InboxItem.id := i; InboxItem.type := text;
             InboxItem.role := assistant; InboxItem.content := CString c;
             InboxItem.edited := true |}) /\
  (existsb (fun item => String.eqb i (InboxItem.id item)) (inboxRef w) = false ->
   verdict (tryTool env edit w1) = error "Message not found or update failed." /\
   inbox (state_of (tryTool env edit w1)) = inbox w1).
Proof.
  intros Hn Ha Hm i Hn' Ha' Hi Hc.
  destruct send as [si sn sa], edit as [ei en ea].
  cbn [FunctionCall.name FunctionCall.args] in *. subst sn sa en ea.
  unfold tryTool, name_is, with_args, editInboxMessage, addToInbox.
  cbn [FunctionCall.name FunctionCall.args option_string_eqb String.eqb
       Ascii.eqb Bool.eqb].
  rewrite Hm, Hi, Hc. cbn [content_of state_of verdict inbox inboxRef setInbox
    addLog setLogs handle set_inboxRef logs].
  fold i. split; [reflexivity|]. split; [reflexivity|]. split.
  - rewrite existsb_app. cbn [existsb InboxItem.id option_string_eqb].
    rewrite String.eqb_refl, orb_true_r. cbn [verdict state_of inbox setInbox].
    split; [reflexivity|].
    rewrite map_app, nth_error_app2 by (rewrite length_map; lia).
    rewrite length_map, Nat.sub_diag. cbn [map nth_error InboxItem.id
      option_string_eqb]. now rewrite String.eqb_refl.
  - intros Hex. cbn [option_string_eqb]. rewrite Hex. split; reflexivity.
Qed.

Lemma sent_message_edited_after_render_witness :
  verdict (tryTool env0
             {| FunctionCall.id := None;
                FunctionCall.name := Some "edit_text_message"%string;
                FunctionCall.args :=
                  Some [("messageId", "2"); ("newContent", "tea")]%string |}
             (handle env0 ERender
                (state_of (tryTool env0
                   {| FunctionCall.id := None;
                      FunctionCall.name := Some "send_text_response"%string;
                      FunctionCall.args := Some [("message", "coffee")]%string |}
                   two_notes))))
  = result "Message updated successfully.".
Proof.
  apply (sent_message_edited_after_render env0
           {| FunctionCall.id := None;
              FunctionCall.name := Some "send_text_response"%string;
              FunctionCall.args := Some [("message", "coffee")]%string |}
           {| FunctionCall.id := None;
              FunctionCall.name := Some "edit_text_message"%string;
              FunctionCall.args :=
                Some [("messageId", "2"); ("newContent", "tea")]%string |}
           [("message", "coffee")]%string
           [("messageId", "2"); ("newContent", "tea")]%string
           "coffee" "tea" two_notes);
    reflexivity.
Defined.

Lemma filter_twice {A} (f : A -> bool) (l : list A) :
  filter f (filter f l) = filter f l.
Proof.
  induction l as [|x l IH]; [reflexivity|]. cbn.
  destruct (f x) eqn:E; cbn; rewrite ?E, IH; reflexivity.
Qed.



(** ** What is saved, and what is typed *)

Ltac saved :=
  cbn [InboxItem.id InboxItem.type InboxItem.role InboxItem.content
       InboxItem.edited].

(** X25.  What the persistence effect saves.  The copy handed to
    [localStorage] has the items of the inbox in their order with their
    ids, types, roles and edit marks; no image or audio item in it carries a
    text longer than 500 characters (longer ones are saved as [expired]);
    text and search items are saved as they are; and saving what was saved
    changes nothing. *)
Theorem safeInbox_bounds_media (inbox : list InboxItem.t) :
  map InboxItem.id (safeInbox inbox) = map InboxItem.id inbox /\
  map InboxItem.type (safeInbox inbox) = map InboxItem.type inbox /\
  map InboxItem.role (safeInbox inbox) = map InboxItem.role inbox /\
  map InboxItem.edited (safeInbox inbox) = map InboxItem.edited inbox /\
  Forall (fun item =>
            match InboxItem.type item, InboxItem.content item with
            | (image | audio), CString s => (String.length s <= 500)%nat
            | _, _ => True
            end) (safeInbox inbox) /\
  Forall2 (fun old new =>
             match InboxItem.type old with
             | text | search => new = old
             | _ => True
             end) inbox (safeInbox inbox) /\
  safeInbox (safeInbox inbox) = safeInbox inbox.
Proof.
  unfold safeInbox. rewrite !map_map.
  repeat split.
  - apply map_ext. intros [i [] r [s| |] e]; saved; try reflexivity;
      now destruct (500 <? String.length s)%nat.
  - apply map_ext. intros [i [] r [s| |] e]; saved; try reflexivity;
      now destruct (500 <? String.length s)%nat.
  - apply map_ext. intros [i [] r [s| |] e]; saved; try reflexivity;
      now destruct (500 <? String.length s)%nat.
  - apply map_ext. intros [i [] r [s| |] e]; saved; try reflexivity;
      now destruct (500 <? String.length s)%nat.
  - apply Forall_map, Forall_forall. intros [i [] r [s| |] e] _; saved; trivial;
      destruct (Nat.ltb_spec 500 (String.length s)); saved;
      try assumption; cbn [String.length]; lia.
  - induction inbox as [|x l IH]; cbn [map]; constructor; [|exact IH].
    now destruct x as [i [] r [s| |] e].
  - apply map_ext. intros [i [] r [s| |] e]; saved; try reflexivity;
      destruct (Nat.ltb_spec 500 (String.length s)) as [L|L]; saved;
      try reflexivity;
      destruct (Nat.ltb_spec 500 (String.length s)) as [L'|L']; saved;
      try reflexivity; lia.
Qed.

Lemma trimStart_white (cs : list ascii) :
  forallb is_white cs = true -> trimStart cs = [].
Proof.
  induction cs as [|c cs IH]; [reflexivity|]. cbn [forallb trimStart].
  intros H. apply andb_true_iff in H as [-> H]. now apply IH.
Qed.

Lemma trimStart_head (cs : list ascii) :
  match trimStart cs with
  | [] => forallb is_white cs = true
  | c :: _ => is_white c = false
  end.
Proof.
  induction cs as [|c cs IH]; [reflexivity|]. cbn [trimStart forallb].
  destruct (is_white c) eqn:E; [|exact E].
  destruct (trimStart cs); [exact IH | exact IH].
Qed.

(** [trim] gives the empty string exactly for the strings of white
    space. *)
Lemma trim_empty (s : string) :
  trim s = ""%string <-> forallb is_white (list_ascii_of_string s) = true.
Proof.
  unfold trim. split.
  - intros H.
    apply (f_equal list_ascii_of_string) in H.
    rewrite list_ascii_of_string_of_list_ascii in H. cbn in H.
    apply (f_equal (@rev ascii)) in H. rewrite rev_involutive in H. cbn in H.
    pose proof (trimStart_head (list_ascii_of_string s)) as H1.
    destruct (trimStart (list_ascii_of_string s)) as [|c cs] eqn:E; [exact H1|].
    exfalso.
    pose proof (trimStart_head (rev (c :: cs))) as H2. rewrite H in H2.
    rewrite forallb_forall in H2.
    specialize (H2 c). rewrite <- in_rev in H2.
    rewrite H2 in H1 by (left; reflexivity). discriminate.
  - intros H. now rewrite (trimStart_white _ H).
Qed.

(** X26.  Typed text stays in the component.  [handleSendText] changes
    nothing but the logs, the inbox and the text box: it makes no call on
    the session and queues none.  When the text is empty or only white
    space it changes nothing at all.  Otherwise, when no message is being
    edited, the inbox gains at its end one text item of the user whose
    content is the text as typed, untrimmed, and the text box is emptied;
    after the next render the item is among the text messages that
    [read_inbox_messages] reads. *)
Theorem typed_text_stays_local (env : Env) (t : TextBox) (w : App) :
  core (fst (handleSendText env t w)) = core w /\
  (forallb is_white (list_ascii_of_string (textInput t)) = true ->
   handleSendText env t w = (w, t)) /\
  (forallb is_white (list_ascii_of_string (textInput t)) = false ->
   truthy (editingMessageId t) = false ->
   let w' := fst (handleSendText env t w) in
   let item := {| InboxItem.id := randomId env (List.length (inbox w));
                  InboxItem.type := text; InboxItem.role := user;
                  InboxItem.content := CString (textInput t);
                  InboxItem.edited := false |} in
   inbox w' = inbox w ++ [item] /\
   textInput (snd (handleSendText env t w)) = ""%string /\
   filter is_text (inboxRef (handle env ERender w'))
   = filter is_text (inbox w) ++ [item]).
Proof.
  unfold handleSendText.
  destruct (String.eqb_spec (trim (textInput t)) "") as [E|E].
  - split; [reflexivity|]. split; [reflexivity|].
    intros H. apply trim_empty in E. congruence.
  - split; [|split].
    + unfold editInboxMessage, addToInbox. split_ifs; reflexivity.
    + intros H. apply trim_empty in H. contradiction.
    + intros _ ->. unfold addToInbox. cbn. repeat split.
      now rewrite filter_app.
Qed.

Lemma typed_text_stays_local_witness :
  handleSendText env0 {| textInput := "   "; editingMessageId := None |} two_notes
  = (two_notes, {| textInput := "   "; editingMessageId := None |}) /\
  inbox (fst (handleSendText env0
                {| textInput := " tea "; editingMessageId := None |} two_notes))
  = inbox two_notes
    ++ [{| InboxItem.id := "2"; InboxItem.type := text; InboxItem.role := user;
           InboxItem.content := CString " tea "; InboxItem.edited := false |}].
Proof.
  split.
  - apply (proj1 (proj2 (typed_text_stays_local env0
             {| textInput := "   "; editingMessageId := None |} two_notes))).
    reflexivity.
  - apply (proj2 (proj2 (typed_text_stays_local env0
             {| textInput := " tea "; editingMessageId := None |} two_notes)));
      reflexivity.
Defined.

(** X27.  An edit from the text box can lose the text.  With a message
    being edited and a text that is not blank, [handleSendText] empties the
    text box, leaves the edit mode and logs [Edited message: ...] whether or
    not the message was found; when [inboxRef] holds no item with that id the
    inbox stays as it was, and the typed text is nowhere. *)
Theorem edit_from_text_box (env : Env) (t : TextBox) (w : App) (id : string) :
  forallb is_white (list_ascii_of_string (textInput t)) = false ->
  editingMessageId t = Some id -> id <> ""%string ->
  snd (handleSendText env t w)
  = {| textInput := ""; editingMessageId := None |} /\
  logs (fst (handleSendText env t w))
  = logs w ++ [{| log_role := user;
                  log_text := "Edited message: "
                              +++ substring 0 50 (textInput t) +++ "..." |}] /\
  inbox (fst (handleSendText env t w))
  = inbox (fst (editInboxMessage (Some id) (Some (textInput t)) w)) /\
  (existsb (fun item => String.eqb id (InboxItem.id item)) (inboxRef w) = false ->
   inbox (fst (handleSendText env t w)) = inbox w).
Proof.
  intros Hb He Hid. unfold handleSendText.
  destruct (String.eqb_spec (trim (textInput t)) "") as [E|E].
  { apply trim_empty in E. congruence. }
  rewrite He. cbn [truthy]. apply String.eqb_neq in Hid. rewrite Hid. cbn [negb].
  unfold editInboxMessage. cbn [option_string_eqb].
  destruct (existsb _ (inboxRef w)); cbn; repeat split; discriminate.
Qed.

Lemma edit_from_text_box_witness :
  snd (handleSendText env0
         {| textInput := "tea"; editingMessageId := Some "zz"%string |} two_notes)
  = {| textInput := ""; editingMessageId := None |} /\
  inbox (fst (handleSendText env0
                {| textInput := "tea"; editingMessageId := Some "zz"%string |}
                two_notes))
  = inbox two_notes.
Proof.
  destruct (edit_from_text_box env0
              {| textInput := "tea"; editingMessageId := Some "zz"%string |}
              two_notes "zz" eq_refl eq_refl ltac:(discriminate))
    as (H1 & _ & _ & H4).
  exact (conj H1 (H4 eq_refl)).
Defined.

(** ** The capabilities *)

Lemma or_else_filled (value : option string) (fallback : string) :
  fallback <> ""%string -> geminiService.or_else value fallback <> ""%string.
Proof.
  intros H. unfold geminiService.or_else.
  destruct value as [s|]; cbn; [|exact H].
  destruct (String.eqb_spec s ""); cbn; assumption.
Qed.

(** X28.  The capabilities fail softly.  Once the client has been built,
    none of [searchWeb], [generateImage], [editImage], [analyzeImage] and
    [thinkHard] throws, whatever the API does and whatever the image handed
    over is; they throw only when building the client throws.  The texts
    they return for the remote model are never empty, and when the API call
    fails they are the fixed apologies of the code, with no image and no
    link. *)
Theorem capabilities_fail_softly (ai : geminiService.GoogleGenAI)
  (q : option string) (img : Content) :
  (exists r, geminiService.searchWeb (Returns ai) q = Returns r /\
             geminiService.summary r <> ""%string) /\
  (exists r, geminiService.generateImage (Returns ai) q = Returns r) /\
  (exists r, geminiService.editImage (Returns ai) img q = Returns r) /\
  (exists r, geminiService.analyzeImage (Returns ai) img q = Returns r /\
             r <> ""%string) /\
  (exists r, geminiService.thinkHard (Returns ai) q = Returns r /\
             r <> ""%string) /\
  ((forall request, geminiService.generateContent ai request = Throws) ->
   geminiService.searchWeb (Returns ai) q
   = Returns {| geminiService.summary := "I encountered an error searching the web.";
                geminiService.links := [] |} /\
   geminiService.generateImage (Returns ai) q = Returns None /\
   geminiService.editImage (Returns ai) img q = Returns None /\
   geminiService.analyzeImage (Returns ai) img q
   = Returns "Error analyzing the image."%string /\
   geminiService.thinkHard (Returns ai) q
   = Returns "Error during thinking process."%string) /\
  geminiService.searchWeb Throws q = Throws /\
  geminiService.generateImage Throws q = Throws /\
  geminiService.editImage Throws img q = Throws /\
  geminiService.analyzeImage Throws img q = Throws /\
  geminiService.thinkHard Throws q = Throws.
Proof.
  unfold geminiService.searchWeb, geminiService.generateImage,
    geminiService.editImage, geminiService.analyzeImage, geminiService.thinkHard.
  repeat split.
  - destruct (geminiService.generateContent ai _); eexists; (split; [reflexivity|]);
      cbn; [apply or_else_filled|]; discriminate.
  - destruct (geminiService.generateContent ai _); eexists; reflexivity.
  - destruct (geminiService.clean img); [|eexists; reflexivity].
    destruct (geminiService.generateContent ai _); eexists; reflexivity.
  - destruct (geminiService.clean img);
      [|eexists; split; [reflexivity | discriminate]].
    destruct (geminiService.generateContent ai _); eexists;
      (split; [reflexivity|]); [apply or_else_filled|]; discriminate.
  - destruct (geminiService.generateContent ai _); eexists;
      (split; [reflexivity|]); [apply or_else_filled|]; discriminate.
  - now rewrite H.
  - now rewrite H.
  - destruct (geminiService.clean img); [now rewrite H | reflexivity].
  - destruct (geminiService.clean img); [now rewrite H | reflexivity].
  - now rewrite H.
Qed.

Lemma capabilities_fail_softly_witness :
  geminiService.searchWeb (Returns geminiService.offline) (Some "weather"%string)
  = Returns {| geminiService.summary := "I encountered an error searching the web.";
               geminiService.links := [] |} /\
  geminiService.thinkHard (Returns geminiService.offline) (Some "why"%string)
  = Returns "Error during thinking process."%string.
Proof.
  destruct (proj1 (proj2 (proj2 (proj2 (proj2 (proj2
              (capabilities_fail_softly geminiService.offline
                 (Some "weather"%string) CUndefined))))))
              (fun _ => eq_refl)) as (H1 & _ & _ & _ & _).
  destruct (proj1 (proj2 (proj2 (proj2 (proj2 (proj2
              (capabilities_fail_softly geminiService.offline
                 (Some "why"%string) CUndefined))))))
              (fun _ => eq_refl)) as (_ & _ & _ & _ & H5).
  exact (conj H1 H5).
Defined.

Lemma links_of_spec (chunks : list geminiService.GroundingChunk) :
  Forall (fun l =>
            geminiService.url l <> ""%string /\
            exists c wb,
              In c chunks /\ geminiService.web c = Some wb /\
              geminiService.uri wb = Some (geminiService.url l) /\
              geminiService.title l = geminiService.web_title wb)
         (geminiService.links_of chunks) /\
  (List.length (geminiService.links_of chunks) <= List.length chunks)%nat.
Proof.
  induction chunks as [|c chunks [IH1 IH2]]; [split; [constructor | reflexivity]|].
  unfold geminiService.links_of in *. cbn [flat_map].
  assert (Forall (fun l =>
            geminiService.url l <> ""%string /\
            exists c0 wb,
              In c0 (c :: chunks) /\ geminiService.web c0 = Some wb /\
              geminiService.uri wb = Some (geminiService.url l) /\
              geminiService.title l = geminiService.web_title wb)
            (flat_map
               (fun c0 =>
                  match geminiService.web c0 with
                  | Some wb =>
                      if truthy (geminiService.uri wb)
                      then [{| geminiService.title := geminiService.web_title wb;
                               geminiService.url := show (geminiService.uri wb) |}]
                      else []
                  | None => []
                  end) chunks)) as T.
  { eapply Forall_impl; [|exact IH1].
    intros l (H1 & c0 & wb & H2 & H3). split; [exact H1|].
    exists c0, wb. split; [now right | exact H3]. }
  destruct (geminiService.web c) as [wb|] eqn:Ew; [|split; [exact T | cbn; lia]].
  destruct (geminiService.uri wb) as [u|] eqn:Eu; cbn [truthy];
    [|split; [exact T | cbn; lia]].
  destruct (String.eqb_spec u "") as [->|Hu]; cbn [negb app];
    [split; [exact T | cbn; lia]|].
  split; [|cbn; lia].
  constructor; [|exact T]. cbn. split; [exact Hu|].
  exists c, wb. repeat split; [now left | exact Ew | exact Eu].
Qed.

(** X29.  The links of a search come from the grounding chunks.  Every
    link that [searchWeb] returns has a URL that is not empty and is the
    [uri] of one of the grounding chunks of the response, with the title of
    that chunk; chunks without a [web] entry or without a [uri] give no
    link, so that there are at most as many links as chunks; and a response
    without grounding metadata gives no link. *)
Theorem search_links_come_from_chunks (ai : geminiService.GoogleGenAI)
  (q : option string) (response : geminiService.Response) :
  geminiService.generateContent ai (geminiService.search_request q)
  = Returns response ->
  exists r,
    geminiService.searchWeb (Returns ai) q = Returns r /\
    match geminiService.groundingChunks response with
    | None => geminiService.links r = []
    | Some chunks =>
        (List.length (geminiService.links r) <= List.length chunks)%nat /\
        Forall (fun l =>
                  geminiService.url l <> ""%string /\
                  exists c wb,
                    In c chunks /\ geminiService.web c = Some wb /\
                    geminiService.uri wb = Some (geminiService.url l) /\
                    geminiService.title l = geminiService.web_title wb)
               (geminiService.links r)
    end.
Proof.
  intros H. unfold geminiService.searchWeb. rewrite H. cbv zeta.
  eexists. split; [reflexivity|]. cbn [geminiService.links].
  destruct (geminiService.groundingChunks response) as [chunks|]; [|reflexivity].
  destruct (links_of_spec chunks) as [F L]. split; assumption.
Qed.

Lemma search_links_come_from_chunks_witness :
  exists r,
    geminiService.searchWeb (Returns geminiService.librarian)
      (Some "weather"%string) = Returns r /\
    (List.length (geminiService.links r) <= 3)%nat /\
    Forall (fun l => geminiService.url l <> ""%string) (geminiService.links r).
Proof.
  destruct (search_links_come_from_chunks geminiService.librarian
              (Some "weather"%string) _ eq_refl) as (r & H1 & H2 & H3).
  exists r. split; [exact H1|]. split; [exact H2|].
  eapply Forall_impl; [|exact H3]. now intros l [H _].
Defined.

Lemma split_comma_free (s : string) :
  geminiService.comma_free s = true -> geminiService.split_comma s = [s].
Proof.
  unfold geminiService.comma_free.
  induction s as [|c s IH]; [reflexivity|].
  cbn [list_ascii_of_string forallb geminiService.split_comma]. intros H.
  apply andb_true_iff in H as [Hc H]. apply negb_true_iff in Hc.
  now rewrite Hc, (IH H).
Qed.

Lemma split_comma_prefix (p rest : string) :
  geminiService.comma_free p = true ->
  geminiService.split_comma (p +++ "," +++ rest)
  = p :: geminiService.split_comma rest.
Proof.
  unfold geminiService.comma_free.
  induction p as [|c p IH]; [reflexivity|].
  cbn [list_ascii_of_string forallb].
  intros H. apply andb_true_iff in H as [Hc H]. apply negb_true_iff in Hc.
  change (geminiService.split_comma (String c p +++ "," +++ rest))
    with (if Ascii.eqb c ","%char
          then EmptyString :: geminiService.split_comma (p +++ "," +++ rest)
          else match geminiService.split_comma (p +++ "," +++ rest) with
               | field :: fields => String c field :: fields
               | [] => [String c EmptyString]
               end).
  now rewrite Hc, (IH H).
Qed.

Lemma first_image_prefix (ps : list geminiService.ResponsePart) (r : string) :
  geminiService.first_image ps = Some r ->
  exists part,
    In part ps /\
    exists d, geminiService.inlineData part = Some d /\
              r = ("data:image/png;base64," +++ show d)%string.
Proof.
  induction ps as [|part ps IH]; [discriminate|].
  cbn [geminiService.first_image].
  destruct (geminiService.inlineData part) as [d|] eqn:E.
  - intros H. injection H as <-. exists part. split; [now left|].
    now exists d.
  - intros H. destruct (IH H) as (part' & Hin & Hd).
    exists part'. split; [now right | exact Hd].
Qed.

(** X30.  Images travel as data URLs, and the prefix is taken off again.
    An image that [generateImage] or [editImage] returns is the inline data
    of a part of the response behind the prefix [data:image/png;base64,];
    it is never the empty string, so the dispatcher's test [if (imgData)]
    fails only when there is no image.  Handed back to [editImage] or
    [analyzeImage], a data URL is cut at its comma: the API receives the
    data without the prefix, and a string without a comma as it is. *)
Theorem images_travel_as_data_urls (ai : geminiService.GoogleGenAI)
  (q : option string) (img : Content) :
  (forall r,
      geminiService.generateImage (Returns ai) q = Returns r \/
      geminiService.editImage (Returns ai) img q = Returns r ->
      truthy r = isSome r /\
      forall s, r = Some s ->
                exists d, s = ("data:image/png;base64," +++ d)%string) /\
  (forall p d,
      geminiService.comma_free p = true -> geminiService.comma_free d = true ->
      d <> ""%string ->
      geminiService.clean (CString (p +++ "," +++ d)) = Some d) /\
  (forall s,
      geminiService.comma_free s = true ->
      geminiService.clean (CString s) = Some s).
Proof.
  split; [|split].
  - assert (forall response r,
               geminiService.image_of response = r ->
               truthy r = isSome r /\
               forall s, r = Some s ->
                         exists d, s = ("data:image/png;base64," +++ d)%string) as I.
    { intros response r <-. unfold geminiService.image_of.
      destruct (geminiService.first_image _) as [s|] eqn:E; [|split; [reflexivity|discriminate]].
      destruct (first_image_prefix _ _ E) as (part & _ & d & _ & ->).
      split; [reflexivity|]. intros s' H. injection H as <-. now exists (show d). }
    assert (truthy None = isSome (@None string) /\
            forall s, @None string = Some s ->
                      exists d, s = ("data:image/png;base64," +++ d)%string) as N
        by (split; [reflexivity | discriminate]).
    unfold geminiService.generateImage, geminiService.editImage.
    intros r [H|H].
    + destruct (geminiService.generateContent ai _) as [response|];
        injection H as <-; [now apply (I response) | exact N].
    + destruct (geminiService.clean img); [|injection H as <-; exact N].
      destruct (geminiService.generateContent ai _) as [response|];
        injection H as <-; [now apply (I response) | exact N].
  - intros p d Hp Hd Hne. unfold geminiService.clean.
    rewrite (split_comma_prefix p d Hp), (split_comma_free d Hd).
    cbn [nth_error]. unfold geminiService.or_else. cbn [truthy show].
    apply String.eqb_neq in Hne. now rewrite Hne.
  - intros s Hs. unfold geminiService.clean. now rewrite (split_comma_free s Hs).
Qed.

Lemma images_travel_as_data_urls_witness :
  (exists d,
      "data:image/png;base64,iVBORw0KGgo="%string
      = ("data:image/png;base64," +++ d)%string) /\
  geminiService.clean (CString "data:image/png;base64,iVBORw0KGgo=")
  = Some "iVBORw0KGgo="%string /\
  geminiService.clean (CString "iVBORw0KGgo=") = Some "iVBORw0KGgo="%string.
Proof.
  split; [|split].
  - apply (proj2 (proj1 (images_travel_as_data_urls geminiService.painter None
                           CUndefined)
                    (Some "data:image/png;base64,iVBORw0KGgo="%string)
                    (or_introl eq_refl))).
    reflexivity.
  - apply (proj1 (proj2 (images_travel_as_data_urls geminiService.painter None
                           CUndefined))
             "data:image/png;base64"%string "iVBORw0KGgo="%string);
      [reflexivity | reflexivity | discriminate].
  - apply (proj2 (proj2 (images_travel_as_data_urls geminiService.painter None
                           CUndefined)) "iVBORw0KGgo="%string).
    reflexivity.
Defined.
